(** * Game Showcase backend (server.js): persistence, rollback and broadcast

    A shallow embedding of [src/server.js].  The process state is the pair of
    module-level variables [games] and [fileSHA] together with the set of
    connected WebSocket clients.  Everything the server obtains from outside
    (the GitHub contents API, the clock, [Math.random]) is supplied by an
    explicit environment, and everything it does to the outside (HTTP calls,
    timers, console lines, WebSocket frames) is recorded in a trace.

    The code is embedded twice.  In the monad [M] a handler runs from its
    first line to its answer in one piece.  In [Async] the same code stops at
    each [await], so that the handlers of several requests overlap as the
    event loop lets them; a request that is handled with no other request
    resumed meanwhile does in [Async] what it does in [M] ([same_express_app],
    [settle_arrive]).

    What the embedding takes for granted:
    - when the body of a request is read, every field of it is absent or a
      string;
    - an entry of [games] is an object with the fields [/add] gives it, and
      [games] is an array without holes;
    - [ws.send], [res.json] and the console do not throw;
    - strings are sequences of code units below 256. *)

From Stdlib Require Import Ascii String List Arith NArith Lia.
From stdpp Require Import base tactics option list strings pretty.

Local Open Scope string_scope.
Local Open Scope list_scope.

(** ** JavaScript strings *)

(** Strings are sequences of code units below 256.  In that range the
    code units [String.prototype.trim] strips are TAB, LF, VT, FF, CR, SPACE
    and NBSP. *)
Definition is_whitespace (c : ascii) : bool :=
  match nat_of_ascii c with
  | 9 | 10 | 11 | 12 | 13 | 32 | 160 => true
  | _ => false
  end.

Fixpoint trimStart (s : string) : string :=
  match s with
  | EmptyString => EmptyString
  | String c r => if is_whitespace c then trimStart r else s
  end.

Definition trimEnd (s : string) : string :=
  String.rev (trimStart (String.rev s)).

Definition trim (s : string) : string := trimEnd (trimStart s).

(** A string is falsy exactly when it is empty. *)
Definition truthy_string (s : string) : bool :=
  match s with
  | EmptyString => false
  | String _ _ => true
  end.

(** A value that is [undefined]/[null] ([None]) or a string. *)
Definition truthy (v : option string) : bool :=
  match v with
  | Some s => truthy_string s
  | None => false
  end.

(** [field?.trim()] read as a condition and, when truthy, as a value:
    [None] when the field is absent or trims to the empty string. *)
Definition trimmed (field : option string) : option string :=
  match field with
  | Some s => if truthy_string (trim s) then Some (trim s) else None
  | None => None
  end.

Definition dquote : string := String (ascii_of_nat 34) EmptyString.

(** ** Data model *)

(** The object built by [POST /add]; [updatedAt] is absent until an edit. *)
Record Game := mkGame {
  id : string;
  title : string;
  description : string;
  link : string;
  image : option string;
  createdAt : string;
  updatedAt : option string
}.

(** A WebSocket in [wss.clients]. *)
Record Client := mkClient {
  cid : nat;
  readyState : nat
}.

(** The module-level variables [games] and [fileSHA], and [wss.clients]. *)
Record State := mkState {
  games : list Game;
  fileSHA : option string;
  clients : list Client
}.

Definition set_games (l : list Game) (s : State) : State :=
  {| games := l; fileSHA := fileSHA s; clients := clients s |}.

Definition set_fileSHA (sha : option string) (s : State) : State :=
  {| games := games s; fileSHA := sha; clients := clients s |}.

Definition set_clients (cs : list Client) (s : State) : State :=
  {| games := games s; fileSHA := fileSHA s; clients := cs |}.

(** ** The outside world *)

(** What one [fetch(GH_API, ...)] followed by reading its body amounts to.
    - [FetchThrows m]: [fetch], [res.json()] or the access to the [sha] member
      throws an error with message [m];
    - [FetchNotOk m]: a response with [ok] false; for a PUT [m] is
      [err.message || res.statusText];
    - [FetchOk sha]: a response with [ok] true carrying [sha] as
      [checkData.sha] (GET) or [saved.content.sha] (PUT). *)
Inductive FetchResult :=
| FetchThrows (m : string)
| FetchNotOk (m : string)
| FetchOk (sha : option string).

(** [req.file] after multer: the mime type and [buffer.toString('base64')]. *)
Record File := mkFile {
  mimetype : string;
  base64 : string
}.

Inductive Payload :=
| PGames (l : list Game)
| PGame (g : Game)
| PId (i : string).

(** A frame [{ type, payload, ts }]. *)
Record Message := mkMessage {
  type : string;
  payload : Payload;
  ts : N
}.

(** What the server does to the outside, in order.  [EPut] carries the
    commit message, the array that is serialised into [content], and the
    [sha] member of the body ([None] when it is left out). *)
Inductive Event :=
| EGet
| EPut (message : string) (content : list Game) (sha : option string)
| ESleep (ms : nat)
| ESaveFailed (attempt max : nat) (err : string)
| ECommitted (message : string)
| EError (err : string)
| EConnected
| ESend (to : nat) (msg : Message).

(** The remote store as a request sees it: the result of its k-th GET and
    of its k-th PUT, counted from 0. *)
Record Net := mkNet {
  on_get : nat -> FetchResult;
  on_put : nat -> FetchResult
}.

(** What a request sees of the outside: the remote store, [Date.now()] and
    [Math.random().toString(36).slice(2, 7)] at id generation,
    [new Date().toISOString()], and [Date.now()] in [broadcast]. *)
Record Env := mkEnv {
  net : Net;
  date_now : N;
  random36 : string;
  iso_now : string;
  ts_now : N
}.

(** ** A state-and-exception monad with a trace *)

Record Run := mkRun {
  st : State;
  gets : nat;
  puts : nat;
  trace : list Event
}.

Inductive Outcome (A : Type) :=
| Returned (a : A)
| Threw (err : string).
Arguments Returned {A} a.
Arguments Threw {A} err.

Definition M (A : Type) : Type := Run -> Outcome A * Run.

Definition ret {A} (a : A) : M A := fun r => (Returned a, r).

Definition bind {A B} (m : M A) (k : A -> M B) : M B :=
  fun r =>
    match m r with
    | (Returned a, r') => k a r'
    | (Threw e, r') => (Threw e, r')
    end.

Definition throw {A} (e : string) : M A := fun r => (Threw e, r).

Definition try_catch {A} (m : M A) (handler : string -> M A) : M A :=
  fun r =>
    match m r with
    | (Returned a, r') => (Returned a, r')
    | (Threw e, r') => handler e r'
    end.

Declare Scope js_scope.
Delimit Scope js_scope with js.
Notation "x <- m ;; k" := (bind m (fun x => k))
  (at level 100, m at next level, right associativity) : js_scope.
Notation "m ;; k" := (bind m (fun _ => k))
  (at level 100, right associativity) : js_scope.
Local Open Scope js_scope.

Definition emit (e : Event) : M unit :=
  fun r => (Returned tt,
            {| st := st r; gets := gets r; puts := puts r;
               trace := trace r ++ [e] |}).

Definition get_state : M State := fun r => (Returned (st r), r).

Definition modify (f : State -> State) : M unit :=
  fun r => (Returned tt,
            {| st := f (st r); gets := gets r; puts := puts r;
               trace := trace r |}).

(** [await fetch(GH_API, { headers })] and what is read of the response. *)
Definition fetch_get (nw : Net) : M FetchResult :=
  fun r => (Returned (on_get nw (gets r)),
            {| st := st r; gets := S (gets r); puts := puts r;
               trace := trace r ++ [EGet] |}).

(** [await fetch(GH_API, { method: 'PUT', headers, body })] and what is read
    of the response. *)
Definition fetch_put (nw : Net) (message : string) (content : list Game)
    (sha : option string) : M FetchResult :=
  fun r => (Returned (on_put nw (puts r)),
            {| st := st r; gets := gets r; puts := S (puts r);
               trace := trace r ++ [EPut message content sha] |}).

(** ** saveToGitHub *)

Definition MAX_RETRIES : nat := 3.

(** The body of the [try] block of one attempt. *)
Definition save_attempt (nw : Net) (message : string)
    (attempt : nat) : M unit :=
  s <- get_state ;;
  (if (1 <? attempt)%nat || negb (truthy (fileSHA s)) then
     check <- fetch_get nw ;;
     match check with
     | FetchThrows m => throw m
     | FetchNotOk _ => ret tt
     | FetchOk sha => modify (set_fileSHA sha)
     end
   else ret tt) ;;
  s <- get_state ;;
  res <- fetch_put nw message (games s)
           (if truthy (fileSHA s) then fileSHA s else None) ;;
  match res with
  | FetchThrows m => throw m
  | FetchNotOk m => throw m
  | FetchOk sha =>
      modify (set_fileSHA sha) ;;
      emit (ECommitted message)
  end.

(** The [for] loop, entered at [attempt] with [MAX_RETRIES + 1 - attempt]
    iterations left. *)
Fixpoint save_loop (nw : Net) (message : string)
    (left attempt : nat) : M unit :=
  match left with
  | 0 => ret tt
  | S left' =>
      try_catch (save_attempt nw message attempt)
        (fun err =>
           emit (ESaveFailed attempt MAX_RETRIES err) ;;
           if (attempt =? MAX_RETRIES)%nat then throw err
           else
             emit (ESleep (500 * attempt)) ;;
             save_loop nw message left' (S attempt))
  end.

Definition saveToGitHub (nw : Net) (message : string) : M unit :=
  save_loop nw message MAX_RETRIES 1.

(** Running a computation from a state, with no fetch made and nothing
    traced yet. *)
Definition start (s : State) : Run :=
  {| st := s; gets := 0; puts := 0; trace := [] |}.

Definition exec {A} (m : M A) (s : State) : Outcome A * State * list Event :=
  match m (start s) with
  | (o, r) => (o, st r, trace r)
  end.

(** ** Arrays *)

(** [games.findIndex(p)]; [None] stands for -1. *)
Fixpoint findIndex (p : Game -> bool) (l : list Game) : option nat :=
  match l with
  | [] => None
  | g :: l' => if p g then Some 0 else S <$> findIndex p l'
  end.

(** The callback [g => g.id === id]. *)
Definition has_id (i : string) (g : Game) : bool := String.eqb (id g) i.

(** [games.push(x)], [games.pop()], [games[idx] = x], [games.splice(idx, 1)]
    and [games.splice(idx, 0, x)] as functions on the array's contents. *)
Definition push (x : Game) (l : list Game) : list Game := l ++ [x].
Definition pop (l : list Game) : list Game := removelast l.
Definition assign (idx : nat) (x : Game) (l : list Game) : list Game :=
  <[idx := x]> l.
Definition splice_out (idx : nat) (l : list Game) : list Game :=
  take idx l ++ drop (S idx) l.
Definition splice_in (idx : nat) (x : Game) (l : list Game) : list Game :=
  take idx l ++ x :: drop idx l.

(** A store of arrays addressed by reference, for the one place where the
    server reverses an array in place. *)
Definition Store : Type := list (list Game).

Definition deref (h : Store) (a : nat) : list Game := default [] (h !! a).

(** [[...a]]: a new array with the same elements. *)
Definition spread (h : Store) (a : nat) : Store * nat :=
  (h ++ [deref h a], length h).

(** [a.reverse()]: reverses the array at [a] in place and returns [a]. *)
Definition reverse (h : Store) (a : nat) : Store * nat :=
  (<[a := rev (deref h a)]> h, a).

(** ** Requests and responses *)

Record Request := mkRequest {
  authorization : option string;
  body_id : option string;
  body_title : option string;
  body_description : option string;
  body_link : option string;
  body_image : option string;
  file : option File
}.

Inductive Body :=
| BGames (l : list Game)
| BGame (g : Game)
| BError (error : string)
| BDeleted (i : string)
| BHealth (n : nat).

Record Response := mkResponse {
  status : nat;
  body : Body
}.

Definition data_uri (f : File) : string :=
  "data:" +:+ mimetype f +:+ ";base64," +:+ base64 f.

(** ** WebSocket *)

Fixpoint send_all (msg : Message) (cs : list Client) : M unit :=
  match cs with
  | [] => ret tt
  | c :: cs' =>
      (if (readyState c =? 1)%nat then emit (ESend (cid c) msg) else ret tt) ;;
      send_all msg cs'
  end.

Definition broadcast (ty : string) (p : Payload) (now : N) : M unit :=
  s <- get_state ;;
  send_all {| type := ty; payload := p; ts := now |} (clients s).

(** The ['connection'] listener. *)
Definition on_connection (ws : Client) (env : Env) : M unit :=
  emit EConnected ;;
  s <- get_state ;;
  emit (ESend (cid ws)
          {| type := "init"; payload := PGames (games s); ts := ts_now env |}).

(** A socket is accepted: the server adds it to [wss.clients] and calls the
    listener. *)
Definition connect (ws : Client) (env : Env) : M unit :=
  modify (fun s => set_clients (clients s ++ [ws]) s) ;;
  on_connection ws env.

(** ** Routes *)

Section Routes.

Variable ADMIN_TOKEN : string.

Definition requireAuth (req : Request) (next : M Response) : M Response :=
  match authorization req with
  | Some token =>
      if negb (truthy_string token)
         || negb (String.eqb token ("Bearer " +:+ ADMIN_TOKEN))
      then ret {| status := 401; body := BError "Unauthorized" |}
      else next
  | None => ret {| status := 401; body := BError "Unauthorized" |}
  end.

(** [GET /games]: [res.json([...games].reverse())].  The array bound to
    [games] sits at reference 0 of a store. *)
Definition get_games : M Response :=
  s <- get_state ;;
  let h0 : Store := [games s] in
  let '(h1, copy) := spread h0 0 in
  let '(h2, reversed) := reverse h1 copy in
  modify (set_games (deref h2 0)) ;;
  ret {| status := 200; body := BGames (deref h2 reversed) |}.

Definition get_health : M Response :=
  s <- get_state ;;
  ret {| status := 200; body := BHealth (length (games s)) |}.

Definition new_image (req : Request) (old : option string) : option string :=
  match file req with
  | Some f => Some (data_uri f)
  | None => if truthy (body_image req) then body_image req else old
  end.

Definition new_game (t d l : string) (req : Request) (env : Env) : Game :=
  {| id := "game_" +:+ pretty (date_now env) +:+ "_" +:+ random36 env;
     title := t;
     description := d;
     link := l;
     image := new_image req None;
     createdAt := iso_now env;
     updatedAt := None |}.

Definition commit_message (verb : string) (g : Game) : string :=
  "Update games.json: " +:+ verb +:+ " " +:+ dquote +:+ title g +:+ dquote.

(** The handlers, each in one piece: in [M] nothing else runs between the
    first line of a handler and its answer.  [Async.post_add],
    [Async.post_edit] and [Async.post_delete] below are the same handlers
    with their [await]s. *)
Definition post_add (req : Request) (env : Env) : M Response :=
  match trimmed (body_title req), trimmed (body_description req),
        trimmed (body_link req) with
  | Some t, Some d, Some l =>
      let game := new_game t d l req env in
      modify (fun s => set_games (push game (games s)) s) ;;
      try_catch
        (saveToGitHub (net env) (commit_message "add" game) ;;
         broadcast "add" (PGame game) (ts_now env) ;;
         ret {| status := 201; body := BGame game |})
        (fun err =>
           modify (fun s => set_games (pop (games s)) s) ;;
           emit (EError err) ;;
           ret {| status := 500; body := BError "Failed to persist game" |})
  | _, _, _ =>
      ret {| status := 400;
             body := BError "title, description, and link are required" |}
  end.

Definition edited (g : Game) (req : Request) (env : Env) : Game :=
  {| id := id g;
     title := default (title g) (trimmed (body_title req));
     description := default (description g) (trimmed (body_description req));
     link := default (link g) (trimmed (body_link req));
     image := new_image req (image g);
     createdAt := createdAt g;
     updatedAt := Some (iso_now env) |}.

(** In [post_edit] and [post_delete] the element at [idx] exists, since
    [idx] was just found in the same array ([findIndex_lookup] below); the
    [None] branch of the lookup is never taken. *)
Definition post_edit (req : Request) (env : Env) : M Response :=
  match body_id req with
  | Some i =>
      if negb (truthy_string i)
      then ret {| status := 400; body := BError "id is required" |}
      else
        s <- get_state ;;
        match findIndex (has_id i) (games s) with
        | None => ret {| status := 404; body := BError "Game not found" |}
        | Some idx =>
            match games s !! idx with
            | None => throw "TypeError"
            | Some prev =>
                let updated := edited prev req env in
                modify (fun s => set_games (assign idx updated (games s)) s) ;;
                try_catch
                  (saveToGitHub (net env) (commit_message "edit" updated) ;;
                   broadcast "edit" (PGame updated) (ts_now env) ;;
                   ret {| status := 200; body := BGame updated |})
                  (fun err =>
                     modify (fun s => set_games (assign idx prev (games s)) s) ;;
                     emit (EError err) ;;
                     ret {| status := 500;
                            body := BError "Failed to persist changes" |})
            end
        end
  | None => ret {| status := 400; body := BError "id is required" |}
  end.

Definition post_delete (req : Request) (env : Env) : M Response :=
  match body_id req with
  | Some i =>
      if negb (truthy_string i)
      then ret {| status := 400; body := BError "id is required" |}
      else
        s <- get_state ;;
        match findIndex (has_id i) (games s) with
        | None => ret {| status := 404; body := BError "Game not found" |}
        | Some idx =>
            match games s !! idx with
            | None => throw "TypeError"
            | Some removed =>
                modify (fun s => set_games (splice_out idx (games s)) s) ;;
                try_catch
                  (saveToGitHub (net env) (commit_message "delete" removed) ;;
                   broadcast "delete" (PId (id removed)) (ts_now env) ;;
                   ret {| status := 200; body := BDeleted (id removed) |})
                  (fun err =>
                     modify (fun s =>
                               set_games (splice_in idx removed (games s)) s) ;;
                     emit (EError err) ;;
                     ret {| status := 500;
                            body := BError "Failed to persist deletion" |})
            end
        end
  | None => ret {| status := 400; body := BError "id is required" |}
  end.

(** The three mutating routes. *)
Inductive Op := Add | Edit | Delete.

Definition handler (op : Op) : Request -> Env -> M Response :=
  match op with
  | Add => post_add
  | Edit => post_edit
  | Delete => post_delete
  end.

(** [requireAuth] and then the handler.  This is the whole of [/delete]; on
    [/add] and [/edit], [upload.single('image')] stands between the two
    ([app_post] below), and [express.json] comes before all of them
    ([express_app]). *)
Definition route (op : Op) (req : Request) (env : Env) : M Response :=
  requireAuth req (handler op req env).

End Routes.

(** ** Upload filter, error handler, initial load *)

(** [s.startsWith(p)]. *)
Fixpoint startsWith (s p : string) {struct p} : bool :=
  match p, s with
  | EmptyString, _ => true
  | String c p', String d s' => Ascii.eqb c d && startsWith s' p'
  | String _ _, EmptyString => false
  end.

(** The [fileFilter] given to multer: [None] when the file is let through
    ([cb(null, true)]), the message of the error otherwise. *)
Definition fileFilter (f : File) : option string :=
  if negb (startsWith (mimetype f) "image/")
  then Some "Only image files are allowed"
  else None.

(** The error-handling middleware registered last. *)
Definition errorHandler (message : string) : M Response :=
  emit (EError ("Unhandled error: " +:+ message)) ;;
  ret {| status := 500;
         body := BError (if truthy_string message then message
                         else "Internal server error") |}.

(** [upload.single('image')]: the file part of the request, if there is
    one, goes through [fileFilter]; a refused file ends the request in the
    error handler, otherwise the file becomes [req.file].  The errors that
    multer raises by itself, such as that of its size limit, are the
    [Refused] requests of [express_app] below. *)
Definition upload_single (req : Request) (next : M Response) : M Response :=
  match file req with
  | Some f =>
      match fileFilter f with
      | Some message => errorHandler message
      | None => next
      end
  | None => next
  end.

(** [app.post] for the three mutating paths, with every middleware:
    [/add] and [/edit] go through [requireAuth] and [upload.single],
    [/delete] through [requireAuth] only. *)
Definition app_post (ADMIN_TOKEN : string) (op : Op) (req : Request)
    (env : Env) : M Response :=
  requireAuth ADMIN_TOKEN req
    (match op with
     | Add | Edit => upload_single req (handler op req env)
     | Delete => handler op req env
     end).

(** What the GET of [loadFromGitHub] amounts to:
    - [LoadThrows m]: [fetch] or [res.json()] throws;
    - [LoadNotFound]: the status is 404;
    - [LoadDocument sha content]: a body whose [sha] member is [sha], and
      whose [content] member either makes the decoding or [JSON.parse] throw
      ([inl] of the message) or decodes to an array of entries ([inr]).
    A [content] that parses to something else than an array of entries
    ([null], a number, an object) has no case here: the code would bind it
    to [games], which in this development is always an array. *)
Inductive LoadResult :=
| LoadThrows (m : string)
| LoadNotFound
| LoadDocument (sha : option string) (content : string + list Game).

(** The console line [loadFromGitHub] prints. *)
Inductive BootLine :=
| NotFoundLine
| LoadedLine (n : nat)
| LoadFailedLine (m : string).

(** The [try] block of [loadFromGitHub]: the state it leaves, and the
    error thrown or the line logged. *)
Definition load_try (res : LoadResult) (s : State) : State * (string + BootLine) :=
  match res with
  | LoadThrows m => (s, inl m)
  | LoadNotFound => (s, inr NotFoundLine)
  | LoadDocument sha content =>
      let s1 := set_fileSHA sha s in
      match content with
      | inl m => (s1, inl m)
      | inr l => (set_games l s1, inr (LoadedLine (length l)))
      end
  end.

Definition loadFromGitHub (res : LoadResult) (s : State)
    : State * list BootLine :=
  match load_try res s with
  | (s', inl m) => (s', [LoadFailedLine m])
  | (s', inr line) => (s', [line])
  end.

(** The module-level variables as declared: [games = []],
    [fileSHA = null], and nobody connected. *)
Definition initial_state : State :=
  {| games := []; fileSHA := None; clients := [] |}.

(** Boot: [await loadFromGitHub()] on the initial state. *)
Definition boot (res : LoadResult) : State * list BootLine :=
  loadFromGitHub res initial_state.

(** ** The middleware stack *)

(** A request to a mutating route as it reaches the app.
    - [Unparsable authorization message]: [express.json] refuses the body
      (JSON that does not parse, or more than 3mb of it) with an error of
      message [message];
    - [Refused req message]: the body is read, and on [/add] and [/edit]
      multer ends the upload with an error of its own, of message
      [message]: a file larger than the 2 MB of its [fileSize] limit, a
      file in another field than [image], a multipart body it cannot read;
    - [Parsed req]: the body is read and multer has no error of its own;
      the request goes on with the fields and the file of [req]. *)
Inductive Incoming :=
| Unparsable (authorization : option string) (message : string)
| Refused (req : Request) (message : string)
| Parsed (req : Request).

(** The request that [requireAuth] sees, when [express.json] lets the
    request through. *)
Definition carried (inc : Incoming) : option Request :=
  match inc with
  | Unparsable _ _ => None
  | Refused req _ | Parsed req => Some req
  end.

(** The app ([const app = express()]) for a request to [/add], [/edit] or
    [/delete]: [express.json], registered before the routes, then the
    route, which is [requireAuth], on [/add] and [/edit]
    [upload.single('image')], and the handler.  An error of [express.json]
    or of multer goes to the error handler, past what is left of the
    route. *)
Definition express_app (ADMIN_TOKEN : string) (op : Op) (inc : Incoming)
    (env : Env) : M Response :=
  match inc with
  | Unparsable _ message => errorHandler message
  | Refused req message =>
      requireAuth ADMIN_TOKEN req
        (match op with
         | Add | Edit => errorHandler message
         | Delete => handler op req env
         end)
  | Parsed req => app_post ADMIN_TOKEN op req env
  end.

(** * Handlers that overlap *)

(** The handlers again, now stopping at their [await]s.  Between two
    [await]s a handler runs without interruption, as JavaScript has it; at
    an [await] the event loop may resume any other request.  An
    [await fetch(...)] and the [await res.json()] that follows it are one
    stop here, the handler touching neither [games] nor [fileSHA] between
    the two; so are the stops of the middleware before the handler.  What a
    request gets from outside (the answer to its k-th GET or PUT, the clock)
    is in its own [Env], as in [M]. *)

Module Async.

#[local] Unset Elimination Schemes.

(** A computation that has stopped: it is over, with a value or an error;
    or it waits at an [await], and goes on from the world it is resumed in
    until it stops again; or it has left a hole in [games], which this
    development has no array for. *)
Inductive Co (A : Type) : Type :=
| Done (o : Outcome A)
| Sparse
| Await (k : Run -> Co A * Run).

#[local] Set Elimination Schemes.

Arguments Done {A} o.
Arguments Sparse {A}.
Arguments Await {A} k.

(** Induction on a computation: what holds of the ended computations, and
    of a waiting one whenever it holds of whatever it goes on to be, holds
    of all. *)
Fixpoint Co_ind {A} (P : Co A -> Prop)
    (HD : forall o, P (Done o)) (HS : P Sparse)
    (HA : forall k, (forall r, P (k r).1) -> P (Await k))
    (c : Co A) : P c :=
  match c with
  | Done o => HD o
  | Sparse => HS
  | Await k => HA k (fun r => Co_ind P HD HS HA (k r).1)
  end.

(** A computation that is running. *)
Definition Running (A : Type) : Type := Run -> Co A * Run.

Definition ret {A} (a : A) : Running A := fun r => (Done (Returned a), r).

Definition throw {A} (e : string) : Running A := fun r => (Done (Threw e), r).

Definition sparse {A} : Running A := fun r => (Sparse, r).

(** Synchronous code. *)
Definition now {A} (m : M A) : Running A :=
  fun r => let (o, r') := m r in (Done o, r').

(** [await]: the computation stops here and goes on when it is resumed. *)
Definition await : Running unit :=
  fun r => (Await (fun r' => (Done (Returned tt), r')), r).

Fixpoint co_bind {A B} (c : Co A) (f : A -> Running B) (r : Run)
    : Co B * Run :=
  match c with
  | Done (Returned a) => f a r
  | Done (Threw e) => (Done (Threw e), r)
  | Sparse => (Sparse, r)
  | Await k => (Await (fun r' => let (c', r'') := k r' in co_bind c' f r''), r)
  end.

Definition bind {A B} (m : Running A) (f : A -> Running B) : Running B :=
  fun r => let (c, r') := m r in co_bind c f r'.

Fixpoint co_catch {A} (c : Co A) (handler : string -> Running A) (r : Run)
    : Co A * Run :=
  match c with
  | Done (Returned a) => (Done (Returned a), r)
  | Done (Threw e) => handler e r
  | Sparse => (Sparse, r)
  | Await k =>
      (Await (fun r' => let (c', r'') := k r' in co_catch c' handler r''), r)
  end.

Definition try_catch {A} (m : Running A) (handler : string -> Running A)
    : Running A :=
  fun r => let (c, r') := m r in co_catch c handler r'.

Declare Scope async_scope.
Delimit Scope async_scope with async.
Notation "x <- m ;; k" := (bind m (fun x => k))
  (at level 100, m at next level, right associativity) : async_scope.
Notation "m ;; k" := (bind m (fun _ => k))
  (at level 100, right associativity) : async_scope.
Local Open Scope async_scope.

(** *** saveToGitHub *)

Definition save_attempt (nw : Net) (message : string)
    (attempt : nat) : Running unit :=
  s <- now get_state ;;
  (if (1 <? attempt)%nat || negb (truthy (fileSHA s)) then
     check <- now (fetch_get nw) ;;
     await ;;
     match check with
     | FetchThrows m => throw m
     | FetchNotOk _ => ret tt
     | FetchOk sha => now (modify (set_fileSHA sha))
     end
   else ret tt) ;;
  s <- now get_state ;;
  res <- now (fetch_put nw message (games s)
                (if truthy (fileSHA s) then fileSHA s else None)) ;;
  await ;;
  match res with
  | FetchThrows m => throw m
  | FetchNotOk m => throw m
  | FetchOk sha =>
      now (modify (set_fileSHA sha)) ;;
      now (emit (ECommitted message))
  end.

Fixpoint save_loop (nw : Net) (message : string)
    (left attempt : nat) : Running unit :=
  match left with
  | 0 => ret tt
  | S left' =>
      try_catch (save_attempt nw message attempt)
        (fun err =>
           now (emit (ESaveFailed attempt MAX_RETRIES err)) ;;
           if (attempt =? MAX_RETRIES)%nat then throw err
           else
             now (emit (ESleep (500 * attempt))) ;;
             await ;;
             save_loop nw message left' (S attempt))
  end.

Definition saveToGitHub (nw : Net) (message : string) : Running unit :=
  save_loop nw message MAX_RETRIES 1.

(** *** Arrays *)

(** [games[idx] = x] for an index that need not be in range: within the
    array the element is replaced, at its end the array grows by one, and
    beyond its end JavaScript leaves holes ([None]). *)
Definition assign_at (idx : nat) (x : Game) (l : list Game)
    : option (list Game) :=
  if (idx <? length l)%nat then Some (<[idx := x]> l)
  else if (idx =? length l)%nat then Some (l ++ [x])
  else None.

(** *** Routes *)

Section Routes.

Variable ADMIN_TOKEN : string.

Definition requireAuth (req : Request) (next : Running Response)
    : Running Response :=
  match authorization req with
  | Some token =>
      if negb (truthy_string token)
         || negb (String.eqb token ("Bearer " +:+ ADMIN_TOKEN))
      then ret {| status := 401; body := BError "Unauthorized" |}
      else next
  | None => ret {| status := 401; body := BError "Unauthorized" |}
  end.

Definition post_add (req : Request) (env : Env) : Running Response :=
  match trimmed (body_title req), trimmed (body_description req),
        trimmed (body_link req) with
  | Some t, Some d, Some l =>
      let game := new_game t d l req env in
      now (modify (fun s => set_games (push game (games s)) s)) ;;
      try_catch
        (saveToGitHub (net env) (commit_message "add" game) ;;
         now (broadcast "add" (PGame game) (ts_now env)) ;;
         ret {| status := 201; body := BGame game |})
        (fun err =>
           now (modify (fun s => set_games (pop (games s)) s)) ;;
           now (emit (EError err)) ;;
           ret {| status := 500; body := BError "Failed to persist game" |})
  | _, _, _ =>
      ret {| status := 400;
             body := BError "title, description, and link are required" |}
  end.

Definition post_edit (req : Request) (env : Env) : Running Response :=
  match body_id req with
  | Some i =>
      if negb (truthy_string i)
      then ret {| status := 400; body := BError "id is required" |}
      else
        s <- now get_state ;;
        match findIndex (has_id i) (games s) with
        | None => ret {| status := 404; body := BError "Game not found" |}
        | Some idx =>
            match games s !! idx with
            | None => throw "TypeError"
            | Some prev =>
                let updated := edited prev req env in
                now (modify (fun s =>
                               set_games (assign idx updated (games s)) s)) ;;
                try_catch
                  (saveToGitHub (net env) (commit_message "edit" updated) ;;
                   now (broadcast "edit" (PGame updated) (ts_now env)) ;;
                   ret {| status := 200; body := BGame updated |})
                  (fun err =>
                     s <- now get_state ;;
                     match assign_at idx prev (games s) with
                     | Some l =>
                         now (modify (set_games l)) ;;
                         now (emit (EError err)) ;;
                         ret {| status := 500;
                                body := BError "Failed to persist changes" |}
                     | None => sparse
                     end)
            end
        end
  | None => ret {| status := 400; body := BError "id is required" |}
  end.

Definition post_delete (req : Request) (env : Env) : Running Response :=
  match body_id req with
  | Some i =>
      if negb (truthy_string i)
      then ret {| status := 400; body := BError "id is required" |}
      else
        s <- now get_state ;;
        match findIndex (has_id i) (games s) with
        | None => ret {| status := 404; body := BError "Game not found" |}
        | Some idx =>
            match games s !! idx with
            | None => throw "TypeError"
            | Some removed =>
                now (modify (fun s =>
                               set_games (splice_out idx (games s)) s)) ;;
                try_catch
                  (saveToGitHub (net env) (commit_message "delete" removed) ;;
                   now (broadcast "delete" (PId (id removed)) (ts_now env)) ;;
                   ret {| status := 200; body := BDeleted (id removed) |})
                  (fun err =>
                     now (modify (fun s =>
                            set_games (splice_in idx removed (games s)) s)) ;;
                     now (emit (EError err)) ;;
                     ret {| status := 500;
                            body := BError "Failed to persist deletion" |})
            end
        end
  | None => ret {| status := 400; body := BError "id is required" |}
  end.

Definition handler (op : Op) : Request -> Env -> Running Response :=
  match op with
  | Add => post_add
  | Edit => post_edit
  | Delete => post_delete
  end.

Definition upload_single (req : Request) (next : Running Response)
    : Running Response :=
  match file req with
  | Some f =>
      match fileFilter f with
      | Some message => now (errorHandler message)
      | None => next
      end
  | None => next
  end.

Definition app_post (op : Op) (req : Request) (env : Env)
    : Running Response :=
  requireAuth req
    (match op with
     | Add | Edit => upload_single req (handler op req env)
     | Delete => handler op req env
     end).

Definition express_app (op : Op) (inc : Incoming) (env : Env)
    : Running Response :=
  match inc with
  | Unparsable _ message => now (errorHandler message)
  | Refused req message =>
      requireAuth req
        (match op with
         | Add | Edit => now (errorHandler message)
         | Delete => handler op req env
         end)
  | Parsed req => app_post op req env
  end.

End Routes.

(** *** The server with its requests in flight *)

(** A request in flight: where its handling stands, how many GETs and PUTs
    it has made, and what it has done to the outside so far. *)
Record Pending := mkPending {
  code : Co Response;
  fetched : nat;
  written : nat;
  did : list Event
}.

Record Server := mkServer {
  shared : State;
  pending : list Pending
}.

(** A request that has arrived and whose handling has not begun. *)
Definition arrive (ADMIN_TOKEN : string) (op : Op) (inc : Incoming)
    (env : Env) : Pending :=
  {| code := Await (express_app ADMIN_TOKEN op inc env);
     fetched := 0; written := 0; did := [] |}.

(** The world as request [p] finds it when it is resumed. *)
Definition view (sv : Server) (p : Pending) : Run :=
  {| st := shared sv; gets := fetched p; puts := written p; trace := did p |}.

(** The event loop resumes request [i]: it runs until its next [await] or
    its end. *)
Definition resume (i : nat) (sv : Server) : Server :=
  match pending sv !! i with
  | Some p =>
      match code p with
      | Await k =>
          let (c, r) := k (view sv p) in
          {| shared := st r;
             pending := <[i := {| code := c; fetched := gets r;
                                  written := puts r; did := trace r |}]>
                          (pending sv) |}
      | _ => sv
      end
  | None => sv
  end.

(** The requests resumed in the order of [schedule]. *)
Definition run (schedule : list nat) (sv : Server) : Server :=
  foldl (fun sv i => resume i sv) sv schedule.

(** How many times a computation is resumed until it is over, when nothing
    else runs meanwhile. *)
Fixpoint resumptions {A} (c : Co A) (r : Run) : nat :=
  match c with
  | Await k => S (let (c', r') := k r in resumptions c' r')
  | _ => 0
  end.

(** Request [i] handled to its end with no other request resumed
    meanwhile. *)
Definition settle (i : nat) (sv : Server) : Server :=
  match pending sv !! i with
  | Some p => run (replicate (resumptions (code p) (view sv p)) i) sv
  | None => sv
  end.

(** Every request handled to its end before the next one is begun. *)
Definition in_turn (sv : Server) : Server :=
  foldl (fun sv i => settle i sv) sv (seq 0 (length (pending sv))).

(** The answer request [i] has got, if any. *)
Definition answer (i : nat) (sv : Server) : option (Outcome Response) :=
  match pending sv !! i with
  | Some {| code := Done o |} => Some o
  | _ => None
  end.

End Async.

(** * Vocabulary of the verification *)

(** ** Observations on traces *)

(** Every attempt of a save ends in exactly one of [ESaveFailed] and
    [ECommitted]. *)
Definition ends_attempt (e : Event) : bool :=
  match e with
  | ESaveFailed _ _ _ | ECommitted _ => true
  | _ => false
  end.

(** The attempts made. *)
Fixpoint attempts (tr : list Event) : nat :=
  match tr with
  | [] => 0
  | e :: tr' => (if ends_attempt e then 1 else 0) + attempts tr'
  end.

(** The delays slept, in order. *)
Fixpoint sleeps (tr : list Event) : list nat :=
  match tr with
  | [] => []
  | ESleep ms :: tr' => ms :: sleeps tr'
  | _ :: tr' => sleeps tr'
  end.

(** The PUT requests made. *)
Fixpoint put_count (tr : list Event) : nat :=
  match tr with
  | [] => 0
  | EPut _ _ _ :: tr' => S (put_count tr')
  | _ :: tr' => put_count tr'
  end.

(** The GET requests made. *)
Fixpoint get_count (tr : list Event) : nat :=
  match tr with
  | [] => 0
  | EGet :: tr' => S (get_count tr')
  | _ :: tr' => get_count tr'
  end.

(** A response with [ok] true. *)
Definition is_ok (f : FetchResult) : bool :=
  match f with
  | FetchOk _ => true
  | _ => false
  end.

(** A fetch that throws. *)
Definition throws (f : FetchResult) : bool :=
  match f with
  | FetchThrows _ => true
  | _ => false
  end.

(** The error a failed PUT raises. *)
Definition put_error (f : FetchResult) : string :=
  match f with
  | FetchThrows m | FetchNotOk m => m
  | FetchOk _ => EmptyString
  end.

(** The version tag after the GETs number [from], ..., [from + n - 1], each
    of which overwrites it when its response is ok. *)
Fixpoint refetched (nw : Net) (from n : nat) (sha : option string)
    : option string :=
  match n with
  | 0 => sha
  | S n' =>
      refetched nw (S from) n'
        (match on_get nw from with
         | FetchOk x => x
         | _ => sha
         end)
  end.

(** The [sha] member of the body of a PUT made when [fileSHA] holds [tag]:
    the tag when it is truthy, no member otherwise. *)
Definition tag_sent (tag : option string) : option string :=
  if truthy tag then tag else None.

(** In the events [tr] of a save entered after [g] GETs with [tag] in
    [fileSHA]: every GET either throws or is followed at once by a PUT of
    [content] under [message] that carries the tag as the GETs so far have
    left it. *)
Definition refetch_used (nw : Net) (message : string) (content : list Game)
    (g : nat) (tag : option string) (tr : list Event) : Prop :=
  forall i,
    tr !! i = Some EGet ->
    throws (on_get nw (g + get_count (take i tr))) = true \/
    tr !! S i =
      Some (EPut message content
              (tag_sent (refetched nw g (S (get_count (take i tr))) tag))).

(** A run with further events traced. *)
Definition logged (r : Run) (evs : list Event) : Run :=
  {| st := st r; gets := gets r; puts := puts r; trace := trace r ++ evs |}.

(** The frames [broadcast] sends: one to each client whose [readyState]
    is 1, in the order of [wss.clients]. *)
Fixpoint frames (msg : Message) (cs : list Client) : list Event :=
  match cs with
  | [] => []
  | c :: cs' =>
      (if (readyState c =? 1)%nat then [ESend (cid c) msg] else [])
      ++ frames msg cs'
  end.

(** ** The grammar of a save's trace *)

(** What one attempt numbered [k] of a save with commit message [message]
    leaves in the trace, by outcome, when [games] holds [content]. *)
Inductive attempt_events (message : string) (content : list Game) (k : nat)
    : Outcome unit -> list Event -> Prop :=
| AE_get_throws e :
    attempt_events message content k (Threw e) [EGet]
| AE_put_fails e sha :
    attempt_events message content k (Threw e)
      [EGet; EPut message content sha]
| AE_put_ok sha :
    attempt_events message content k (Returned tt)
      [EGet; EPut message content sha; ECommitted message]
| AE_first_put_fails e sha :
    k <= 1 ->
    attempt_events message content k (Threw e) [EPut message content sha]
| AE_first_put_ok sha :
    k <= 1 ->
    attempt_events message content k (Returned tt)
      [EPut message content sha; ECommitted message].

(** What the loop entered at attempt [k] leaves in the trace. *)
Inductive loop_events (message : string) (content : list Game)
    : nat -> Outcome unit -> list Event -> Prop :=
| LE_done k tr :
    attempt_events message content k (Returned tt) tr ->
    loop_events message content k (Returned tt) tr
| LE_exhausted tr e :
    attempt_events message content MAX_RETRIES (Threw e) tr ->
    loop_events message content MAX_RETRIES (Threw e)
      (tr ++ [ESaveFailed MAX_RETRIES MAX_RETRIES e])
| LE_retry k tr e o tr' :
    k < MAX_RETRIES ->
    attempt_events message content k (Threw e) tr ->
    loop_events message content (S k) o tr' ->
    loop_events message content k o
      (tr ++ [ESaveFailed k MAX_RETRIES e; ESleep (500 * k)] ++ tr').

(** ** The handlers' common pattern *)

(** The part every mutating handler ends with: save, then broadcast and
    answer, or undo and answer 500. *)
Definition persist (nw : Net) (message ty : string) (p : Payload) (now : N)
    (ok : Response) (undo : list Game -> list Game) (failed : string)
    : M Response :=
  try_catch
    (saveToGitHub nw message ;;
     broadcast ty p now ;;
     ret ok)
    (fun err =>
       modify (fun s => set_games (undo (games s)) s) ;;
       emit (EError err) ;;
       ret {| status := 500; body := BError failed |}).

(** The [error] member of each route's answer to a failed save. *)
Definition persist_failure (op : Op) : string :=
  match op with
  | Add => "Failed to persist game"
  | Edit => "Failed to persist changes"
  | Delete => "Failed to persist deletion"
  end.

(** The one [authorization] header that [requireAuth] lets through. *)
Definition bearer (ADMIN_TOKEN : string) : option string :=
  Some ("Bearer " +:+ ADMIN_TOKEN).


(** ** Inputs, rules and sequences of requests *)

(** A body field that is absent or trims to the empty string. *)
Definition blank (field : option string) : Prop :=
  field = None \/ exists x, field = Some x /\ trim x = EmptyString.



(** The id that [/add] generates. *)
Definition generated_id (env : Env) : string :=
  "game_" +:+ pretty (date_now env) +:+ "_" +:+ random36 env.

(** One request to a mutating route, with what it sees of the outside. *)
Record Call := mkCall {
  call_op : Op;
  call_req : Request;
  call_env : Env
}.

(** ** What a request asks of the array *)

(** The change a mutating handler makes to [games] before it saves, how it
    undoes it, and what it says when the save returns. *)
Record Mutation := mkMutation {
  mut_apply : list Game -> list Game;
  mut_undo : list Game -> list Game;
  mut_message : string;
  mut_type : string;
  mut_payload : Payload;
  mut_ok : Response
}.

(** The change that a request to a handler asks for when [games] holds [l];
    [None] when the handler answers 400 or 404. *)
Definition mutation_of (op : Op) (req : Request) (env : Env) (l : list Game)
    : option Mutation :=
  match op with
  | Add =>
      match trimmed (body_title req), trimmed (body_description req),
            trimmed (body_link req) with
      | Some t, Some d, Some k =>
          let g := new_game t d k req env in
          Some {| mut_apply := push g; mut_undo := pop;
                  mut_message := commit_message "add" g;
                  mut_type := "add"; mut_payload := PGame g;
                  mut_ok := {| status := 201; body := BGame g |} |}
      | _, _, _ => None
      end
  | Edit =>
      match body_id req with
      | Some i =>
          if truthy_string i then
            match findIndex (has_id i) l with
            | Some idx =>
                match l !! idx with
                | Some prev =>
                    let g := edited prev req env in
                    Some {| mut_apply := assign idx g;
                            mut_undo := assign idx prev;
                            mut_message := commit_message "edit" g;
                            mut_type := "edit"; mut_payload := PGame g;
                            mut_ok := {| status := 200; body := BGame g |} |}
                | None => None
                end
            | None => None
            end
          else None
      | None => None
      end
  | Delete =>
      match body_id req with
      | Some i =>
          if truthy_string i then
            match findIndex (has_id i) l with
            | Some idx =>
                match l !! idx with
                | Some removed =>
                    Some {| mut_apply := splice_out idx;
                            mut_undo := splice_in idx removed;
                            mut_message := commit_message "delete" removed;
                            mut_type := "delete";
                            mut_payload := PId (id removed);
                            mut_ok := {| status := 200;
                                         body := BDeleted (id removed) |} |}
                | None => None
                end
            | None => None
            end
          else None
      | None => None
      end
  end.

(** The [type] of the frames of each route. *)
Definition op_name (op : Op) : string :=
  match op with
  | Add => "add"
  | Edit => "edit"
  | Delete => "delete"
  end.

(** The payload that goes with a response body: the entry for an add or an
    edit, the id for a delete. *)
Definition announces (b : Body) (p : Payload) : Prop :=
  match b, p with
  | BGame g, PGame g' => g = g'
  | BDeleted i, PId i' => i = i'
  | _, _ => False
  end.

(** The save of the request committed: the commit line is in the trace. *)
Definition committed (tr : list Event) : Prop := exists m, ECommitted m ∈ tr.

(** A client that [broadcast] sends to. *)
Definition ready (c : Client) : Prop := readyState c = 1.

(** What identifies an entry for good: its id and its creation time. *)
Definition key (g : Game) : string * string := (id g, createdAt g).

(** The adds of a sequence of requests, as the clock reading and the random
    suffix each one saw. *)
Definition add_draws (cs : list Call) : list (N * string) :=
  omap (fun c => match call_op c with
                 | Add => Some (date_now (call_env c), random36 (call_env c))
                 | _ => None
                 end) cs.

(** The keys that the adds of a sequence of requests give to their
    entries: the generated id and the creation time. *)
Definition add_keys (cs : list Call) : list (string * string) :=
  omap (fun c => match call_op c with
                 | Add => Some (generated_id (call_env c), iso_now (call_env c))
                 | _ => None
                 end) cs.

(** [s] holds the code unit [c]. *)
Fixpoint has_char (c : ascii) (s : string) : bool :=
  match s with
  | EmptyString => false
  | String d s' => Ascii.eqb c d || has_char c s'
  end.

(** The id made from a clock reading and a random suffix. *)
Definition id_of_draw (d : N * string) : string :=
  "game_" +:+ pretty d.1 +:+ "_" +:+ d.2.

(** No text field of the entry is empty, and its image, if any, is not the
    empty string. *)
Definition filled (g : Game) : Prop :=
  title g <> EmptyString /\ description g <> EmptyString /\
  link g <> EmptyString /\ image g <> Some EmptyString.

(** The state after a request handled in one piece, and after a sequence
    of requests handled in turn, each to its answer before the next is
    begun ([in_turn_post_all]). *)
Definition post (ADMIN_TOKEN : string) (c : Call) (s : State) : State :=
  (exec (app_post ADMIN_TOKEN (call_op c) (call_req c) (call_env c)) s).1.2.

Fixpoint post_all (ADMIN_TOKEN : string) (cs : list Call) (s : State)
    : State :=
  match cs with
  | [] => s
  | c :: cs' => post_all ADMIN_TOKEN cs' (post ADMIN_TOKEN c s)
  end.

(** ** Requests handled alone and in turn *)

(** A computation resumed until it is over, nothing else running
    meanwhile: how it ends ([None]: with a hole in [games]) and the world
    then. *)
Fixpoint finish {A} (c : Async.Co A) (r : Run) : option (Outcome A) * Run :=
  match c with
  | Async.Done o => (Some o, r)
  | Async.Sparse => (None, r)
  | Async.Await k => let (c', r') := k r in finish c' r'
  end.

Definition alone {A} (m : Async.Running A) (r : Run)
    : option (Outcome A) * Run :=
  let (c, r') := m r in finish c r'.

(** Run alone, [m] does what the uninterrupted [m'] does: from the world
    [r], and from every world. *)
Definition same_from {A} (r : Run) (m : Async.Running A) (m' : M A) : Prop :=
  alone m r = (Some (m' r).1, (m' r).2).

Definition same {A} (m : Async.Running A) (m' : M A) : Prop :=
  forall r, same_from r m m'.

(** What is left of a computation that is over. *)
Definition settled {A} (over : option (Outcome A) * Run) : Async.Co A :=
  match over.1 with
  | Some o => Async.Done o
  | None => Async.Sparse
  end.

(** What request [i] has done to the outside. *)
Definition done_by (i : nat) (sv : Async.Server) : list Event :=
  match Async.pending sv !! i with
  | Some p => Async.did p
  | None => []
  end.

(** The request of a call when it arrives. *)
Definition arrival (ADMIN_TOKEN : string) (c : Call) : Async.Pending :=
  Async.arrive ADMIN_TOKEN (call_op c) (Parsed (call_req c)) (call_env c).

(** The server in state [s] when the requests [cs] have arrived and the
    handling of none has begun. *)
Definition arrivals (ADMIN_TOKEN : string) (cs : list Call) (s : State)
    : Async.Server :=
  {| Async.shared := s; Async.pending := arrival ADMIN_TOKEN <$> cs |}.

(** Every add of the sequence generates an id that no entry has when the
    add is handled, the requests being handled in turn. *)
Fixpoint fresh_adds (ADMIN_TOKEN : string) (cs : list Call) (s : State)
    : Prop :=
  match cs with
  | [] => True
  | c :: cs' =>
      (call_op c = Add ->
       forall g, g ∈ games s -> id g <> generated_id (call_env c)) /\
      fresh_adds ADMIN_TOKEN cs' (post ADMIN_TOKEN c s)
  end.

(** ** Sample stores, states and requests *)

(** Two stores for running the save: one that answers a conflict to the
    first two PUTs and accepts the third, one that never accepts. *)
Definition flaky_store : Net :=
  {| on_get := fun _ => FetchOk (Some "v2");
     on_put := fun k => if (k <? 2)%nat then FetchNotOk "conflict"
                        else FetchOk (Some "v3") |}.

Definition dead_store : Net :=
  {| on_get := fun _ => FetchOk (Some "v2");
     on_put := fun _ => FetchNotOk "conflict" |}.

(** No entry yet, a known version tag, nobody connected. *)
Definition empty_state : State :=
  {| games := []; fileSHA := Some "v1"; clients := [] |}.

(** A store that accepts every write. *)
Definition ok_store : Net :=
  {| on_get := fun _ => FetchOk (Some "v1");
     on_put := fun _ => FetchOk (Some "v2") |}.

(** Two moments a minute apart with the accepting store, and one moment
    with each of the other stores. *)
Definition ok_env : Env :=
  {| net := ok_store; date_now := 1700000000000%N; random36 := "k3x9z";
     iso_now := "2023-11-14T22:13:20.000Z"; ts_now := 1700000000500%N |}.

Definition later_env : Env :=
  {| net := ok_store; date_now := 1700000060000%N; random36 := "p0q1r";
     iso_now := "2023-11-14T22:14:20.000Z"; ts_now := 1700000060500%N |}.

Definition quiet_env : Env :=
  {| net := flaky_store; date_now := 1%N; random36 := "abcde";
     iso_now := "2024-01-01T00:00:00.000Z"; ts_now := 2%N |}.

Definition dead_env : Env :=
  {| net := dead_store; date_now := 1%N; random36 := "abcde";
     iso_now := "2024-01-01T00:00:00.000Z"; ts_now := 2%N |}.

(** The entries that [pong_request] at [ok_env] and [tetris_request] at
    [later_env] create. *)
Definition pong : Game :=
  {| id := "game_1700000000000_k3x9z"; title := "Pong";
     description := "classic"; link := "http://pong"; image := None;
     createdAt := "2023-11-14T22:13:20.000Z"; updatedAt := None |}.

Definition tetris : Game :=
  {| id := "game_1700000060000_p0q1r"; title := "Tetris";
     description := "blocks"; link := "http://tetris";
     image := Some "http://img/t.png";
     createdAt := "2023-11-14T22:14:20.000Z"; updatedAt := None |}.

Definition viewer : Client := {| cid := 7; readyState := 1 |}.

(** One entry, one subscriber. *)
Definition library_state : State :=
  {| games := [pong]; fileSHA := Some "v1"; clients := [viewer] |}.

Definition pong_request : Request :=
  {| authorization := Some "Bearer secret"; body_id := None;
     body_title := Some " Pong "; body_description := Some "classic";
     body_link := Some "http://pong"; body_image := None; file := None |}.

Definition tetris_request : Request :=
  {| authorization := Some "Bearer secret"; body_id := None;
     body_title := Some "Tetris"; body_description := Some "blocks";
     body_link := Some "http://tetris"; body_image := Some "http://img/t.png";
     file := None |}.

Definition anonymous_delete : Request :=
  {| authorization := None; body_id := Some "game_1_abcde";
     body_title := None; body_description := None; body_link := None;
     body_image := None; file := None |}.

(** The edit of the specification's example: an empty title and a new
    description. *)
Definition describe_request : Request :=
  {| authorization := Some "Bearer secret";
     body_id := Some "game_1700000000000_k3x9z";
     body_title := Some EmptyString; body_description := Some "X";
     body_link := None; body_image := None; file := None |}.


Definition remove_request : Request :=
  {| authorization := Some "Bearer secret";
     body_id := Some "game_1700000000000_k3x9z";
     body_title := None; body_description := None; body_link := None;
     body_image := None; file := None |}.


Definition leaflet : File :=
  {| mimetype := "application/pdf"; base64 := "JVBERi0=" |}.

Definition leaflet_request : Request :=
  {| authorization := Some "Bearer secret"; body_id := None;
     body_title := Some "Pong"; body_description := Some "classic";
     body_link := Some "http://pong"; body_image := None;
     file := Some leaflet |}.


(** What the boot fetch returns for a document that does not parse. *)
Definition broken_document : LoadResult :=
  LoadDocument (Some "v9") (inl "Unexpected token").

(** Two adds and a delete, each at its own moment. *)
Definition session : list Call :=
  [ {| call_op := Add; call_req := pong_request; call_env := ok_env |};
    {| call_op := Add; call_req := tetris_request; call_env := later_env |};
    {| call_op := Delete; call_req := remove_request;
       call_env := later_env |} ].

(** Two entries with distinct ids, one subscriber. *)
Definition pair_state : State :=
  {| games := [pong; tetris]; fileSHA := Some "v1"; clients := [viewer] |}.

(** An edit that gives [tetris] a new title. *)
Definition retitle_request : Request :=
  {| authorization := Some "Bearer secret";
     body_id := Some "game_1700000060000_p0q1r";
     body_title := Some "Tetris 2"; body_description := None;
     body_link := None; body_image := None; file := None |}.

(** Adds with a blank title: one without a token, one with the token and
    the leaflet. *)
Definition blank_anonymous_add : Request :=
  {| authorization := None; body_id := None;
     body_title := Some " "; body_description := Some "classic";
     body_link := Some "http://pong"; body_image := None; file := None |}.

Definition blank_leaflet_add : Request :=
  {| authorization := Some "Bearer secret"; body_id := None;
     body_title := Some " "; body_description := Some "classic";
     body_link := Some "http://pong"; body_image := None;
     file := Some leaflet |}.

(** Two adds at one moment with one random draw. *)
Definition same_draw_adds : list Call :=
  [ {| call_op := Add; call_req := pong_request; call_env := ok_env |};
    {| call_op := Add; call_req := tetris_request; call_env := ok_env |} ].

(** Two requests that have arrived, the first with a store that refuses
    every write, the second with a store that accepts them: two adds, and an
    edit of the second entry with a delete of the first. *)
Definition two_adds : Async.Server :=
  {| Async.shared := empty_state;
     Async.pending :=
       [ Async.arrive "secret" Add (Parsed pong_request) dead_env;
         Async.arrive "secret" Add (Parsed tetris_request) later_env ] |}.

Definition edit_and_delete : Async.Server :=
  {| Async.shared := pair_state;
     Async.pending :=
       [ Async.arrive "secret" Edit (Parsed retitle_request) dead_env;
         Async.arrive "secret" Delete (Parsed remove_request) later_env ] |}.

(** A delete that has arrived at the library. *)
Definition one_delete : Async.Server :=
  {| Async.shared := library_state;
     Async.pending :=
       [ Async.arrive "secret" Delete (Parsed remove_request) ok_env ] |}.

(** An order in which the event loop may resume two such requests: the
    first up to its first PUT, the second up to its PUT and then, its PUT
    answered, to its end, and then the first, through its three failed
    attempts, to its end. *)
Definition overlap : list nat := [0; 1; 1; 0; 0; 0; 0; 0; 0; 0].

(** ** Tactics *)

Ltac unfold_m :=
  unfold bind, ret, throw, try_catch, emit, get_state, modify,
    fetch_get, fetch_put in *.

(** From [H : mutation_of op req env l = Some m], with [op] known: the
    case of the handler that mutates, with [m] replaced by its value. *)
Ltac mutation_inv H :=
  cbn [mutation_of] in H;
  repeat match type of H with
         | context [match ?x with _ => _ end] =>
             destruct x eqn:?; try discriminate H
         end;
  cbn zeta in H; injection H as <-.

(** * Verification *)

Local Arguments Nat.mul : simpl never.

(** ** Observations on traces *)

Lemma attempts_app tr1 tr2 :
  attempts (tr1 ++ tr2) = attempts tr1 + attempts tr2.
Proof. induction tr1 as [|e tr1 IH]; simpl; [done | rewrite IH; lia]. Qed.

Lemma sleeps_app tr1 tr2 : sleeps (tr1 ++ tr2) = sleeps tr1 ++ sleeps tr2.
Proof.
  induction tr1 as [|e tr1 IH]; simpl; [done |].
  destruct e; simpl; by rewrite ?IH.
Qed.

Lemma put_count_app tr1 tr2 :
  put_count (tr1 ++ tr2) = put_count tr1 + put_count tr2.
Proof.
  induction tr1 as [|e tr1 IH]; simpl; [done |].
  destruct e; simpl; by rewrite ?IH.
Qed.

Lemma get_count_app tr1 tr2 :
  get_count (tr1 ++ tr2) = get_count tr1 + get_count tr2.
Proof.
  induction tr1 as [|e tr1 IH]; simpl; [done |].
  destruct e; simpl; by rewrite ?IH.
Qed.

Lemma refetched_snoc nw n : forall from sha,
  refetched nw from (S n) sha =
  match on_get nw (from + n) with
  | FetchOk x => x
  | _ => refetched nw from n sha
  end.
Proof.
  induction n as [|n IH]; intros from sha.
  - simpl. rewrite Nat.add_0_r. by destruct (on_get nw from).
  - change (refetched nw from (S (S n)) sha)
      with (refetched nw (S from) (S n)
              (match on_get nw from with FetchOk x => x | _ => sha end)).
    rewrite IH. by replace (S from + n) with (from + S n) by lia.
Qed.

(** ** The grammar of a save's trace *)

Section SaveFacts.

Variable nw : Net.
Variable message : string.
Variable content : list Game.

Lemma save_attempt_events k r :
  games (st r) = content ->
  exists tr,
    trace (save_attempt nw message k r).2 = trace r ++ tr /\
    attempt_events message content k (save_attempt nw message k r).1 tr.
Proof.
  intros Hc. unfold save_attempt. unfold_m. simpl.
  destruct (Nat.ltb_spec 1 k) as [Hk|Hk]; simpl;
    [| destruct (truthy (fileSHA (st r))); simpl ];
    try (destruct (on_get nw (gets r)); simpl);
    try (destruct (on_put nw (puts r)); simpl);
    rewrite <- ?app_assoc, ?Hc; simpl; eexists; (split; [reflexivity |]);
    by constructor.
Qed.

(** An attempt changes neither [games] nor [wss.clients]. *)
Lemma save_attempt_frame k r :
  games (st (save_attempt nw message k r).2) = games (st r) /\
  clients (st (save_attempt nw message k r).2) = clients (st r).
Proof.
  unfold save_attempt. unfold_m. simpl.
  destruct ((1 <? k)%nat || negb (truthy (fileSHA (st r)))); simpl;
    try (destruct (on_get nw (gets r)); simpl);
    try (destruct (on_put nw (puts r)); simpl); done.
Qed.

(** A failed attempt leaves in [fileSHA] what its re-fetch, if any, put
    there, and makes at most one PUT. *)
Lemma save_attempt_threw k r e r' :
  save_attempt nw message k r = (Threw e, r') ->
  exists n,
    gets r' = gets r + n /\
    get_count (trace r') = get_count (trace r) + n /\
    fileSHA (st r') = refetched nw (gets r) n (fileSHA (st r)) /\
    puts r <= puts r' <= S (puts r) /\
    (is_ok (on_put nw (puts r)) = true -> puts r' = puts r).
Proof.
  unfold save_attempt. unfold_m. simpl.
  destruct ((1 <? k)%nat || negb (truthy (fileSHA (st r)))); simpl;
    try (destruct (on_get nw (gets r)) eqn:Hget; simpl);
    try (destruct (on_put nw (puts r)) eqn:Hput; simpl);
    intros [= <- <-]; simpl;
    rewrite ?get_count_app; simpl;
    first [ exists 0; simpl; rewrite ?Nat.add_0_r; repeat split; (lia || done)
          | exists 1; simpl; rewrite ?Hget; repeat split; (lia || done) ].
Qed.

(** One iteration of the loop. *)
Lemma save_loop_step left k r :
  save_loop nw message (S left) k r =
  match save_attempt nw message k r with
  | (Returned a, r') => (Returned a, r')
  | (Threw e, r') =>
      if (k =? MAX_RETRIES)%nat
      then (Threw e, logged r' [ESaveFailed k MAX_RETRIES e])
      else save_loop nw message left (S k)
             (logged r' [ESaveFailed k MAX_RETRIES e; ESleep (500 * k)])
  end.
Proof.
  cbn [save_loop]. unfold try_catch.
  destruct (save_attempt nw message k r) as [[a|e] r']; [done |].
  unfold_m. unfold logged. cbn [st gets puts trace].
  destruct (k =? MAX_RETRIES)%nat; [done |].
  cbn [st gets puts trace]. by rewrite <- app_assoc.
Qed.

Lemma save_loop_events left : forall k r,
  games (st r) = content ->
  exists tr,
    trace (save_loop nw message (S left) k r).2 = trace r ++ tr /\
    (k + left = MAX_RETRIES ->
     loop_events message content k (save_loop nw message (S left) k r).1 tr).
Proof.
  induction left as [|left IH]; intros k r Hc; rewrite save_loop_step;
    destruct (save_attempt_events k r Hc) as (tr & Htr & Hev);
    destruct (save_attempt_frame k r) as [Hg _];
    destruct (save_attempt nw message k r) as [[[]|e] r1];
    cbn [fst snd] in Htr, Hev, Hg;
    try (exists tr; split; [done |]; intros _; by constructor);
    destruct (Nat.eqb_spec k MAX_RETRIES) as [->|Hk];
    try (exists (tr ++ [ESaveFailed MAX_RETRIES MAX_RETRIES e]); cbn;
         rewrite Htr, <- app_assoc; split; [done |]; intros _; by constructor).
  - exists (tr ++ [ESaveFailed k MAX_RETRIES e; ESleep (500 * k)]).
    split; [| lia]. cbn [save_loop ret snd logged trace].
    by rewrite Htr, <- app_assoc.
  - destruct (IH (S k) (logged r1 [ESaveFailed k MAX_RETRIES e;
                                   ESleep (500 * k)]))
      as (tr' & Htr' & Hev'); [by rewrite <- Hc, <- Hg |].
    exists (tr ++ [ESaveFailed k MAX_RETRIES e; ESleep (500 * k)] ++ tr').
    split.
    + rewrite Htr'. cbn [logged trace]. by rewrite Htr, <- !app_assoc.
    + intros Hsum. apply LE_retry; [lia | done | apply Hev'; lia].
Qed.

Lemma save_loop_frame left : forall k r,
  games (st (save_loop nw message left k r).2) = games (st r) /\
  clients (st (save_loop nw message left k r).2) = clients (st r).
Proof.
  induction left as [|left IH]; intros k r; [done |].
  rewrite save_loop_step.
  destruct (save_attempt_frame k r) as [Hg Hc].
  destruct (save_attempt nw message k r) as [[[]|e] r1];
    cbn [fst snd] in Hg, Hc; [done |].
  destruct (k =? MAX_RETRIES)%nat; [done |].
  destruct (IH (S k) (logged r1 [ESaveFailed k MAX_RETRIES e; ESleep (500 * k)]))
    as [Hg' Hc'].
  cbn [logged st] in Hg', Hc'. by rewrite Hg', Hc'.
Qed.

Lemma refetched_add n m : forall from sha,
  refetched nw from (n + m) sha =
  refetched nw (from + n) m (refetched nw from n sha).
Proof.
  induction n as [|n IH]; intros from sha; simpl.
  - by rewrite Nat.add_0_r.
  - rewrite IH. by replace (S from + n) with (from + S n) by lia.
Qed.

(** A save that throws leaves in [fileSHA] what its GETs put there. *)
Lemma save_loop_threw left : forall k r e r',
  save_loop nw message left k r = (Threw e, r') ->
  exists n,
    gets r' = gets r + n /\
    get_count (trace r') = get_count (trace r) + n /\
    fileSHA (st r') = refetched nw (gets r) n (fileSHA (st r)).
Proof.
  induction left as [|left IH]; intros k r e r'; [done |].
  rewrite save_loop_step.
  destruct (save_attempt nw message k r) as [[[]|e1] r1] eqn:Hatt; [done |].
  apply save_attempt_threw in Hatt as (n & Hgets & Hcount & Hsha & _).
  destruct (k =? MAX_RETRIES)%nat.
  - intros [= <- <-]. exists n. cbn [logged st gets trace].
    rewrite get_count_app, Hcount. simpl. split; [done |]. split; [lia | done].
  - intros Hloop. apply IH in Hloop as (m & Hgets' & Hcount' & Hsha').
    cbn [logged st gets trace] in Hgets', Hcount', Hsha'.
    rewrite get_count_app in Hcount'. simpl in Hcount'.
    exists (n + m). rewrite refetched_add, <- Hsha, <- Hgets.
    repeat split; [lia | lia | done].
Qed.

End SaveFacts.

(** ** The tag a retry sends *)

Section RefetchFacts.

Variable nw : Net.
Variable message : string.
Variable content : list Game.

Lemma refetch_used_app g tag ta tb :
  refetch_used nw message content g tag ta ->
  refetch_used nw message content (g + get_count ta)
    (refetched nw g (get_count ta) tag) tb ->
  refetch_used nw message content g tag (ta ++ tb).
Proof.
  intros Ha Hb i Hi.
  apply lookup_app_Some in Hi as [Hi|[Hlen Hi]].
  - pose proof (lookup_lt_Some _ _ _ Hi) as Hlt.
    rewrite take_app_le by lia.
    destruct (Ha i Hi) as [Hthrows|Hput]; [by left | right].
    by apply lookup_app_l_Some.
  - rewrite take_app_ge, get_count_app by done.
    destruct (Hb _ Hi) as [Hthrows|Hput].
    + left. by rewrite Nat.add_assoc.
    + right. replace (S (get_count ta + get_count (take (i - length ta) tb)))
        with (get_count ta + S (get_count (take (i - length ta) tb))) by lia.
      rewrite refetched_add, lookup_app_r by lia.
      by replace (S i - length ta) with (S (i - length ta)) by lia.
Qed.

Lemma refetch_used_quiet g tag tr :
  get_count tr = 0 -> refetch_used nw message content g tag tr.
Proof.
  intros Hq i Hi. exfalso.
  rewrite <- (take_drop_middle _ _ _ Hi), get_count_app in Hq.
  simpl in Hq. lia.
Qed.

(** One attempt: its events use the re-fetched tag, and when it fails it
    leaves in [fileSHA] what its GET put there. *)
Lemma save_attempt_refetch k r :
  games (st r) = content ->
  exists ta,
    trace (save_attempt nw message k r).2 = trace r ++ ta /\
    gets (save_attempt nw message k r).2 = gets r + get_count ta /\
    refetch_used nw message content (gets r) (fileSHA (st r)) ta /\
    (forall e, (save_attempt nw message k r).1 = Threw e ->
               fileSHA (st (save_attempt nw message k r).2) =
               refetched nw (gets r) (get_count ta) (fileSHA (st r))).
Proof.
  intros Hc. unfold save_attempt. unfold_m. simpl.
  destruct ((1 <? k)%nat || negb (truthy (fileSHA (st r)))); simpl;
    try (destruct (on_get nw (gets r)) eqn:Hget; simpl);
    try (destruct (on_put nw (puts r)) eqn:Hput; simpl);
    rewrite <- ?app_assoc, ?Hc; simpl;
    eexists; (split; [reflexivity |]); simpl;
    (split; [lia |]);
    (split; [| by intros e He; simpl; rewrite ?Hget]);
    intros [|[|[|i]]] Hi; simpl in Hi; try done;
    unfold tag_sent; simpl; rewrite ?Nat.add_0_r, ?Hget;
    first [by left | by right].
Qed.

Lemma save_loop_refetch left : forall k r,
  games (st r) = content ->
  exists tr,
    trace (save_loop nw message left k r).2 = trace r ++ tr /\
    refetch_used nw message content (gets r) (fileSHA (st r)) tr.
Proof.
  induction left as [|left IH]; intros k r Hc.
  { exists []. rewrite app_nil_r. split; [done |]. by intros i ?. }
  rewrite save_loop_step.
  destruct (save_attempt_refetch k r Hc) as (ta & Htr & Hgets & Hused & Hsha).
  destruct (save_attempt_frame nw message k r) as [Hg _].
  destruct (save_attempt nw message k r) as [[[]|e] r1];
    cbn [fst snd] in Htr, Hgets, Hsha, Hg.
  { by exists ta. }
  specialize (Hsha e eq_refl).
  destruct (k =? MAX_RETRIES)%nat.
  - exists (ta ++ [ESaveFailed k MAX_RETRIES e]). cbn [snd logged trace].
    rewrite Htr, <- app_assoc. split; [done |].
    apply refetch_used_app; [done |]. by apply refetch_used_quiet.
  - destruct (IH (S k) (logged r1 [ESaveFailed k MAX_RETRIES e;
                                   ESleep (500 * k)]))
      as (tr' & Htr' & Hused'); [cbn [logged st]; by rewrite Hg |].
    cbn [logged st gets trace] in Htr', Hused'.
    exists (ta ++ [ESaveFailed k MAX_RETRIES e; ESleep (500 * k)] ++ tr').
    rewrite Htr', Htr, <- !app_assoc. split; [done |].
    apply refetch_used_app; [done |].
    apply refetch_used_app; [by apply refetch_used_quiet |].
    cbn [get_count]. rewrite Nat.add_0_r. cbn [refetched].
    by rewrite <- Hgets, <- Hsha.
Qed.

End RefetchFacts.

(** ** Consequences of the grammar *)

Section TraceFacts.

Variable message : string.
Variable content : list Game.

Lemma attempt_events_facts k o tr :
  attempt_events message content k o tr ->
  attempts tr = (match o with Returned _ => 1 | Threw _ => 0 end) /\
  sleeps tr = [] /\
  put_count tr <= 1 /\
  (1 < k -> head tr = Some EGet) /\
  (forall i ms, tr !! i <> Some (ESleep ms)) /\
  (forall a m e, ESaveFailed a m e ∉ tr) /\
  (forall m c sha, EPut m c sha ∈ tr -> m = message /\ c = content) /\
  (o = Returned tt -> last tr = Some (ECommitted message)).
Proof.
  intros H. destruct H; simpl; split_and!; try done; try lia;
    try (intros [|[|[|i]]] ms; simpl; done);
    try (intros a m e' Hin;
         repeat (apply elem_of_cons in Hin as [Hin|Hin]; [done |]);
         by apply elem_of_nil in Hin);
    intros m' c' sha' Hin;
    repeat (apply elem_of_cons in Hin as [Hin|Hin]; [by simplify_eq |]);
    by apply elem_of_nil in Hin.
Qed.

Lemma loop_events_attempts k0 o0 tr0 :
  loop_events message content k0 o0 tr0 ->
  k0 <= MAX_RETRIES ->
  1 <= attempts tr0 /\ attempts tr0 + k0 <= S MAX_RETRIES /\
  (forall e, o0 = Threw e -> attempts tr0 + k0 = S MAX_RETRIES).
Proof.
  induction 1 as [j tr Ha|tr e Ha|j tr e o tr' Hk Ha Hl IH]; intros Hle;
    apply attempt_events_facts in Ha as (Hn & _); rewrite ?attempts_app, ?Hn.
  - simpl. repeat split; try lia. done.
  - simpl. unfold MAX_RETRIES. repeat split; lia.
  - simpl. destruct IH as (? & ? & Hthrew); [lia |].
    repeat split; try lia. intros e' ->. specialize (Hthrew e' eq_refl). lia.
Qed.

Lemma loop_events_sleeps k0 o0 tr0 :
  loop_events message content k0 o0 tr0 ->
  1 <= attempts tr0 /\
  sleeps tr0 = map (fun j => 500 * j) (seq k0 (attempts tr0 - 1)).
Proof.
  induction 1 as [j tr Ha|tr e Ha|j tr e o tr' Hk Ha Hl IH];
    apply attempt_events_facts in Ha as (Hn & Hs & _);
    rewrite ?sleeps_app, ?attempts_app, ?Hn, ?Hs.
  - split; [lia | done].
  - simpl. split; [lia | done].
  - destruct IH as [Hpos IH]. simpl. split; [lia |]. rewrite IH.
    replace (attempts tr' - 0) with (S (attempts tr' - 1)) by lia.
    done.
Qed.

Lemma loop_events_puts k0 o0 tr0 :
  loop_events message content k0 o0 tr0 -> put_count tr0 <= attempts tr0.
Proof.
  induction 1 as [j tr Ha|tr e Ha|j tr e o tr' Hk Ha Hl IH];
    pose proof Ha as Hf;
    apply attempt_events_facts in Hf as (Hn & _ & Hp & _);
    rewrite ?put_count_app, ?attempts_app, ?Hn; simpl; lia.
Qed.

Lemma loop_events_head k0 o0 tr0 :
  loop_events message content k0 o0 tr0 -> 1 < k0 -> head tr0 = Some EGet.
Proof.
  intros H Hk.
  destruct H as [j tr Ha|tr e Ha|j tr e o tr' Hk' Ha Hl];
    apply attempt_events_facts in Ha as (_ & _ & _ & Hh & _);
    specialize (Hh Hk); destruct tr; done.
Qed.

(** Every sleep is followed at once by a GET. *)
Lemma loop_events_refetch k0 o0 tr0 :
  loop_events message content k0 o0 tr0 ->
  1 <= k0 ->
  forall i ms, tr0 !! i = Some (ESleep ms) -> tr0 !! S i = Some EGet.
Proof.
  induction 1 as [j tr Ha|tr e Ha|j tr e o tr' Hk Ha Hl IH];
    intros Hpos i ms Hi;
    pose proof Ha as Hf;
    apply attempt_events_facts in Hf as (_ & _ & _ & _ & Hno & _).
  - by apply Hno in Hi.
  - apply lookup_app_Some in Hi as [Hi|[Hlen Hi]]; [by apply Hno in Hi |].
    destruct (i - length tr) as [|[|]]; done.
  - apply lookup_app_Some in Hi as [Hi|[Hlen Hi]]; [by apply Hno in Hi |].
    destruct (i - length tr) as [|[|n]] eqn:Hn; [done | |].
    + rewrite lookup_app_r by lia.
      replace (S i - length tr) with 2 by lia. simpl.
      apply loop_events_head in Hl; [| lia]. by destruct tr'.
    + simpl in Hi. apply IH in Hi; [| lia].
      rewrite lookup_app_r by lia.
      replace (S i - length tr) with (S (S (S n))) by lia. done.
Qed.

Lemma loop_events_last k0 o0 tr0 :
  loop_events message content k0 o0 tr0 ->
  match o0 with
  | Returned _ => last tr0 = Some (ECommitted message)
  | Threw e => last tr0 = Some (ESaveFailed MAX_RETRIES MAX_RETRIES e)
  end.
Proof.
  induction 1 as [j tr Ha|tr e Ha|j tr e o tr' Hk Ha Hl IH].
  - by apply attempt_events_facts in Ha as (_ & _ & _ & _ & _ & _ & _ & ->).
  - by rewrite last_snoc.
  - assert (tr' <> []) as Hne by (destruct o; by intros ->).
    destruct tr' as [|x tr']; [done |].
    by rewrite app_assoc, last_app_cons.
Qed.

(** The line that reports the failure of attempt 3 of 3 is in the trace
    exactly when the save throws, and then with the error thrown. *)
Lemma loop_events_exhausted k0 o0 tr0 e0 :
  loop_events message content k0 o0 tr0 ->
  ESaveFailed MAX_RETRIES MAX_RETRIES e0 ∈ tr0 <-> o0 = Threw e0.
Proof.
  induction 1 as [j tr Ha|tr e' Ha|j tr e' o tr' Hk Ha Hl IH];
    apply attempt_events_facts in Ha as (_ & _ & _ & _ & _ & Hno & _ & _).
  - split; [| done]. intros Hin. by apply Hno in Hin.
  - rewrite elem_of_app, list_elem_of_singleton. split.
    + intros [Hin|[= <-]]; [by apply Hno in Hin | done].
    + intros [= <-]. by right.
  - rewrite !elem_of_app, <- IH. split; [| by auto].
    intros [Hin|[Hin|Hin]]; [by apply Hno in Hin | | done].
    apply elem_of_cons in Hin as [[= Hj _]|Hin]; [lia |].
    apply elem_of_cons in Hin as [?|Hin]; [done |].
    by apply elem_of_nil in Hin.
Qed.

(** Every PUT of a save carries the commit message and the whole array. *)
Lemma loop_events_content k0 o0 tr0 :
  loop_events message content k0 o0 tr0 ->
  forall m c sha, EPut m c sha ∈ tr0 -> m = message /\ c = content.
Proof.
  induction 1 as [j tr Ha|tr e' Ha|j tr e' o tr' Hk Ha Hl IH];
    apply attempt_events_facts in Ha as (_ & _ & _ & _ & _ & _ & Hput & _);
    intros m c sha; rewrite ?elem_of_app; intros Hin.
  - by apply Hput in Hin.
  - destruct Hin as [Hin|Hin]; [by apply Hput in Hin |].
    by apply list_elem_of_singleton in Hin.
  - destruct Hin as [Hin|[Hin|Hin]]; [by apply Hput in Hin | | by apply IH in Hin].
    repeat (apply elem_of_cons in Hin as [Hin|Hin]; [done |]).
    by apply elem_of_nil in Hin.
Qed.

(** Every attempt after the first begins with a GET. *)
Lemma loop_events_gets k0 o0 tr0 :
  loop_events message content k0 o0 tr0 ->
  1 <= k0 ->
  attempts tr0 <= S (get_count tr0) /\
  (1 < k0 -> attempts tr0 <= get_count tr0).
Proof.
  induction 1 as [j tr Ha|tr e Ha|j tr e o tr' Hk Ha Hl IH]; intros Hpos;
    rewrite ?attempts_app, ?get_count_app.
  - destruct Ha; simpl; split; lia.
  - inversion Ha; subst; simpl; split; (lia || (unfold MAX_RETRIES in *; lia)).
  - destruct IH as [IH1 IH2]; [lia |].
    inversion Ha; subst; simpl; split; lia.
Qed.

End TraceFacts.

(** ** A save as the handlers see it *)

Lemma save_run nw message r :
  exists tr1,
    trace (saveToGitHub nw message r).2 = trace r ++ tr1 /\
    loop_events message (games (st r)) 1 (saveToGitHub nw message r).1 tr1 /\
    games (st (saveToGitHub nw message r).2) = games (st r) /\
    clients (st (saveToGitHub nw message r).2) = clients (st r) /\
    (forall e, (saveToGitHub nw message r).1 = Threw e ->
       fileSHA (st (saveToGitHub nw message r).2) =
       refetched nw (gets r) (get_count tr1) (fileSHA (st r))).
Proof.
  unfold saveToGitHub.
  destruct (save_loop_events nw message (games (st r)) 2 1 r eq_refl)
    as (tr1 & Htr & Hev).
  change (save_loop nw message 3 1 r)
    with (save_loop nw message MAX_RETRIES 1 r) in Htr, Hev.
  destruct (save_loop_frame nw message MAX_RETRIES 1 r) as [Hg Hc].
  exists tr1. split_and!; [done | by apply Hev | done | done |].
  intros e He.
  destruct (save_loop nw message MAX_RETRIES 1 r) as [o r1] eqn:Hrun.
  cbn [fst snd] in *. subst o.
  apply save_loop_threw in Hrun as (n & _ & Hcount & Hsha).
  rewrite Htr, get_count_app in Hcount.
  by replace (get_count tr1) with n by lia.
Qed.

Lemma send_all_run msg cs : forall r,
  (send_all msg cs r).1 = Returned tt /\
  st (send_all msg cs r).2 = st r /\
  trace (send_all msg cs r).2 = trace r ++ frames msg cs.
Proof.
  induction cs as [|c cs IH]; intros r; simpl.
  - by rewrite app_nil_r.
  - unfold_m. destruct (readyState c =? 1)%nat; simpl.
    + match goal with |- context [send_all msg cs ?r1] =>
        destruct (IH r1) as (Ho & Hs & Ht);
        destruct (send_all msg cs r1) as [o r2] end.
      cbn [fst snd st trace] in *. by rewrite Ho, Hs, Ht, <- app_assoc.
    + destruct (IH r) as (Ho & Hs & Ht).
      destruct (send_all msg cs r) as [o r2].
      cbn [fst snd] in *. by rewrite Ho, Hs, Ht.
Qed.

Lemma persist_eq nw message ty p now ok undo failed r :
  persist nw message ty p now ok undo failed r =
  match saveToGitHub nw message r with
  | (Returned _, r1) =>
      (Returned ok,
       (send_all {| type := ty; payload := p; ts := now |}
          (clients (st r1)) r1).2)
  | (Threw e, r1) =>
      (Returned {| status := 500; body := BError failed |},
       {| st := set_games (undo (games (st r1))) (st r1);
          gets := gets r1; puts := puts r1;
          trace := trace r1 ++ [EError e] |})
  end.
Proof.
  unfold persist, try_catch, broadcast. unfold_m.
  destruct (saveToGitHub nw message r) as [[[]|e] r1]; cbn [st]; [| done].
  destruct (send_all_run {| type := ty; payload := p; ts := now |}
              (clients (st r1)) r1) as (Ho & _).
  destruct (send_all _ _ r1) as [o r2]. cbn [fst snd] in *. by subst o.
Qed.

Lemma persist_run nw message ty p now ok undo failed r :
  exists o1 tr1,
    loop_events message (games (st r)) 1 o1 tr1 /\
    clients (st (persist nw message ty p now ok undo failed r).2) =
      clients (st r) /\
    match o1 with
    | Returned _ =>
        (persist nw message ty p now ok undo failed r).1 = Returned ok /\
        games (st (persist nw message ty p now ok undo failed r).2) =
          games (st r) /\
        trace (persist nw message ty p now ok undo failed r).2 =
          trace r ++ tr1
          ++ frames {| type := ty; payload := p; ts := now |} (clients (st r))
    | Threw e =>
        (persist nw message ty p now ok undo failed r).1 =
          Returned {| status := 500; body := BError failed |} /\
        games (st (persist nw message ty p now ok undo failed r).2) =
          undo (games (st r)) /\
        trace (persist nw message ty p now ok undo failed r).2 =
          trace r ++ tr1 ++ [EError e] /\
        fileSHA (st (persist nw message ty p now ok undo failed r).2) =
          refetched nw (gets r) (get_count tr1) (fileSHA (st r))
    end.
Proof.
  rewrite persist_eq.
  destruct (save_run nw message r) as (tr1 & Htr & Hev & Hg & Hc & Hsha).
  destruct (saveToGitHub nw message r) as [[[]|e] r1]; cbn [fst snd] in *.
  - exists (Returned tt), tr1.
    destruct (send_all_run {| type := ty; payload := p; ts := now |}
                (clients (st r1)) r1) as (_ & Hs & Ht).
    by rewrite Hs, Ht, Htr, Hc, Hg, <- app_assoc.
  - exists (Threw e), tr1. cbn [st trace games clients fileSHA set_games].
    rewrite Htr, <- app_assoc, Hg, Hc. split_and!; try done.
    exact (Hsha e eq_refl).
Qed.

(** ** Arrays: undoing a mutation *)

Lemma pop_push x l : pop (push x l) = l.
Proof. unfold pop, push. apply removelast_last. Qed.

Lemma assign_assign idx x prev l :
  l !! idx = Some prev -> assign idx prev (assign idx x l) = l.
Proof.
  intros H. unfold assign. rewrite list_insert_insert_eq.
  by apply list_insert_id.
Qed.

Lemma splice_in_out idx removed l :
  l !! idx = Some removed -> splice_in idx removed (splice_out idx l) = l.
Proof.
  intros H. unfold splice_in, splice_out.
  assert (idx < length l) as Hlt by (by eapply lookup_lt_Some).
  assert (length (take idx l) = idx) as Hlen by (rewrite length_take; lia).
  rewrite take_app_length' by done.
  rewrite drop_app_length' by done.
  by apply take_drop_middle.
Qed.

Lemma findIndex_lookup p l idx :
  findIndex p l = Some idx ->
  exists g, l !! idx = Some g /\ p g = true.
Proof.
  revert idx. induction l as [|x l IH]; intros idx; simpl; [done |].
  destruct (p x) eqn:Hp.
  - intros [= <-]. by exists x.
  - destruct (findIndex p l) as [j|]; [| done].
    intros [= <-]. by apply IH.
Qed.


Lemma has_id_true i g : has_id i g = true <-> id g = i.
Proof. unfold has_id. apply String.eqb_eq. Qed.

(** ** The handlers, folded *)

Lemma requireAuth_cases ADMIN_TOKEN req next :
  (authorization req = bearer ADMIN_TOKEN /\
   requireAuth ADMIN_TOKEN req next = next) \/
  (authorization req <> bearer ADMIN_TOKEN /\
   requireAuth ADMIN_TOKEN req next =
   ret {| status := 401; body := BError "Unauthorized" |}).
Proof.
  unfold requireAuth, bearer.
  destruct (authorization req) as [token|]; [| by right].
  destruct (String.eqb_spec token ("Bearer " +:+ ADMIN_TOKEN)) as [->|Hne].
  - left. done.
  - right. split; [congruence |]. by rewrite orb_true_r.
Qed.

Lemma post_add_eq req env :
  post_add req env =
  match trimmed (body_title req), trimmed (body_description req),
        trimmed (body_link req) with
  | Some t, Some d, Some l =>
      let game := new_game t d l req env in
      modify (fun s => set_games (push game (games s)) s) ;;
      persist (net env) (commit_message "add" game) "add" (PGame game)
        (ts_now env) {| status := 201; body := BGame game |} pop
        (persist_failure Add)
  | _, _, _ =>
      ret {| status := 400;
             body := BError "title, description, and link are required" |}
  end.
Proof. reflexivity. Qed.

Lemma post_edit_found req env i idx prev r :
  body_id req = Some i ->
  truthy_string i = true ->
  findIndex (has_id i) (games (st r)) = Some idx ->
  games (st r) !! idx = Some prev ->
  post_edit req env r =
  (let updated := edited prev req env in
   modify (fun s => set_games (assign idx updated (games s)) s) ;;
   persist (net env) (commit_message "edit" updated) "edit" (PGame updated)
     (ts_now env) {| status := 200; body := BGame updated |}
     (assign idx prev) (persist_failure Edit)) r.
Proof.
  intros Hid Hi Hfind Hprev. unfold post_edit.
  rewrite Hid, Hi. cbn [negb]. unfold bind at 1, get_state at 1.
  by rewrite Hfind, Hprev.
Qed.

Lemma post_delete_found req env i idx removed r :
  body_id req = Some i ->
  truthy_string i = true ->
  findIndex (has_id i) (games (st r)) = Some idx ->
  games (st r) !! idx = Some removed ->
  post_delete req env r =
  (modify (fun s => set_games (splice_out idx (games s)) s) ;;
   persist (net env) (commit_message "delete" removed) "delete"
     (PId (id removed)) (ts_now env)
     {| status := 200; body := BDeleted (id removed) |}
     (splice_in idx removed) (persist_failure Delete)) r.
Proof.
  intros Hid Hi Hfind Hprev. unfold post_delete.
  rewrite Hid, Hi. cbn [negb]. unfold bind at 1, get_state at 1.
  by rewrite Hfind, Hprev.
Qed.

(** An edit or a delete without a usable id, or with an id that is not in
    the array, answers at once. *)
Lemma post_edit_rejected req env r :
  (forall i, body_id req = Some i -> truthy_string i = true ->
             findIndex (has_id i) (games (st r)) = None) ->
  exists code msg,
    post_edit req env r = (Returned {| status := code; body := BError msg |}, r)
    /\ (code = 400 \/ code = 404).
Proof.
  intros H. unfold post_edit.
  destruct (body_id req) as [i|]; [| by eexists _, _; split; [done | left]].
  destruct (truthy_string i) eqn:Hi; cbn [negb];
    [| by eexists _, _; split; [done | left]].
  unfold bind, get_state. rewrite (H i eq_refl Hi).
  eexists _, _; split; [done | by right].
Qed.

Lemma post_delete_rejected req env r :
  (forall i, body_id req = Some i -> truthy_string i = true ->
             findIndex (has_id i) (games (st r)) = None) ->
  exists code msg,
    post_delete req env r =
      (Returned {| status := code; body := BError msg |}, r)
    /\ (code = 400 \/ code = 404).
Proof.
  intros H. unfold post_delete.
  destruct (body_id req) as [i|]; [| by eexists _, _; split; [done | left]].
  destruct (truthy_string i) eqn:Hi; cbn [negb];
    [| by eexists _, _; split; [done | left]].
  unfold bind, get_state. rewrite (H i eq_refl Hi).
  eexists _, _; split; [done | by right].
Qed.

Lemma exec_mutate_persist f (P : M Response) s :
  exec (modify f ;; P) s =
  ((P (start (f s))).1, st (P (start (f s))).2, trace (P (start (f s))).2).
Proof.
  unfold exec, bind, modify, start. cbn [st gets puts trace].
  by destruct (P _) as [o r].
Qed.

Lemma frames_only_sends msg cs ev :
  ev ∈ frames msg cs -> exists c, ev = ESend c msg.
Proof.
  induction cs as [|c cs IH]; simpl; [by intros ?%elem_of_nil |].
  rewrite elem_of_app. intros [Hin|Hin]; [| by apply IH].
  destruct (readyState c =? 1)%nat; [| by apply elem_of_nil in Hin].
  apply list_elem_of_singleton in Hin. by exists (cid c).
Qed.

(** What a mutating route can do: answer 400, 401 or 404 at once, or mutate
    the array and run the save, keeping the mutation when the save returns
    and undoing it when the save throws. *)
Lemma route_cases ADMIN_TOKEN op req env s o s' tr :
  exec (route ADMIN_TOKEN op req env) s = (o, s', tr) ->
  (s' = s /\ tr = [] /\
   exists code msg,
     o = Returned {| status := code; body := BError msg |} /\
     (code = 400 \/ code = 401 \/ code = 404))
  \/
  (authorization req = bearer ADMIN_TOKEN /\
   exists mutated message o1 tr1,
     loop_events message mutated 1 o1 tr1 /\
     clients s' = clients s /\
     match o1 with
     | Returned _ =>
         games s' = mutated /\
         (exists ok msg, o = Returned ok /\ (status ok = 200 \/ status ok = 201)
                         /\ tr = tr1 ++ frames msg (clients s))
     | Threw e =>
         games s' = games s /\
         o = Returned {| status := 500; body := BError (persist_failure op) |} /\
         tr = tr1 ++ [EError e] /\
         fileSHA s' = refetched (net env) 0 (get_count tr1) (fileSHA s)
     end).
Proof.
  unfold route.
  destruct (requireAuth_cases ADMIN_TOKEN req (handler op req env))
    as [[Hauth ->]|[Hauth ->]].
  2: { intros [= <- <- <-]. left. split_and!; try done.
       eexists _, _. split; [done | auto]. }
  assert (forall f message ty p now ok undo failed,
    undo (f (games s)) = games s ->
    (status ok = 200 \/ status ok = 201) ->
    failed = persist_failure op ->
    exec (modify (fun s => set_games (f (games s)) s) ;;
          persist (net env) message ty p now ok undo failed) s = (o, s', tr) ->
    exists mutated message o1 tr1,
     loop_events message mutated 1 o1 tr1 /\
     clients s' = clients s /\
     match o1 with
     | Returned _ =>
         games s' = mutated /\
         (exists ok msg, o = Returned ok /\ (status ok = 200 \/ status ok = 201)
                         /\ tr = tr1 ++ frames msg (clients s))
     | Threw e =>
         games s' = games s /\
         o = Returned {| status := 500; body := BError (persist_failure op) |} /\
         tr = tr1 ++ [EError e] /\
         fileSHA s' = refetched (net env) 0 (get_count tr1) (fileSHA s)
     end) as Hpersist.
  { intros f message ty p now ok undo failed Hundo Hok -> .
    rewrite exec_mutate_persist.
    destruct (persist_run (net env) message ty p now ok undo
                (persist_failure op) (start (set_games (f (games s)) s)))
      as (o1 & tr1 & Hev & Hcl & Hcase).
    cbn [start st trace games clients set_games gets fileSHA] in *.
    intros [= <- <- <-].
    exists (f (games s)), message, o1, tr1. split_and!; [done | done |].
    destruct o1 as [[]|e].
    - destruct Hcase as (Ho & Hg & Ht). split; [done |].
      eexists ok, _. by rewrite Ho, Ht.
    - destruct Hcase as (Ho & Hg & Ht & Hsha). by rewrite Hg, Hundo. }
  destruct op; cbn [handler].
  - rewrite post_add_eq.
    destruct (trimmed (body_title req)) as [t|];
      [destruct (trimmed (body_description req)) as [d|];
       [destruct (trimmed (body_link req)) as [l|] |] |];
      try (intros [= <- <- <-]; left; split_and!; try done;
           eexists _, _; split; [done | auto]).
    cbn zeta. intros Hrun. right. split; [done |].
    eapply Hpersist; [| | | exact Hrun]; [apply pop_push | auto | done].
  - destruct (body_id req) as [i|] eqn:Hid;
      [destruct (truthy_string i) eqn:Hi;
       [destruct (findIndex (has_id i) (games s)) as [idx|] eqn:Hfind |] |].
    + destruct (findIndex_lookup _ _ _ Hfind) as (prev & Hprev & _).
      unfold exec.
      rewrite (post_edit_found req env i idx prev (start s) Hid Hi Hfind Hprev).
      cbn zeta. intros Hrun. right. split; [done |].
      eapply Hpersist; [| | | exact Hrun];
        [by apply assign_assign | auto | done].
    + unfold exec.
      destruct (post_edit_rejected req env (start s)) as (c & m & -> & Hc).
      { intros i' Hi' _. rewrite Hid in Hi'. by simplify_eq. }
      intros [= <- <- <-]. left. split_and!; try done.
      eexists _, _. split; [done | tauto].
    + unfold exec.
      destruct (post_edit_rejected req env (start s)) as (c & m & -> & Hc).
      { intros i' Hi' Ht. rewrite Hid in Hi'. congruence. }
      intros [= <- <- <-]. left. split_and!; try done.
      eexists _, _. split; [done | tauto].
    + unfold exec.
      destruct (post_edit_rejected req env (start s)) as (c & m & -> & Hc).
      { intros i' Hi'. rewrite Hid in Hi'. done. }
      intros [= <- <- <-]. left. split_and!; try done.
      eexists _, _. split; [done | tauto].
  - destruct (body_id req) as [i|] eqn:Hid;
      [destruct (truthy_string i) eqn:Hi;
       [destruct (findIndex (has_id i) (games s)) as [idx|] eqn:Hfind |] |].
    + destruct (findIndex_lookup _ _ _ Hfind) as (removed & Hrem & _).
      unfold exec.
      rewrite (post_delete_found req env i idx removed (start s)
                 Hid Hi Hfind Hrem).
      intros Hrun. right. split; [done |].
      eapply Hpersist; [| | | exact Hrun];
        [by apply splice_in_out | auto | done].
    + unfold exec.
      destruct (post_delete_rejected req env (start s)) as (c & m & -> & Hc).
      { intros i' Hi' _. rewrite Hid in Hi'. by simplify_eq. }
      intros [= <- <- <-]. left. split_and!; try done.
      eexists _, _. split; [done | tauto].
    + unfold exec.
      destruct (post_delete_rejected req env (start s)) as (c & m & -> & Hc).
      { intros i' Hi' Ht. rewrite Hid in Hi'. congruence. }
      intros [= <- <- <-]. left. split_and!; try done.
      eexists _, _. split; [done | tauto].
    + unfold exec.
      destruct (post_delete_rejected req env (start s)) as (c & m & -> & Hc).
      { intros i' Hi'. rewrite Hid in Hi'. done. }
      intros [= <- <- <-]. left. split_and!; try done.
      eexists _, _. split; [done | tauto].
Qed.


(** ** Stores that fail *)

Lemma save_attempt_put_fails nw message k r :
  is_ok (on_put nw (puts r)) = false ->
  exists e r',
    save_attempt nw message k r = (Threw e, r') /\
    puts r <= puts r' <= S (puts r) /\
    (throws (on_get nw (gets r)) = false ->
     e = put_error (on_put nw (puts r)) /\ puts r' = S (puts r)).
Proof.
  intros Hput. unfold save_attempt. unfold_m. cbn [st gets puts].
  destruct ((1 <? k)%nat || negb (truthy (fileSHA (st r))));
    cbn [st gets puts];
    try (destruct (on_get nw (gets r)) eqn:Hget; cbn [st gets puts]);
    destruct (on_put nw (puts r)) eqn:Hp; try done; cbn [st gets puts];
    eexists _, _; (split; [reflexivity |]); cbn [puts];
    split; try lia; try done.
Qed.

Lemma save_loop_puts_fail nw message left : forall k r,
  (forall j, is_ok (on_put nw j) = false) ->
  k + left = MAX_RETRIES ->
  exists e r', save_loop nw message (S left) k r = (Threw e, r').
Proof.
  induction left as [|left IH]; intros k r Hfail Hsum; rewrite save_loop_step;
    destruct (save_attempt_put_fails nw message k r (Hfail _))
      as (e & r' & -> & _).
  - replace k with MAX_RETRIES by lia. cbn. eauto.
  - destruct (Nat.eqb_spec k MAX_RETRIES) as [->|Hk]; [lia |].
    apply IH; [done | lia].
Qed.

Lemma save_attempt_put_ok nw message k r sha :
  on_put nw (puts r) = FetchOk sha ->
  throws (on_get nw (gets r)) = false ->
  exists r',
    save_attempt nw message k r = (Returned tt, r') /\
    st r' = set_fileSHA sha (st r).
Proof.
  intros Hput Hget. unfold save_attempt. unfold_m. cbn [st gets puts].
  destruct ((1 <? k)%nat || negb (truthy (fileSHA (st r))));
    cbn [st gets puts];
    try (destruct (on_get nw (gets r)) eqn:Hg; [done | |]; cbn [st gets puts]);
    rewrite Hput; eexists; (split; [reflexivity |]); done.
Qed.

Lemma save_attempt_attempts nw message k r :
  attempts (trace (save_attempt nw message k r).2) =
  attempts (trace r) +
  match (save_attempt nw message k r).1 with
  | Returned _ => 1
  | Threw _ => 0
  end.
Proof.
  destruct (save_attempt_events nw message (games (st r)) k r eq_refl)
    as (tr & Htr & Hev).
  rewrite Htr, attempts_app.
  apply attempt_events_facts in Hev as (Hn & _). by rewrite Hn.
Qed.

(** A store whose writes fail [n] times and then succeed, and whose reads
    do not throw: the save returns at attempt [n + 1]. *)
Lemma save_loop_succeeds nw message sha n : forall left k r,
  (forall j, throws (on_get nw j) = false) ->
  (forall j, j < n -> is_ok (on_put nw (puts r + j)) = false) ->
  on_put nw (puts r + n) = FetchOk sha ->
  n <= left ->
  k + left = MAX_RETRIES ->
  exists r',
    save_loop nw message (S left) k r = (Returned tt, r') /\
    st r' = set_fileSHA sha (st r) /\
    attempts (trace r') = attempts (trace r) + S n.
Proof.
  induction n as [|n IH]; intros left k r Hget Hfail Hok Hle Hsum;
    rewrite save_loop_step; pose proof (save_attempt_attempts nw message k r)
    as Hcount.
  - rewrite Nat.add_0_r in Hok.
    destruct (save_attempt_put_ok nw message k r sha Hok (Hget _))
      as (r' & Hrun & Hst).
    rewrite Hrun in *. cbn [fst snd] in Hcount. by exists r'.
  - destruct (save_attempt_put_fails nw message k r) as (e & r1 & Hrun & _ & Hp).
    { rewrite <- (Nat.add_0_r (puts r)). apply Hfail. lia. }
    destruct (Hp (Hget _)) as [_ Hputs].
    destruct (save_attempt_frame nw message k r) as [Hg Hc].
    rewrite Hrun in *. cbn [fst snd] in Hcount, Hg, Hc.
    destruct (Nat.eqb_spec k MAX_RETRIES) as [->|Hk]; [lia |].
    destruct left as [|left]; [lia |].
    destruct (IH left (S k)
                (logged r1 [ESaveFailed k MAX_RETRIES e; ESleep (500 * k)]))
      as (r' & Hloop & Hst & Hatt); try done; try lia.
    + intros j Hj. cbn [logged puts]. rewrite Hputs.
      replace (S (puts r) + j) with (puts r + S j) by lia. apply Hfail. lia.
    + cbn [logged puts]. rewrite Hputs.
      by replace (S (puts r) + n) with (puts r + S n) by lia.
    + exists r'. split; [done |]. cbn [logged st trace] in Hst, Hatt.
      rewrite attempts_app, Hcount in Hatt. simpl in Hatt.
      split; [| lia].
      rewrite Hst. unfold set_fileSHA. cbn [games clients]. by rewrite Hg, Hc.
Qed.

(** A store whose writes all fail and whose reads do not throw: the error
    thrown is that of the last PUT. *)
Lemma save_loop_last_error nw message left : forall k r e r',
  (forall j, throws (on_get nw j) = false) ->
  (forall j, is_ok (on_put nw j) = false) ->
  k + left = MAX_RETRIES ->
  save_loop nw message (S left) k r = (Threw e, r') ->
  e = put_error (on_put nw (puts r + left)).
Proof.
  induction left as [|left IH]; intros k r e r' Hget Hfail Hsum;
    rewrite save_loop_step;
    destruct (save_attempt_put_fails nw message k r (Hfail _))
      as (e1 & r1 & -> & _ & Hp);
    destruct (Hp (Hget _)) as [-> Hputs].
  - replace k with MAX_RETRIES by lia. cbn. rewrite Nat.add_0_r.
    by intros [= <- _].
  - destruct (Nat.eqb_spec k MAX_RETRIES) as [->|Hk]; [lia |].
    intros Hloop. apply IH in Hloop; try done; try lia.
    cbn [logged puts] in Hloop. rewrite Hputs in Hloop.
    by replace (puts r + S left) with (S (puts r) + left) by lia.
Qed.

(** ** The mutate, persist, undo pattern *)

Lemma exhausted_in_route_trace (message : string) (content : list Game)
    o1 tr1 (extra : list Event) e :
  loop_events message content 1 o1 tr1 ->
  (forall ev, ev ∈ extra -> forall a m x, ev <> ESaveFailed a m x) ->
  ESaveFailed MAX_RETRIES MAX_RETRIES e ∈ tr1 ++ extra ->
  o1 = Threw e.
Proof.
  intros Hev Hextra Hin. apply elem_of_app in Hin as [Hin|Hin].
  - by apply (loop_events_exhausted _ _ _ _ _ e Hev).
  - by eapply Hextra in Hin.
Qed.

Lemma loop_events_committed (message : string) (content : list Game)
    k0 o0 tr0 m :
  loop_events message content k0 o0 tr0 ->
  ECommitted m ∈ tr0 -> o0 = Returned tt.
Proof.
  induction 1 as [j tr Ha|tr e Ha|j tr e o tr' Hk Ha Hl IH]; [done | |].
  - intros Hin. apply elem_of_app in Hin as [Hin|Hin].
    + inversion Ha; subst;
        repeat (apply elem_of_cons in Hin as [Hin|Hin]; [done |]);
        by apply elem_of_nil in Hin.
    + by apply list_elem_of_singleton in Hin.
  - intros Hin. apply elem_of_app in Hin as [Hin|Hin].
    + inversion Ha; subst;
        repeat (apply elem_of_cons in Hin as [Hin|Hin]; [done |]);
        by apply elem_of_nil in Hin.
    + apply elem_of_app in Hin as [Hin|Hin]; [| by apply IH].
      repeat (apply elem_of_cons in Hin as [Hin|Hin]; [done |]).
      by apply elem_of_nil in Hin.
Qed.

Lemma exec_persist_cases f nw message ty p now ok undo failed s o s' tr :
  exec (modify (fun s => set_games (f (games s)) s) ;;
        persist nw message ty p now ok undo failed) s = (o, s', tr) ->
  clients s' = clients s /\
  exists o1 tr1,
    loop_events message (f (games s)) 1 o1 tr1 /\
    match o1 with
    | Returned _ =>
        o = Returned ok /\
        games s' = f (games s) /\
        tr = tr1 ++ frames {| type := ty; payload := p; ts := now |} (clients s)
    | Threw e =>
        o = Returned {| status := 500; body := BError failed |} /\
        games s' = undo (f (games s)) /\
        tr = tr1 ++ [EError e] /\
        fileSHA s' = refetched nw 0 (get_count tr1) (fileSHA s)
    end.
Proof.
  rewrite exec_mutate_persist.
  destruct (persist_run nw message ty p now ok undo failed
              (start (set_games (f (games s)) s)))
    as (o1 & tr1 & Hev & Hcl & Hcase).
  cbn [start st trace games clients set_games gets fileSHA] in *.
  intros [= <- <- <-]. split; [done |]. exists o1, tr1. split; [done |].
  destruct o1 as [[]|e].
  - destruct Hcase as (Ho & Hg & Ht). by rewrite Ho, Hg, Ht.
  - destruct Hcase as (Ho & Hg & Ht & Hsha). by rewrite Ho, Hg, Ht, Hsha.
Qed.

(** In the trace of such a run, a commit line means the save returned. *)
Lemma committed_in_route_trace (message : string) (content : list Game)
    o1 tr1 (extra : list Event) m :
  loop_events message content 1 o1 tr1 ->
  (forall ev, ev ∈ extra -> forall x, ev <> ECommitted x) ->
  ECommitted m ∈ tr1 ++ extra ->
  o1 = Returned tt.
Proof.
  intros Hev Hextra Hin. apply elem_of_app in Hin as [Hin|Hin].
  - by eapply loop_events_committed.
  - by eapply Hextra in Hin.
Qed.

Lemma truthy_string_false x : truthy_string x = false <-> x = EmptyString.
Proof. by destruct x. Qed.

Lemma trimmed_None field : trimmed field = None <-> blank field.
Proof.
  unfold trimmed, blank. destruct field as [x|]; [| by split; auto].
  destruct (truthy_string (trim x)) eqn:Ht.
  - split; [done |]. intros [?|(y & [= <-] & Hy)]; [done |].
    by rewrite Hy in Ht.
  - apply truthy_string_false in Ht. split; [| done]. intros _. right. eauto.
Qed.

Lemma trimmed_Some field x :
  field = Some x -> trim x <> EmptyString -> trimmed field = Some (trim x).
Proof.
  intros -> Hx. unfold trimmed. destruct (truthy_string (trim x)) eqn:Ht; [done |].
  by apply truthy_string_false in Ht.
Qed.

Lemma exec_route_authorized ADMIN_TOKEN op req env s :
  authorization req = Some ("Bearer " +:+ ADMIN_TOKEN) ->
  exec (route ADMIN_TOKEN op req env) s = exec (handler op req env) s.
Proof.
  intros Hauth. unfold route.
  destruct (requireAuth_cases ADMIN_TOKEN req (handler op req env))
    as [[_ ->]|[Hno _]]; [done | by unfold bearer in Hno].
Qed.

Lemma add_created ADMIN_TOKEN req env s g s1 tr :
  exec (route ADMIN_TOKEN Add req env) s =
    (Returned {| status := 201; body := BGame g |}, s1, tr) ->
  games s1 = games s ++ [g].
Proof.
  unfold route.
  destruct (requireAuth_cases ADMIN_TOKEN req (handler Add req env))
    as [[_ ->]|[_ ->]]; [| done].
  cbn [handler]. rewrite post_add_eq.
  destruct (trimmed (body_title req)) as [t|];
    [destruct (trimmed (body_description req)) as [d|];
     [destruct (trimmed (body_link req)) as [l|] |] |]; try done.
  cbn zeta. intros Hrun.
  apply exec_persist_cases in Hrun as (_ & o1 & tr1 & _ & Hcase).
  destruct o1 as [[]|e].
  - destruct Hcase as ([= <-] & -> & _). done.
  - by destruct Hcase as ([=] & _).
Qed.

Lemma get_games_run s :
  exec get_games s =
  (Returned {| status := 200; body := BGames (rev (games s)) |}, s, []).
Proof. by destruct s. Qed.





Lemma findIndex_first p l idx :
  findIndex p l = Some idx ->
  forall g, g ∈ take idx l -> p g = false.
Proof.
  revert idx. induction l as [|x l IH]; intros idx; simpl; [done |].
  destruct (p x) eqn:Hp.
  - intros [= <-] g Hg. by apply elem_of_nil in Hg.
  - destruct (findIndex p l) as [j|]; [| done].
    intros [= <-] g Hg. simpl in Hg.
    apply elem_of_cons in Hg as [->|Hg]; [done |]. by apply (IH j).
Qed.



(** What a mutating route can do to the array. *)
Lemma route_games ADMIN_TOKEN op req env s o s' tr :
  exec (route ADMIN_TOKEN op req env) s = (o, s', tr) ->
  games s' = games s \/
  (op = Add /\
   exists g, id g = generated_id env /\ games s' = games s ++ [g]) \/
  (op = Edit /\
   exists idx prev g,
     games s !! idx = Some prev /\ id g = id prev /\
     games s' = <[idx := g]> (games s)) \/
  (op = Delete /\ exists idx, games s' = delete idx (games s)).
Proof.
  unfold route.
  destruct (requireAuth_cases ADMIN_TOKEN req (handler op req env))
    as [[_ ->]|[_ ->]]; [| intros [= <- <- <-]; by left].
  destruct op; cbn [handler].
  - rewrite post_add_eq.
    destruct (trimmed (body_title req)) as [t|];
      [destruct (trimmed (body_description req)) as [d|];
       [destruct (trimmed (body_link req)) as [l|] |] |];
      try (intros [= <- <- <-]; by left).
    cbn zeta. intros Hrun.
    apply exec_persist_cases in Hrun as (_ & o1 & tr1 & _ & Hcase).
    destruct o1 as [[]|e].
    + destruct Hcase as (_ & -> & _). right. left. split; [done |].
      by exists (new_game t d l req env).
    + destruct Hcase as (_ & -> & _). left. apply pop_push.
  - destruct (body_id req) as [i|] eqn:Hid;
      [destruct (truthy_string i) eqn:Hi;
       [destruct (findIndex (has_id i) (games s)) as [idx|] eqn:Hfind |] |].
    + destruct (findIndex_lookup _ _ _ Hfind) as (prev & Hprev & _).
      unfold exec.
      rewrite (post_edit_found req env i idx prev (start s) Hid Hi Hfind Hprev).
      cbn zeta.
      fold (exec (modify (fun s0 => set_games
        (assign idx (edited prev req env) (games s0)) s0) ;;
        persist (net env) (commit_message "edit" (edited prev req env)) "edit"
          (PGame (edited prev req env)) (ts_now env)
          {| status := 200; body := BGame (edited prev req env) |}
          (assign idx prev) (persist_failure Edit)) s).
      intros Hrun.
      apply exec_persist_cases in Hrun as (_ & o1 & tr1 & _ & Hcase).
      destruct o1 as [[]|e].
      * destruct Hcase as (_ & -> & _). right. right. left. split; [done |].
        by exists idx, prev, (edited prev req env).
      * destruct Hcase as (_ & -> & _). left. by apply assign_assign.
    + unfold exec, post_edit. rewrite Hid, Hi. cbn [negb].
      unfold bind, get_state. cbn [start st]. rewrite Hfind.
      intros [= <- <- <-]. by left.
    + unfold exec, post_edit. rewrite Hid, Hi.
      intros [= <- <- <-]. by left.
    + unfold exec, post_edit. rewrite Hid. intros [= <- <- <-]. by left.
  - destruct (body_id req) as [i|] eqn:Hid;
      [destruct (truthy_string i) eqn:Hi;
       [destruct (findIndex (has_id i) (games s)) as [idx|] eqn:Hfind |] |].
    + destruct (findIndex_lookup _ _ _ Hfind) as (removed & Hrem & _).
      unfold exec.
      rewrite (post_delete_found req env i idx removed (start s)
                 Hid Hi Hfind Hrem).
      fold (exec (modify (fun s0 => set_games (splice_out idx (games s0)) s0) ;;
        persist (net env) (commit_message "delete" removed) "delete"
          (PId (id removed)) (ts_now env)
          {| status := 200; body := BDeleted (id removed) |}
          (splice_in idx removed) (persist_failure Delete)) s).
      intros Hrun.
      apply exec_persist_cases in Hrun as (_ & o1 & tr1 & _ & Hcase).
      destruct o1 as [[]|e].
      * destruct Hcase as (_ & -> & _). right. right. right. split; [done |].
        exists idx. unfold splice_out. by rewrite delete_take_drop.
      * destruct Hcase as (_ & -> & _). left. by apply splice_in_out.
    + unfold exec, post_delete. rewrite Hid, Hi. cbn [negb].
      unfold bind, get_state. cbn [start st]. rewrite Hfind.
      intros [= <- <- <-]. by left.
    + unfold exec, post_delete. rewrite Hid, Hi.
      intros [= <- <- <-]. by left.
    + unfold exec, post_delete. rewrite Hid. intros [= <- <- <-]. by left.
Qed.

Lemma route_distinct ADMIN_TOKEN c s :
  NoDup (id <$> games s) ->
  (call_op c = Add ->
   forall g, g ∈ games s -> id g <> generated_id (call_env c)) ->
  NoDup (id <$> games
           (exec (route ADMIN_TOKEN (call_op c) (call_req c) (call_env c))
              s).1.2).
Proof.
  intros Hnd Hfresh.
  destruct (exec (route ADMIN_TOKEN (call_op c) (call_req c) (call_env c)) s)
    as [[o s'] tr] eqn:Hrun. cbn [fst snd].
  apply route_games in Hrun
    as [->|[(Hop & g & Hid & ->)|[(Hop & idx & prev & g & Hprev & Hid & ->)
       |(Hop & idx & ->)]]].
  - done.
  - rewrite fmap_app. apply NoDup_app. split_and!; [done | | apply NoDup_singleton].
    intros x Hx Hin. apply list_elem_of_singleton in Hin as ->.
    apply list_elem_of_fmap in Hx as (g' & Hg' & Hin).
    apply (Hfresh Hop g' Hin). congruence.
  - rewrite list_fmap_insert, list_insert_id; [done |].
    by rewrite list_lookup_fmap, Hprev, Hid.
  - rewrite list_fmap_delete.
    exact (sublist_NoDup _ _ Hnd (sublist_delete _ _)).
Qed.

(** ** Handlers run alone *)

Lemma app_post_cases ADMIN_TOKEN op req env :
  (app_post ADMIN_TOKEN op req env = route ADMIN_TOKEN op req env /\
   forall f, op <> Delete -> file req = Some f -> fileFilter f = None) \/
  (exists f,
     op <> Delete /\ file req = Some f /\
     startsWith (mimetype f) "image/" = false /\
     app_post ADMIN_TOKEN op req env =
       requireAuth ADMIN_TOKEN req
         (errorHandler "Only image files are allowed")).
Proof.
  unfold app_post, route, upload_single, fileFilter.
  destruct (file req) as [f|] eqn:Hfile; [| left; by destruct op].
  destruct (startsWith (mimetype f) "image/") eqn:Hf; cbn [negb].
  - left. split; [by destruct op |]. intros f' _ [= <-]. by rewrite Hf.
  - destruct op; [right | right | by left]; by exists f.
Qed.

(** With the body read and the upload, if any, let through, the app is
    [requireAuth] and the handler. *)
Lemma express_app_route ADMIN_TOKEN op req env :
  (op <> Delete -> forall f, file req = Some f -> fileFilter f = None) ->
  express_app ADMIN_TOKEN op (Parsed req) env = route ADMIN_TOKEN op req env.
Proof.
  intros Hfile. unfold express_app, app_post, route, upload_single.
  destruct op; try done;
    (destruct (file req) as [f|] eqn:Hf; [| done]);
    by rewrite (Hfile ltac:(done) f eq_refl).
Qed.

(** The app either does what [requireAuth] and the handler do, or ends in
    the error handler before the handler is reached. *)
Lemma express_app_cases ADMIN_TOKEN op inc env s :
  (exists req,
     carried inc = Some req /\
     exec (express_app ADMIN_TOKEN op inc env) s =
       exec (route ADMIN_TOKEN op req env) s) \/
  (exists m,
     (forall req, carried inc = Some req ->
                  authorization req = bearer ADMIN_TOKEN) /\
     exec (express_app ADMIN_TOKEN op inc env) s =
       (Returned {| status := 500;
                    body := BError (if truthy_string m then m
                                    else "Internal server error") |},
        s, [EError ("Unhandled error: " +:+ m)])).
Proof.
  assert (forall req m,
            (exec (requireAuth ADMIN_TOKEN req (errorHandler m)) s =
             exec (route ADMIN_TOKEN op req env) s) \/
            (authorization req = bearer ADMIN_TOKEN /\
             exec (requireAuth ADMIN_TOKEN req (errorHandler m)) s =
               (Returned {| status := 500;
                            body := BError (if truthy_string m then m
                                            else "Internal server error") |},
                s, [EError ("Unhandled error: " +:+ m)]))) as Herror.
  { intros req m.
    destruct (requireAuth_cases ADMIN_TOKEN req (errorHandler m))
      as [[Hyes ->]|[Hno ->]]; [by right | left].
    unfold route.
    by destruct (requireAuth_cases ADMIN_TOKEN req (handler op req env))
      as [[? _]|[_ ->]]. }
  destruct inc as [a m|req m|req]; cbn [carried express_app].
  - right. by exists m.
  - destruct op; try (left; by exists req);
      (destruct (Herror req m) as [Heq|[Hyes Heq]];
       [left; by exists req
       |right; exists m; split; [by intros ? [= <-] | done]]).
  - destruct (app_post_cases ADMIN_TOKEN op req env)
      as [[-> _]|(f & _ & _ & _ & ->)]; [left; by exists req |].
    destruct (Herror req "Only image files are allowed") as [Heq|[Hyes Heq]];
      [left; by exists req |].
    right. exists "Only image files are allowed".
    split; [by intros ? [= <-] | done].
Qed.

Lemma finish_co_bind {A B} (c : Async.Co A) (f : A -> Async.Running B) :
  forall r,
    alone (Async.co_bind c f) r =
    match finish c r with
    | (Some (Returned a), r') => alone (f a) r'
    | (Some (Threw e), r') => (Some (Threw e), r')
    | (None, r') => (None, r')
    end.
Proof.
  induction c as [[a|e]| |k IH] using Async.Co_ind; intros r; try done.
  unfold alone. cbn [Async.co_bind finish].
  specialize (IH r (k r).2). destruct (k r) as [c1 r1]. exact IH.
Qed.

Lemma alone_bind {A B} (m : Async.Running A) (f : A -> Async.Running B) r :
  alone (Async.bind m f) r =
  match alone m r with
  | (Some (Returned a), r') => alone (f a) r'
  | (Some (Threw e), r') => (Some (Threw e), r')
  | (None, r') => (None, r')
  end.
Proof.
  unfold alone at 1 2, Async.bind. destruct (m r) as [c r1].
  apply (finish_co_bind c f r1).
Qed.

Lemma finish_co_catch {A} (c : Async.Co A) (h : string -> Async.Running A) :
  forall r,
    alone (Async.co_catch c h) r =
    match finish c r with
    | (Some (Returned a), r') => (Some (Returned a), r')
    | (Some (Threw e), r') => alone (h e) r'
    | (None, r') => (None, r')
    end.
Proof.
  induction c as [[a|e]| |k IH] using Async.Co_ind; intros r; try done.
  unfold alone. cbn [Async.co_catch finish].
  specialize (IH r (k r).2). destruct (k r) as [c1 r1]. exact IH.
Qed.

Lemma alone_try_catch {A} (m : Async.Running A) h r :
  alone (Async.try_catch m h) r =
  match alone m r with
  | (Some (Returned a), r') => (Some (Returned a), r')
  | (Some (Threw e), r') => alone (h e) r'
  | (None, r') => (None, r')
  end.
Proof.
  unfold alone at 1 2, Async.try_catch. destruct (m r) as [c r1].
  apply (finish_co_catch c h r1).
Qed.

Lemma same_at {A} r (m : Async.Running A) m' : same m m' -> same_from r m m'.
Proof. intros H. apply H. Qed.

Lemma same_from_bind {A B} r (m : Async.Running A) m'
    (f : A -> Async.Running B) f' :
  same_from r m m' ->
  (forall a r1, m' r = (Returned a, r1) -> same_from r1 (f a) (f' a)) ->
  same_from r (Async.bind m f) (bind m' f').
Proof.
  unfold same_from. intros Hm Hf. rewrite alone_bind, Hm. unfold bind.
  destruct (m' r) as [[a|e] r1]; cbn [fst snd]; [by apply Hf | done].
Qed.

Lemma same_from_try_catch {A} r (m : Async.Running A) m' h h' :
  same_from r m m' ->
  (forall e r1, m' r = (Threw e, r1) -> same_from r1 (h e) (h' e)) ->
  same_from r (Async.try_catch m h) (try_catch m' h').
Proof.
  unfold same_from. intros Hm Hh. rewrite alone_try_catch, Hm.
  unfold try_catch.
  destruct (m' r) as [[a|e] r1]; cbn [fst snd]; [done | by apply Hh].
Qed.

Lemma same_ret {A} (a : A) : same (Async.ret a) (ret a).
Proof. by intros r. Qed.

Lemma same_throw {A} e : same (@Async.throw A e) (throw e).
Proof. by intros r. Qed.

Lemma same_now {A} (m : M A) : same (Async.now m) m.
Proof. intros r. unfold same_from, alone, Async.now. by destruct (m r). Qed.

Lemma same_bind {A B} (m : Async.Running A) m' (f : A -> Async.Running B) f' :
  same m m' -> (forall a, same (f a) (f' a)) ->
  same (Async.bind m f) (bind m' f').
Proof.
  intros Hm Hf r. apply same_from_bind; [apply Hm |]. intros a r1 _. apply Hf.
Qed.

Lemma same_try_catch {A} (m : Async.Running A) m' h h' :
  same m m' -> (forall e, same (h e) (h' e)) ->
  same (Async.try_catch m h) (try_catch m' h').
Proof.
  intros Hm Hh r. apply same_from_try_catch; [apply Hm |].
  intros e r1 _. apply Hh.
Qed.

Lemma same_await {A} (m : Async.Running A) m' :
  same m m' -> same (Async.bind Async.await (fun _ => m)) m'.
Proof. intros Hm r. unfold same_from. rewrite alone_bind. apply Hm. Qed.

Ltac same_step :=
  match goal with
  | |- forall _, _ => intro
  | |- same (Async.ret _) _ => apply same_ret
  | |- same (Async.throw _) _ => apply same_throw
  | |- same (Async.now _) _ => apply same_now
  | |- same (Async.bind Async.await _) _ => apply same_await
  | |- same (Async.bind _ _) _ => apply same_bind
  | |- same (Async.try_catch _ _) _ => apply same_try_catch
  | |- same (match ?x with _ => _ end) _ => destruct x
  end.

Lemma same_save_attempt nw message k :
  same (Async.save_attempt nw message k) (save_attempt nw message k).
Proof. unfold Async.save_attempt, save_attempt. repeat same_step. Qed.

Lemma same_save_loop nw message left : forall k,
  same (Async.save_loop nw message left k) (save_loop nw message left k).
Proof.
  induction left as [|left IH]; intros k; cbn [Async.save_loop save_loop].
  - apply same_ret.
  - apply same_try_catch; [apply same_save_attempt |].
    intros e. apply same_bind; [apply same_now |]. intros _.
    destruct (k =? MAX_RETRIES)%nat; [apply same_throw |].
    apply same_bind; [apply same_now |]. intros _.
    apply same_await, IH.
Qed.

Lemma same_saveToGitHub nw message :
  same (Async.saveToGitHub nw message) (saveToGitHub nw message).
Proof. apply same_save_loop. Qed.

Ltac same_steps :=
  repeat first [ apply same_saveToGitHub | same_step ].

Lemma same_post_add req env :
  same (Async.post_add req env) (post_add req env).
Proof. unfold Async.post_add, post_add. same_steps. Qed.

Lemma same_post_delete req env :
  same (Async.post_delete req env) (post_delete req env).
Proof. unfold Async.post_delete, post_delete. same_steps. Qed.

(** The [try] block of a handler leaves [games] as it found it. *)
Lemma try_block_games nw message ty p now (ok : Response) r :
  games (st ((saveToGitHub nw message ;; broadcast ty p now ;; ret ok) r).2)
  = games (st r).
Proof.
  unfold broadcast, bind, ret, get_state.
  destruct (save_run nw message r) as (tr1 & _ & _ & Hg & _).
  destruct (saveToGitHub nw message r) as [[[]|e] r1]; cbn [fst snd] in *;
    [| done].
  destruct (send_all_run {| type := ty; payload := p; ts := now |}
              (clients (st r1)) r1) as (Ho & Hs & _).
  destruct (send_all _ _ r1) as [o r2]. cbn [fst snd] in *.
  subst o. simpl. by rewrite Hs.
Qed.

Lemma same_post_edit req env :
  same (Async.post_edit req env) (post_edit req env).
Proof.
  unfold Async.post_edit, post_edit.
  destruct (body_id req) as [i|]; [| apply same_ret].
  destruct (negb (truthy_string i)); [apply same_ret |].
  intros r. apply same_from_bind; [apply same_at, same_now |].
  unfold get_state at 1. intros s ? [= <- <-].
  destruct (findIndex (has_id i) (games (st r))) as [idx|];
    [| apply same_at, same_ret].
  destruct (games (st r) !! idx) as [prev|] eqn:Hprev;
    [| apply same_at, same_throw].
  cbn zeta. apply same_from_bind; [apply same_at, same_now |].
  unfold modify at 1. intros [] r1 [= <-].
  apply same_from_try_catch; [apply same_at; same_steps |].
  intros e r2 Hr2.
  pose proof (try_block_games (net env)
                (commit_message "edit" (edited prev req env)) "edit"
                (PGame (edited prev req env)) (ts_now env)
                {| status := 200; body := BGame (edited prev req env) |}
                {| st := set_games (assign idx (edited prev req env)
                                      (games (st r))) (st r);
                   gets := gets r; puts := puts r; trace := trace r |}) as Hg.
  rewrite Hr2 in Hg. cbn [snd st games set_games] in Hg.
  assert ((idx <? length (games (st r2)))%nat = true) as Hlt.
  { apply Nat.ltb_lt. rewrite Hg. unfold assign. rewrite length_insert.
    by apply lookup_lt_Some in Hprev. }
  unfold same_from. rewrite alone_bind, same_now.
  unfold get_state at 1. cbn [fst snd].
  unfold Async.assign_at. rewrite Hlt.
  rewrite alone_bind, same_now. unfold modify at 1. cbn [fst snd].
  rewrite alone_bind, same_now. unfold emit at 1. cbn [fst snd].
  done.
Qed.

Lemma same_handler op req env :
  same (Async.handler op req env) (handler op req env).
Proof.
  destruct op; [apply same_post_add | apply same_post_edit
               | apply same_post_delete].
Qed.

Lemma same_requireAuth ADMIN_TOKEN req next next' :
  same next next' ->
  same (Async.requireAuth ADMIN_TOKEN req next)
    (requireAuth ADMIN_TOKEN req next').
Proof.
  intros Hnext. unfold Async.requireAuth, requireAuth.
  destruct (authorization req) as [token|]; [| apply same_ret].
  destruct (negb (truthy_string token) || _); [apply same_ret | done].
Qed.

Lemma same_upload_single req next next' :
  same next next' ->
  same (Async.upload_single req next) (upload_single req next').
Proof.
  intros Hnext. unfold Async.upload_single, upload_single.
  destruct (file req) as [f|]; [| done].
  destruct (fileFilter f); [apply same_now | done].
Qed.

Lemma same_app_post ADMIN_TOKEN op req env :
  same (Async.app_post ADMIN_TOKEN op req env)
    (app_post ADMIN_TOKEN op req env).
Proof.
  unfold Async.app_post, app_post. apply same_requireAuth.
  destruct op; try apply same_upload_single; apply same_handler.
Qed.

Lemma same_express_app ADMIN_TOKEN op inc env :
  same (Async.express_app ADMIN_TOKEN op inc env) (express_app ADMIN_TOKEN op inc env).
Proof.
  unfold Async.express_app, express_app.
  destruct inc as [a m|req m|req];
    [apply same_now | | apply same_app_post].
  apply same_requireAuth.
  destruct op; [apply same_now | apply same_now | apply same_handler].
Qed.

(** ** A request handled alone *)

Lemma run_cons i schedule sv :
  Async.run (i :: schedule) sv = Async.run schedule (Async.resume i sv).
Proof. done. Qed.

Lemma run_alone i : forall c sv p,
  Async.pending sv !! i = Some p ->
  Async.code p = c ->
  Async.run (replicate (Async.resumptions c (Async.view sv p)) i) sv =
  {| Async.shared := st (finish c (Async.view sv p)).2;
     Async.pending :=
       <[i := {| Async.code := settled (finish c (Async.view sv p));
                 Async.fetched := gets (finish c (Async.view sv p)).2;
                 Async.written := puts (finish c (Async.view sv p)).2;
                 Async.did := trace (finish c (Async.view sv p)).2 |}]>
         (Async.pending sv) |}.
Proof.
  induction c as [o| |k IH] using Async.Co_ind; intros sv p Hp Hc.
  - cbn. destruct sv as [s ps], p as [c g w d]. cbn in *. subst c.
    by rewrite list_insert_id.
  - cbn. destruct sv as [s ps], p as [c g w d]. cbn in *. subst c.
    by rewrite list_insert_id.
  - cbn [Async.resumptions finish replicate]. rewrite run_cons.
    unfold Async.resume. rewrite Hp, Hc.
    specialize (IH (Async.view sv p)).
    destruct (k (Async.view sv p)) as [c1 [s1 g1 w1 t1]]. cbn [fst] in IH.
    cbn [st gets puts trace].
    etrans.
    { apply (IH {| Async.shared := s1;
                   Async.pending :=
                     <[i := {| Async.code := c1; Async.fetched := g1;
                               Async.written := w1; Async.did := t1 |}]>
                       (Async.pending sv) |}
                {| Async.code := c1; Async.fetched := g1;
                   Async.written := w1; Async.did := t1 |});
        [| done].
      apply list_lookup_insert_eq. by apply lookup_lt_Some in Hp. }
    cbn [Async.shared Async.pending Async.view Async.fetched Async.written
         Async.did].
    by rewrite list_insert_insert_eq.
Qed.

(** A request that has just arrived, handled alone, does what the
    uninterrupted handler does from the shared state. *)
Lemma settle_arrive ADMIN_TOKEN op inc env sv i o s' tr :
  Async.pending sv !! i = Some (Async.arrive ADMIN_TOKEN op inc env) ->
  exec (express_app ADMIN_TOKEN op inc env) (Async.shared sv) = (o, s', tr) ->
  exists g w,
    Async.settle i sv =
    {| Async.shared := s';
       Async.pending :=
         <[i := {| Async.code := Async.Done o; Async.fetched := g;
                   Async.written := w; Async.did := tr |}]>
           (Async.pending sv) |}.
Proof.
  intros Hp. unfold exec, Async.settle. rewrite Hp.
  rewrite (run_alone i _ sv _ Hp eq_refl).
  cbn [Async.arrive Async.code finish Async.view Async.fetched Async.written
       Async.did].
  pose proof (same_express_app ADMIN_TOKEN op inc env (start (Async.shared sv))) as Hsame.
  unfold same_from, alone, start in Hsame. unfold start.
  destruct (Async.express_app ADMIN_TOKEN op inc env _) as [c1 r1].
  rewrite Hsame.
  destruct (express_app ADMIN_TOKEN op inc env _) as [o1 r2]. cbn [fst snd].
  intros [= <- <- <-]. by eexists _, _.
Qed.

(** The same, read off the server: its state, the answer and what the
    request did are those of the uninterrupted handler. *)
Lemma settle_exec ADMIN_TOKEN op inc env sv i :
  Async.pending sv !! i = Some (Async.arrive ADMIN_TOKEN op inc env) ->
  exists o s' tr,
    exec (express_app ADMIN_TOKEN op inc env) (Async.shared sv) = (o, s', tr) /\
    Async.shared (Async.settle i sv) = s' /\
    Async.answer i (Async.settle i sv) = Some o /\
    done_by i (Async.settle i sv) = tr.
Proof.
  intros Hp.
  destruct (exec (express_app ADMIN_TOKEN op inc env) (Async.shared sv))
    as [[o s'] tr] eqn:Hrun.
  destruct (settle_arrive _ _ _ _ _ _ _ _ _ Hp Hrun) as (g & w & ->).
  exists o, s', tr. unfold Async.answer, done_by. cbn [Async.shared Async.pending].
  rewrite list_lookup_insert_eq by (by apply lookup_lt_Some in Hp). done.
Qed.

(** Requests handled in turn leave the state that [post_all] computes. *)
Lemma in_turn_from ADMIN_TOKEN cs : forall before s,
  Async.shared
    (foldl (fun sv i => Async.settle i sv)
       {| Async.shared := s;
          Async.pending := before ++ (arrival ADMIN_TOKEN <$> cs) |}
       (seq (length before) (length cs)))
  = post_all ADMIN_TOKEN cs s.
Proof.
  induction cs as [|c cs IH]; intros before s; [done |].
  cbn [length seq foldl fmap list_fmap post_all].
  destruct (exec (express_app ADMIN_TOKEN (call_op c) (Parsed (call_req c))
                    (call_env c)) s) as [[o s'] tr] eqn:Hrun.
  edestruct (settle_arrive ADMIN_TOKEN (call_op c) (Parsed (call_req c))
               (call_env c)
               {| Async.shared := s;
                  Async.pending := before ++ arrival ADMIN_TOKEN c
                                     :: (arrival ADMIN_TOKEN <$> cs) |}
               (length before) o s' tr) as (g & w & Hsettle);
    [by apply list_lookup_middle | done |].
  rewrite Hsettle. cbn [Async.pending].
  replace (length before) with (length before + 0) at 1 by lia.
  rewrite insert_app_r. cbn [insert list_insert].
  rewrite (cons_middle _ before), app_assoc.
  replace (S (length before))
    with (length (before ++ [{| Async.code := Async.Done o;
                                Async.fetched := g; Async.written := w;
                                Async.did := tr |}]))
    by (rewrite length_app; simpl; lia).
  rewrite IH. unfold post.
  change (app_post ADMIN_TOKEN (call_op c) (call_req c) (call_env c))
    with (express_app ADMIN_TOKEN (call_op c) (Parsed (call_req c))
            (call_env c)).
  by rewrite Hrun.
Qed.

Lemma in_turn_post_all ADMIN_TOKEN cs s :
  Async.shared (Async.in_turn (arrivals ADMIN_TOKEN cs s))
  = post_all ADMIN_TOKEN cs s.
Proof.
  unfold Async.in_turn, arrivals. cbn [Async.pending].
  rewrite length_fmap. apply (in_turn_from ADMIN_TOKEN cs [] s).
Qed.

(** One request, handled alone, keeps the ids distinct when its add, if it
    is one, generates an id that no entry has. *)
Lemma post_distinct ADMIN_TOKEN c s :
  NoDup (id <$> games s) ->
  (call_op c = Add ->
   forall g, g ∈ games s -> id g <> generated_id (call_env c)) ->
  NoDup (id <$> games (post ADMIN_TOKEN c s)).
Proof.
  intros Hnd Hfresh. unfold post.
  destruct (app_post_cases ADMIN_TOKEN (call_op c) (call_req c) (call_env c))
    as [[-> _]|(f & _ & _ & _ & ->)].
  - by apply route_distinct.
  - by destruct (requireAuth_cases ADMIN_TOKEN (call_req c)
                   (errorHandler "Only image files are allowed"))
      as [[_ ->]|[_ ->]].
Qed.

(** * The claims *)

(** ** Retry of the save (C2) *)

(** C2.  A save makes at least one and at most [MAX_RETRIES] = 3 attempts,
    with at most one PUT per attempt.  After the failed attempt [k], for
    [k] below 3, it sleeps [500 * k] milliseconds, so the delays are 500 and
    then 1000, and every sleep is followed at once by a GET that re-fetches
    the version tag.  The save returns exactly when its last attempt
    commits, and throws exactly when attempt 3 of 3 fails, with the error of
    that attempt.  With a store whose first two writes fail and whose third
    succeeds (reads not throwing), the save returns at the third attempt and
    leaves the new version tag in [fileSHA]; with a store whose writes
    always fail, it throws after exactly 3 attempts, and when reads do not
    throw the error thrown is that of the third PUT.  The tag that a GET
    returns is the one used: a GET that does not throw is followed at once
    by the PUT of the attempt, and that PUT carries as [sha] the tag of that
    GET when its response was ok, and the tag [fileSHA] held before it when
    it was not (no [sha] when that tag is falsy); a save that throws leaves
    in [fileSHA] the tag of its last GET with an ok response. *)
Theorem saveToGitHub_retries nw message s o s' tr :
  exec (saveToGitHub nw message) s = (o, s', tr) ->
  1 <= attempts tr <= MAX_RETRIES /\
  put_count tr <= attempts tr /\
  sleeps tr = map (fun k => 500 * k) (seq 1 (attempts tr - 1)) /\
  (forall i ms, tr !! i = Some (ESleep ms) -> tr !! S i = Some EGet) /\
  attempts tr - 1 <= get_count tr /\
  (o = Returned tt <-> last tr = Some (ECommitted message)) /\
  (forall e, o = Threw e <->
             last tr = Some (ESaveFailed MAX_RETRIES MAX_RETRIES e)) /\
  (forall e, o = Threw e -> attempts tr = MAX_RETRIES) /\
  (forall sha,
     is_ok (on_put nw 0) = false ->
     is_ok (on_put nw 1) = false ->
     on_put nw 2 = FetchOk sha ->
     (forall k, throws (on_get nw k) = false) ->
     o = Returned tt /\ attempts tr = 3 /\ s' = set_fileSHA sha s) /\
  ((forall k, is_ok (on_put nw k) = false) ->
   exists e,
     o = Threw e /\ attempts tr = MAX_RETRIES /\
     ((forall k, throws (on_get nw k) = false) ->
      e = put_error (on_put nw 2))) /\
  (forall i,
     tr !! i = Some EGet ->
     throws (on_get nw (get_count (take i tr))) = true \/
     tr !! S i =
       Some (EPut message (games s)
               (tag_sent (refetched nw 0 (S (get_count (take i tr)))
                            (fileSHA s))))) /\
  (forall e,
     o = Threw e -> fileSHA s' = refetched nw 0 (get_count tr) (fileSHA s)).
Proof.
  unfold exec. intros Hrun.
  destruct (save_run nw message (start s))
    as (tr1 & Htr & Hev & _ & _ & Hthrew).
  destruct (save_loop_refetch nw message (games s) MAX_RETRIES 1 (start s)
              eq_refl) as (tr2 & Htr2 & Hused).
  fold (saveToGitHub nw message) in Htr2. rewrite Htr in Htr2.
  apply app_inv_head in Htr2 as <-.
  destruct (saveToGitHub nw message (start s)) as [o1 r1] eqn:Hsave.
  cbn [fst snd start trace st games] in *. injection Hrun as <- <- <-.
  cbn [app] in Htr. rewrite Htr.
  pose proof (loop_events_attempts _ _ _ _ _ Hev) as (Hpos & Hmax & Hall);
    [unfold MAX_RETRIES; lia |].
  pose proof (loop_events_sleeps _ _ _ _ _ Hev) as [_ Hsleeps].
  pose proof (loop_events_last _ _ _ _ _ Hev) as Hlast.
  pose proof (loop_events_gets _ _ _ _ _ Hev) as [Hgets _]; [lia |].
  split_and!.
  - done.
  - lia.
  - by eapply loop_events_puts.
  - done.
  - by eapply loop_events_refetch.
  - lia.
  - destruct o1 as [[]|e]; rewrite Hlast; split; done.
  - intros e. destruct o1 as [[]|e1]; rewrite Hlast; [split; done |].
    split; intros [= ->]; done.
  - intros e He. specialize (Hall e He). lia.
  - intros sha H0 H1 H2 Hget.
    destruct (save_loop_succeeds nw message sha 2 2 1 (start s)) as
      (r' & Hloop & Hst & Hatt); try done.
    { intros [|[|j]] Hj; cbn [start puts Nat.add]; [done | done | lia]. }
    unfold saveToGitHub in Hsave.
    change (save_loop nw message 3 1 (start s))
      with (save_loop nw message MAX_RETRIES 1 (start s)) in Hloop.
    rewrite Hsave in Hloop. injection Hloop as -> <-.
    split; [done |]. split; [| done].
    cbn [start trace] in Hatt. by rewrite Htr in Hatt.
  - intros Hfail.
    destruct (save_loop_puts_fail nw message 2 1 (start s) Hfail eq_refl)
      as (e & r' & Hloop).
    unfold saveToGitHub in Hsave.
    change (save_loop nw message 3 1 (start s))
      with (save_loop nw message MAX_RETRIES 1 (start s)) in Hloop.
    rewrite Hsave in Hloop. injection Hloop as -> <-.
    exists e. split; [done |]. split; [specialize (Hall e eq_refl); lia |].
    intros Hget.
    by apply (save_loop_last_error nw message 2 1 (start s) e r1 Hget Hfail).
  - exact Hused.
  - intros e ->. exact (Hthrew e eq_refl).
Qed.

Lemma saveToGitHub_retries_witness :
  (exists o s' tr,
     exec (saveToGitHub flaky_store "save") empty_state = (o, s', tr) /\
     sleeps tr = [500 * 1; 500 * 2] /\
     o = Returned tt /\ attempts tr = 3 /\ fileSHA s' = Some "v3" /\
     tr !! 4 = Some (EPut "save" [] (Some "v2"))) /\
  (exists o s' tr,
     exec (saveToGitHub dead_store "save") empty_state = (o, s', tr) /\
     o = Threw "conflict" /\ attempts tr = 3 /\ fileSHA s' = Some "v2").
Proof.
  split.
  - destruct (exec (saveToGitHub flaky_store "save") empty_state)
      as [[o s'] tr] eqn:Hrun.
    exists o, s', tr. split; [reflexivity |].
    destruct (saveToGitHub_retries flaky_store "save" empty_state o s' tr Hrun)
      as (_ & _ & Hsleeps & _ & _ & _ & _ & _ & Hflaky & _ & Hused & _).
    destruct (Hflaky (Some "v3") eq_refl eq_refl eq_refl (fun _ => eq_refl))
      as (Ho & Hatt & Hs).
    rewrite Hatt in Hsleeps. rewrite Hs.
    split; [exact Hsleeps |]. split; [exact Ho |]. split; [exact Hatt |].
    split; [reflexivity |].
    destruct (Hused 3) as [Hthrows|Hput].
    + vm_compute in Hrun. injection Hrun as <- <- <-. reflexivity.
    + discriminate Hthrows.
    + rewrite Hput, refetched_snoc. reflexivity.
  - destruct (exec (saveToGitHub dead_store "save") empty_state)
      as [[o s'] tr] eqn:Hrun.
    exists o, s', tr. split; [reflexivity |].
    destruct (saveToGitHub_retries dead_store "save" empty_state o s' tr Hrun)
      as (_ & _ & _ & _ & _ & _ & _ & _ & _ & Hdead & _ & Hthrew).
    destruct (Hdead (fun _ => eq_refl)) as (e & Ho & Hatt & He).
    rewrite (He (fun _ => eq_refl)) in Ho.
    split; [exact Ho |]. split; [exact Hatt |].
    rewrite (Hthrew _ Ho).
    assert (get_count tr = 2) as ->.
    { vm_compute in Hrun. by injection Hrun as <- <- <-. }
    reflexivity.
Defined.

(** ** Authentication (C5) *)

(** C5, as the code has it.  A request to [/add], [/edit] or [/delete]
    whose body [express.json] let through and whose [authorization] header
    is missing or is not ["Bearer "] followed by the admin token is answered
    401 Unauthorized; the state is the one before the request and the trace
    is empty: no GET, no PUT, nothing broadcast.  A request whose body
    [express.json] refuses never reaches [requireAuth]: whatever its header,
    the error handler answers 500 with the message of the error; the state
    is unchanged there too, and the only trace is the console line. *)
Theorem unauthorized_rejected ADMIN_TOKEN op inc env s :
  (forall req,
     carried inc = Some req ->
     authorization req <> Some ("Bearer " +:+ ADMIN_TOKEN) ->
     exec (express_app ADMIN_TOKEN op inc env) s =
       (Returned {| status := 401; body := BError "Unauthorized" |}, s, [])) /\
  (forall a m,
     inc = Unparsable a m ->
     exec (express_app ADMIN_TOKEN op inc env) s =
       (Returned {| status := 500;
                    body := BError (if truthy_string m then m
                                    else "Internal server error") |},
        s, [EError ("Unhandled error: " +:+ m)])).
Proof.
  split; [| by intros a m ->]. intros req Hreq Hauth.
  destruct inc as [a m|req' m|req']; try done;
    injection Hreq as ->; unfold express_app, app_post;
    match goal with
    | |- exec (requireAuth _ _ ?next) _ = _ =>
        destruct (requireAuth_cases ADMIN_TOKEN req next) as [[Hok _]|[_ ->]]
    end; done.
Qed.

Lemma unauthorized_rejected_witness :
  exec (express_app "secret" Delete (Parsed anonymous_delete) quiet_env)
    empty_state =
  (Returned {| status := 401; body := BError "Unauthorized" |},
   empty_state, []).
Proof.
  apply (proj1 (unauthorized_rejected "secret" Delete (Parsed anonymous_delete)
                  quiet_env empty_state) anonymous_delete eq_refl).
  discriminate.
Defined.

(** A delete without a token whose JSON body does not parse is answered
    500, not 401. *)
Lemma unauthorized_malformed_counterexample :
  exists resp,
    exec (express_app "secret" Delete
            (Unparsable None "Unexpected end of JSON input") quiet_env)
      empty_state =
      (Returned resp, empty_state,
       [EError "Unhandled error: Unexpected end of JSON input"]) /\
    status resp = 500 /\ status resp <> 401.
Proof. eexists. split; [reflexivity |]. split; [reflexivity | discriminate]. Qed.

(** ** Rollback (C1, C10) *)





(** C10.  When the save of an add, an edit or a delete exhausts its
    retries, the handler restores [games] and leaves [fileSHA] as the save
    left it: the value after the GETs of the run, each of which overwrote
    it when its response was ok.  At least two GETs were made (one before
    each retry), so when the last of them was ok the version tag is the one
    it returned, whatever the tag was before the request.  There is a failed
    add after which [games] is as before and [fileSHA] differs. *)
Theorem version_tag_not_rolled_back ADMIN_TOKEN op req env s o s' tr e :
  exec (route ADMIN_TOKEN op req env) s = (o, s', tr) ->
  ESaveFailed MAX_RETRIES MAX_RETRIES e ∈ tr ->
  games s' = games s /\
  clients s' = clients s /\
  2 <= get_count tr /\
  fileSHA s' = refetched (net env) 0 (get_count tr) (fileSHA s) /\
  (forall n x,
     get_count tr = S n -> on_get (net env) n = FetchOk x -> fileSHA s' = x) /\
  (exists o1 s1 tr1,
     exec (route "secret" Add pong_request dead_env) empty_state
       = (o1, s1, tr1) /\
     ESaveFailed MAX_RETRIES MAX_RETRIES "conflict" ∈ tr1 /\
     games s1 = games empty_state /\
     fileSHA s1 <> fileSHA empty_state).
Proof.
  intros Hrun Hin.
  apply route_cases in Hrun
    as [(_ & -> & _)|(_ & mutated & message & o1 & tr1 & Hev & Hcl & Hcase)].
  { by apply elem_of_nil in Hin. }
  assert (o1 = Threw e) as ->.
  { destruct o1 as [[]|e1].
    - destruct Hcase as (_ & ok & msg & _ & _ & ->).
      apply (exhausted_in_route_trace _ _ _ _ _ _ Hev) in Hin; [done |].
      intros ev Hev' a m x ->. by apply frames_only_sends in Hev' as [c ?].
    - destruct Hcase as (_ & _ & -> & _).
      apply (exhausted_in_route_trace _ _ _ _ _ _ Hev) in Hin; [done |].
      intros ev Hev' a m x ->. by apply list_elem_of_singleton in Hev'. }
  destruct Hcase as (Hg & _ & -> & Hsha).
  assert (get_count (tr1 ++ [EError e]) = get_count tr1) as Hcount.
  { rewrite get_count_app. simpl. lia. }
  rewrite Hcount.
  pose proof (loop_events_attempts _ _ _ _ _ Hev) as (_ & _ & Hall);
    [unfold MAX_RETRIES; lia |].
  specialize (Hall e eq_refl).
  pose proof (loop_events_gets _ _ _ _ _ Hev) as [Hgets _]; [lia |].
  unfold MAX_RETRIES in Hall.
  split_and!; [done | done | lia | done | |].
  - intros n x Hn Hok. rewrite Hsha, Hn, refetched_snoc. cbn [Nat.add].
    by rewrite Hok.
  - destruct (exec (route "secret" Add pong_request dead_env) empty_state)
      as [[o1 s1] tr2] eqn:Hrun.
    exists o1, s1, tr2. split; [reflexivity |].
    vm_compute in Hrun. injection Hrun as <- <- <-.
    split_and!; [| done | done].
    apply (list_elem_of_lookup_2 _ 9). reflexivity.
Qed.

Lemma version_tag_not_rolled_back_witness :
  exists o s' tr,
    exec (route "secret" Add pong_request dead_env) empty_state = (o, s', tr) /\
    games s' = games empty_state /\
    fileSHA s' = Some "v2".
Proof.
  destruct (exec (route "secret" Add pong_request dead_env) empty_state)
    as [[o s'] tr] eqn:Hrun.
  exists o, s', tr. split; [reflexivity |].
  destruct (version_tag_not_rolled_back "secret" Add pong_request dead_env
              empty_state o s' tr "conflict" Hrun)
    as (Hg & _ & _ & _ & Hlast & _).
  - vm_compute in Hrun. injection Hrun as <- <- <-.
    apply (list_elem_of_lookup_2 _ 9). reflexivity.
  - split; [exact Hg |].
    apply (Hlast 1 (Some "v2")); [| reflexivity].
    vm_compute in Hrun. injection Hrun as <- <- <-. reflexivity.
Defined.

(** ** Add (C9) *)

(** What [/add] does behind [requireAuth]. *)
Lemma route_add ADMIN_TOKEN req env s o s' tr :
  authorization req = Some ("Bearer " +:+ ADMIN_TOKEN) ->
  exec (route ADMIN_TOKEN Add req env) s = (o, s', tr) ->
  (blank (body_title req) \/ blank (body_description req) \/
   blank (body_link req) ->
   o = Returned {| status := 400;
                   body := BError "title, description, and link are required" |}
   /\ s' = s /\ tr = []) /\
  (forall t d l,
     body_title req = Some t -> trim t <> EmptyString ->
     body_description req = Some d -> trim d <> EmptyString ->
     body_link req = Some l -> trim l <> EmptyString ->
     exists game,
       title game = trim t /\ description game = trim d /\
       link game = trim l /\
       id game = "game_" +:+ pretty (date_now env) +:+ "_" +:+ random36 env /\
       createdAt game = iso_now env /\ updatedAt game = None /\
       (forall m c sha, EPut m c sha ∈ tr -> c = games s ++ [game]) /\
       ((exists m, ECommitted m ∈ tr) ->
        o = Returned {| status := 201; body := BGame game |} /\
        games s' = games s ++ [game])).
Proof.
  intros Hauth. rewrite (exec_route_authorized _ _ _ _ _ Hauth).
  cbn [handler]. rewrite post_add_eq. intros Hrun. split.
  - rewrite <- !trimmed_None. intros Hblank.
    destruct (trimmed (body_title req)) as [t|];
      [destruct (trimmed (body_description req)) as [d|];
       [destruct (trimmed (body_link req)) as [l|] |] |];
      try (by injection Hrun as <- <- <-).
    by destruct Hblank as [?|[?|?]].
  - intros t d l Ht Ht' Hd Hd' Hl Hl'.
    rewrite (trimmed_Some _ _ Ht Ht'), (trimmed_Some _ _ Hd Hd'),
      (trimmed_Some _ _ Hl Hl') in Hrun.
    cbn zeta in Hrun.
    apply exec_persist_cases in Hrun as (_ & o1 & tr1 & Hev & Hcase).
    exists (new_game (trim t) (trim d) (trim l) req env).
    split_and!; try done.
    + intros m c sha Hin.
      assert (EPut m c sha ∈ tr1) as Hin1.
      { destruct o1 as [[]|e].
        - destruct Hcase as (_ & _ & ->).
          apply elem_of_app in Hin as [Hin|Hin]; [done |].
          by apply frames_only_sends in Hin as [? ?].
        - destruct Hcase as (_ & _ & -> & _).
          apply elem_of_app in Hin as [Hin|Hin]; [done |].
          by apply list_elem_of_singleton in Hin. }
      by apply (loop_events_content _ _ _ _ _ Hev) in Hin1 as [_ ->].
    + intros [m Hin]. destruct o1 as [[]|e]; [by destruct Hcase as (? & ? & _) |].
      destruct Hcase as (_ & _ & -> & _).
      apply (committed_in_route_trace _ _ _ _ _ _ Hev) in Hin; [done |].
      intros ev Hev' x ->. by apply list_elem_of_singleton in Hev'.
Qed.

(** C9, as the code has it.  For a request to [/add] that passed
    [requireAuth] and whose uploaded file, if there is one, is one that
    multer accepts and has an image mime type: when [title], [description]
    or [link] is absent or trims to the empty string, the answer is 400,
    the state is unchanged and nothing is traced.  Otherwise an entry is built whose [title], [description]
    and [link] are the trimmed inputs, whose [id] is ["game_"],
    [Date.now()], ["_"] and the random suffix, and whose [createdAt] is the
    current time; every PUT of the save carries [games] with that entry
    appended at the end; when the save commits, the answer is 201 with the
    entry and [games] is the former array followed by the entry. *)
Theorem add_validates_and_appends ADMIN_TOKEN req env s o s' tr :
  authorization req = Some ("Bearer " +:+ ADMIN_TOKEN) ->
  (forall f, file req = Some f -> startsWith (mimetype f) "image/" = true) ->
  exec (express_app ADMIN_TOKEN Add (Parsed req) env) s = (o, s', tr) ->
  (blank (body_title req) \/ blank (body_description req) \/
   blank (body_link req) ->
   o = Returned {| status := 400;
                   body := BError "title, description, and link are required" |}
   /\ s' = s /\ tr = []) /\
  (forall t d l,
     body_title req = Some t -> trim t <> EmptyString ->
     body_description req = Some d -> trim d <> EmptyString ->
     body_link req = Some l -> trim l <> EmptyString ->
     exists game,
       title game = trim t /\ description game = trim d /\
       link game = trim l /\
       id game = "game_" +:+ pretty (date_now env) +:+ "_" +:+ random36 env /\
       createdAt game = iso_now env /\ updatedAt game = None /\
       (forall m c sha, EPut m c sha ∈ tr -> c = games s ++ [game]) /\
       ((exists m, ECommitted m ∈ tr) ->
        o = Returned {| status := 201; body := BGame game |} /\
        games s' = games s ++ [game])).
Proof.
  intros Hauth Hfile. rewrite express_app_route.
  - by apply route_add.
  - intros _ f Hf. unfold fileFilter. by rewrite (Hfile f Hf).
Qed.

Lemma add_validates_and_appends_witness :
  exists o s' tr,
    exec (express_app "secret" Add (Parsed pong_request) ok_env) empty_state
      = (o, s', tr) /\
    o = Returned {| status := 201; body := BGame pong |} /\
    games s' = [pong].
Proof.
  destruct (exec (express_app "secret" Add (Parsed pong_request) ok_env)
              empty_state) as [[o s'] tr] eqn:Hrun.
  exists o, s', tr. split; [reflexivity |].
  destruct (add_validates_and_appends "secret" pong_request ok_env empty_state
              o s' tr eq_refl ltac:(discriminate) Hrun) as [_ Hvalid].
  destruct (Hvalid " Pong " "classic" "http://pong") as (game & Ht & Hd & Hl
    & Hid & Hc & Hu & _ & Hok); try reflexivity; try (vm_compute; discriminate).
  assert (game = pong) as ->.
  { destruct game as [i t d l im c u].
    cbn [title description link id createdAt updatedAt] in *.
    subst i t d l c u.
    assert (exists m, ECommitted m ∈ tr) as Hcommit.
    { vm_compute in Hrun. injection Hrun as <- <- <-.
      eexists. apply (list_elem_of_lookup_2 _ 1). reflexivity. }
    destruct (Hok Hcommit) as [-> _].
    vm_compute in Hrun. by injection Hrun as <- _ _. }
  apply Hok. vm_compute in Hrun. injection Hrun as <- <- <-.
  eexists. apply (list_elem_of_lookup_2 _ 1). reflexivity.
Defined.

(** An add with a blank title is answered 401 when it has no token, and 500
    when it has the token and a file that is not an image; in neither case
    400. *)
Lemma add_blank_counterexample :
  blank (body_title blank_anonymous_add) /\
  exec (express_app "secret" Add (Parsed blank_anonymous_add) ok_env)
    empty_state =
    (Returned {| status := 401; body := BError "Unauthorized" |},
     empty_state, []) /\
  blank (body_title blank_leaflet_add) /\
  exec (express_app "secret" Add (Parsed blank_leaflet_add) ok_env)
    empty_state =
    (Returned {| status := 500;
                 body := BError "Only image files are allowed" |},
     empty_state, [EError "Unhandled error: Only image files are allowed"]).
Proof.
  split_and!; try (vm_compute; reflexivity);
    right; exists " "; split; reflexivity.
Qed.

(** ** Reading (C4) and the first frame of a subscriber (C7) *)

(** C4.  [GET /games] answers 200 with the array reversed, leaves the state
    (and so the array bound to [games], of which only a copy is reversed)
    as it was and traces nothing, so asking again gives the same answer.
    After an add that created [gA] and an add that created [gB], it answers
    [gB], [gA], then the earlier entries newest first. *)
Theorem snapshot_newest_first ADMIN_TOKEN reqA envA reqB envB s gA gB
    s1 s2 tr1 tr2 :
  exec (route ADMIN_TOKEN Add reqA envA) s =
    (Returned {| status := 201; body := BGame gA |}, s1, tr1) ->
  exec (route ADMIN_TOKEN Add reqB envB) s1 =
    (Returned {| status := 201; body := BGame gB |}, s2, tr2) ->
  (forall s0,
     exec get_games s0 =
       (Returned {| status := 200; body := BGames (rev (games s0)) |}, s0, [])
     /\ exec get_games (exec get_games s0).1.2 = exec get_games s0) /\
  exec get_games s2 =
    (Returned {| status := 200; body := BGames (gB :: gA :: rev (games s)) |},
     s2, []).
Proof.
  intros HA HB. split.
  - intros s0. by rewrite !get_games_run.
  - apply add_created in HA, HB. rewrite get_games_run, HB, HA.
    by rewrite <- app_assoc, rev_app_distr.
Qed.

Lemma snapshot_newest_first_witness :
  exists s1 s2 tr1 tr2,
    exec (route "secret" Add pong_request ok_env) empty_state =
      (Returned {| status := 201; body := BGame pong |}, s1, tr1) /\
    exec (route "secret" Add tetris_request later_env) s1 =
      (Returned {| status := 201; body := BGame tetris |}, s2, tr2) /\
    exec get_games s2 =
      (Returned {| status := 200; body := BGames [tetris; pong] |}, s2, []).
Proof.
  eexists _, _, _, _.
  split; [vm_compute; reflexivity |]. split; [vm_compute; reflexivity |].
  eapply proj2, (snapshot_newest_first "secret" pong_request ok_env
                   tetris_request later_env empty_state pong tetris);
    vm_compute; reflexivity.
Defined.

(** C7.  When a socket is accepted, the connection listener sends it one
    frame and no other: its type is [init] and its payload the whole array
    [games] as it is at that moment, in insertion order.  After an add that
    created [gA] and an add that created [gB], that payload is the earlier
    entries followed by [gA] and [gB]; no [add] frame is sent to the new
    socket. *)
Theorem init_on_connection ADMIN_TOKEN reqA envA reqB envB s gA gB
    s1 s2 tr1 tr2 ws env :
  exec (route ADMIN_TOKEN Add reqA envA) s =
    (Returned {| status := 201; body := BGame gA |}, s1, tr1) ->
  exec (route ADMIN_TOKEN Add reqB envB) s1 =
    (Returned {| status := 201; body := BGame gB |}, s2, tr2) ->
  (forall s0,
     exec (connect ws env) s0 =
       (Returned tt, set_clients (clients s0 ++ [ws]) s0,
        [EConnected;
         ESend (cid ws) {| type := "init"; payload := PGames (games s0);
                           ts := ts_now env |}])) /\
  exec (connect ws env) s2 =
    (Returned tt, set_clients (clients s2 ++ [ws]) s2,
     [EConnected;
      ESend (cid ws) {| type := "init";
                        payload := PGames (games s ++ [gA; gB]);
                        ts := ts_now env |}]).
Proof.
  intros HA HB.
  assert (forall s0,
     exec (connect ws env) s0 =
       (Returned tt, set_clients (clients s0 ++ [ws]) s0,
        [EConnected;
         ESend (cid ws) {| type := "init"; payload := PGames (games s0);
                           ts := ts_now env |}])) as Hinit by done.
  split; [done |].
  apply add_created in HA, HB. rewrite Hinit, HB, HA.
  by rewrite <- app_assoc.
Qed.

Lemma init_on_connection_witness :
  exists s1 s2 tr1 tr2,
    exec (route "secret" Add pong_request ok_env) empty_state =
      (Returned {| status := 201; body := BGame pong |}, s1, tr1) /\
    exec (route "secret" Add tetris_request later_env) s1 =
      (Returned {| status := 201; body := BGame tetris |}, s2, tr2) /\
    exec (connect viewer later_env) s2 =
      (Returned tt, set_clients (clients s2 ++ [viewer]) s2,
       [EConnected;
        ESend 7 {| type := "init"; payload := PGames [pong; tetris];
                   ts := ts_now later_env |}]).
Proof.
  eexists _, _, _, _.
  split; [vm_compute; reflexivity |]. split; [vm_compute; reflexivity |].
  eapply proj2, (init_on_connection "secret" pong_request ok_env
                   tetris_request later_env empty_state pong tetris);
    vm_compute; reflexivity.
Defined.

(** ** Edit (C3) *)




(** ** Unknown ids (C6) *)





(** ** Distinct ids (C8) *)

(** C8, as the code has it.  Let the requests be handled in turn, each to
    its answer before the next is begun.  Starting from an array with
    pairwise distinct ids, after any sequence of adds, edits and deletes in
    which every add generated (from the clock and the random draw) an id
    that no entry had at that moment, the ids are pairwise distinct.  Edit
    keeps every id and delete only removes an entry; the code does not
    compare a generated id with the ids present. *)
Theorem ids_stay_distinct ADMIN_TOKEN cs : forall s,
  NoDup (id <$> games s) ->
  fresh_adds ADMIN_TOKEN cs s ->
  NoDup (id <$> games
           (Async.shared (Async.in_turn (arrivals ADMIN_TOKEN cs s)))).
Proof.
  intros s. rewrite in_turn_post_all. revert s.
  induction cs as [|c cs IH]; intros s Hnd Hfresh; [done |].
  destruct Hfresh as [Hc Hrest]. cbn [post_all].
  apply IH; [by apply post_distinct | done].
Qed.

Lemma ids_stay_distinct_witness :
  NoDup (id <$> games
           (Async.shared (Async.in_turn (arrivals "secret" session
                                           empty_state)))).
Proof.
  apply (ids_stay_distinct "secret").
  - apply NoDup_nil_2.
  - unfold session. cbn [fresh_adds call_op call_env]. split_and!; try done.
    + intros _ g Hg. by apply elem_of_nil in Hg.
    + intros _ g Hg. vm_compute in Hg.
      apply list_elem_of_singleton in Hg as ->. vm_compute. discriminate.
Defined.

(** Two adds handled in turn with the same clock reading and the same
    random draw leave two entries with one id.  And with distinct ids and no
    add at all: an edit waits for its PUT, a delete of an earlier entry is
    saved and answered, the saves of the edit then fail, and its handler
    writes the former entry back at the index it found at first, which is
    now the end of the array; the entry is there twice. *)
Lemma duplicate_id_counterexample :
  ~ NoDup (id <$> games
             (Async.shared (Async.in_turn (arrivals "secret" same_draw_adds
                                             empty_state)))) /\
  NoDup (id <$> games (Async.shared edit_and_delete)) /\
  Async.answer 0 (Async.run overlap edit_and_delete) =
    Some (Returned {| status := 500;
                      body := BError "Failed to persist changes" |}) /\
  Async.answer 1 (Async.run overlap edit_and_delete) =
    Some (Returned {| status := 200; body := BDeleted (id pong) |}) /\
  id <$> games (Async.shared (Async.run overlap edit_and_delete))
    = [id tetris; id tetris] /\
  ~ NoDup (id <$> games (Async.shared (Async.run overlap edit_and_delete))).
Proof.
  split_and!.
  - vm_compute. intros Hnd. apply NoDup_cons in Hnd as [Hnotin _].
    apply Hnotin. apply list_elem_of_here.
  - apply (bool_decide_unpack _). vm_compute. reflexivity.
  - vm_compute. reflexivity.
  - vm_compute. reflexivity.
  - vm_compute. reflexivity.
  - vm_compute. intros Hnd. apply NoDup_cons in Hnd as [Hnotin _].
    apply Hnotin. apply list_elem_of_here.
Qed.

(** * Further properties of the server *)

(** ** Requests as mutations *)

Lemma route_mutated ADMIN_TOKEN op req env s m :
  authorization req = bearer ADMIN_TOKEN ->
  mutation_of op req env (games s) = Some m ->
  exec (route ADMIN_TOKEN op req env) s =
  exec (modify (fun s0 => set_games (mut_apply m (games s0)) s0) ;;
        persist (net env) (mut_message m) (mut_type m) (mut_payload m)
          (ts_now env) (mut_ok m) (mut_undo m) (persist_failure op)) s.
Proof.
  intros Hauth. rewrite (exec_route_authorized _ _ _ _ _ Hauth).
  destruct op; cbn [handler mutation_of].
  - rewrite post_add_eq.
    destruct (trimmed (body_title req)) as [t|];
      [destruct (trimmed (body_description req)) as [d|];
       [destruct (trimmed (body_link req)) as [l|] |] |]; try done.
    by intros [= <-].
  - destruct (body_id req) as [i|] eqn:Hid; [| done].
    destruct (truthy_string i) eqn:Hi; [| done].
    destruct (findIndex (has_id i) (games s)) as [idx|] eqn:Hfind; [| done].
    destruct (games s !! idx) as [prev|] eqn:Hprev; [| done].
    intros [= <-]. unfold exec.
    by rewrite (post_edit_found req env i idx prev (start s) Hid Hi Hfind Hprev).
  - destruct (body_id req) as [i|] eqn:Hid; [| done].
    destruct (truthy_string i) eqn:Hi; [| done].
    destruct (findIndex (has_id i) (games s)) as [idx|] eqn:Hfind; [| done].
    destruct (games s !! idx) as [removed|] eqn:Hrem; [| done].
    intros [= <-]. unfold exec.
    by rewrite (post_delete_found req env i idx removed (start s)
                  Hid Hi Hfind Hrem).
Qed.

Lemma route_not_mutated ADMIN_TOKEN op req env s :
  authorization req = bearer ADMIN_TOKEN ->
  mutation_of op req env (games s) = None ->
  exists code msg,
    exec (route ADMIN_TOKEN op req env) s =
      (Returned {| status := code; body := BError msg |}, s, []) /\
    (code = 400 \/ code = 404).
Proof.
  intros Hauth. rewrite (exec_route_authorized _ _ _ _ _ Hauth).
  destruct op; cbn [handler mutation_of].
  - rewrite post_add_eq.
    destruct (trimmed (body_title req)) as [t|];
      [destruct (trimmed (body_description req)) as [d|];
       [destruct (trimmed (body_link req)) as [l|] |] |]; try done;
      intros _; eexists _, _; (split; [reflexivity | by left]).
  - intros Hnone. unfold exec.
    destruct (post_edit_rejected req env (start s)) as (c & m & -> & Hc);
      [| by eexists _, _].
    intros i Hid Hi. cbn [start st].
    rewrite Hid, Hi in Hnone.
    destruct (findIndex (has_id i) (games s)) as [idx|] eqn:Hfind; [| done].
    destruct (findIndex_lookup _ _ _ Hfind) as (g & Hg & _).
    by rewrite Hg in Hnone.
  - intros Hnone. unfold exec.
    destruct (post_delete_rejected req env (start s)) as (c & m & -> & Hc);
      [| by eexists _, _].
    intros i Hid Hi. cbn [start st].
    rewrite Hid, Hi in Hnone.
    destruct (findIndex (has_id i) (games s)) as [idx|] eqn:Hfind; [| done].
    destruct (findIndex_lookup _ _ _ Hfind) as (g & Hg & _).
    by rewrite Hg in Hnone.
Qed.

Lemma mutation_undo op req env l m :
  mutation_of op req env l = Some m -> mut_undo m (mut_apply m l) = l.
Proof.
  destruct op; cbn [mutation_of].
  - destruct (trimmed (body_title req)) as [t|];
      [destruct (trimmed (body_description req)) as [d|];
       [destruct (trimmed (body_link req)) as [k|] |] |]; try done.
    intros [= <-]. apply pop_push.
  - destruct (body_id req) as [i|]; [| done].
    destruct (truthy_string i); [| done].
    destruct (findIndex (has_id i) l) as [idx|]; [| done].
    destruct (l !! idx) as [prev|] eqn:Hprev; [| done].
    intros [= <-]. by apply assign_assign.
  - destruct (body_id req) as [i|]; [| done].
    destruct (truthy_string i); [| done].
    destruct (findIndex (has_id i) l) as [idx|]; [| done].
    destruct (l !! idx) as [removed|] eqn:Hrem; [| done].
    intros [= <-]. by apply splice_in_out.
Qed.

Lemma mutation_type op req env l m :
  mutation_of op req env l = Some m -> mut_type m = op_name op.
Proof. intros Hm. by destruct op; mutation_inv Hm. Qed.

(** How a request to a mutating route runs: it is answered at once, or it
    mutates, saves, and keeps or undoes the mutation. *)
Lemma route_run ADMIN_TOKEN op req env s o s' tr :
  exec (route ADMIN_TOKEN op req env) s = (o, s', tr) ->
  (s' = s /\ tr = [] /\
   exists code msg,
     o = Returned {| status := code; body := BError msg |} /\
     ((authorization req <> bearer ADMIN_TOKEN /\ code = 401) \/
      (authorization req = bearer ADMIN_TOKEN /\
       mutation_of op req env (games s) = None /\
       (code = 400 \/ code = 404))))
  \/
  (exists m o1 tr1,
     authorization req = bearer ADMIN_TOKEN /\
     mutation_of op req env (games s) = Some m /\
     loop_events (mut_message m) (mut_apply m (games s)) 1 o1 tr1 /\
     clients s' = clients s /\
     match o1 with
     | Returned _ =>
         o = Returned (mut_ok m) /\
         games s' = mut_apply m (games s) /\
         tr = tr1 ++ frames {| type := mut_type m; payload := mut_payload m;
                               ts := ts_now env |} (clients s)
     | Threw e =>
         o = Returned {| status := 500; body := BError (persist_failure op) |}
         /\ games s' = games s /\
         tr = tr1 ++ [EError e] /\
         fileSHA s' = refetched (net env) 0 (get_count tr1) (fileSHA s)
     end).
Proof.
  destruct (requireAuth_cases ADMIN_TOKEN req (handler op req env))
    as [[Hauth _]|[Hauth Hreq]].
  2: { unfold route. rewrite Hreq. intros [= <- <- <-]. left.
       split_and!; try done. eexists _, _. split; [done |]. by left. }
  destruct (mutation_of op req env (games s)) as [m|] eqn:Hm.
  - rewrite (route_mutated _ _ _ _ _ _ Hauth Hm). intros Hrun.
    apply exec_persist_cases in Hrun as (Hcl & o1 & tr1 & Hev & Hcase).
    right. exists m, o1, tr1. split_and!; try done.
    destruct o1 as [[]|e]; [done |].
    destruct Hcase as (Ho & Hg & Ht & Hsha).
    by rewrite (mutation_undo _ _ _ _ _ Hm) in Hg.
  - destruct (route_not_mutated _ _ _ _ _ Hauth Hm) as (c & msg & -> & Hc).
    intros [= <- <- <-]. left. split_and!; try done.
    eexists _, _. split; [done |]. right. done.
Qed.

(** In the trace of a request that reached the save, the commit line is
    there exactly when the save returned. *)
Lemma committed_iff (message : string) (content : list Game) o1 tr1 extra :
  loop_events message content 1 o1 tr1 ->
  (forall ev, ev ∈ extra -> forall x, ev <> ECommitted x) ->
  committed (tr1 ++ extra) <-> o1 = Returned tt.
Proof.
  intros Hev Hextra. split.
  - intros [m Hin]. by eapply committed_in_route_trace.
  - intros ->. exists message. apply elem_of_app. left.
    pose proof (loop_events_last _ _ _ _ _ Hev) as Hlast. cbn in Hlast.
    destruct tr1 as [|x tr1] using rev_ind; [done |].
    rewrite last_snoc in Hlast. injection Hlast as ->.
    apply elem_of_app. right. by apply list_elem_of_singleton.
Qed.

Lemma frames_not_committed msg cs ev :
  ev ∈ frames msg cs -> forall x, ev <> ECommitted x.
Proof. intros Hin x ->. by apply frames_only_sends in Hin as [c ?]. Qed.

Lemma error_not_committed e ev :
  ev ∈ [EError e] -> forall x, ev <> ECommitted x.
Proof. intros Hin x ->. by apply list_elem_of_singleton in Hin. Qed.

(** ** Broadcast *)

Lemma frames_filter msg cs :
  frames msg cs =
  (fun c => ESend (cid c) msg) <$> filter (fun c => readyState c = 1) cs.
Proof.
  induction cs as [|c cs IH]; [done |]. cbn [frames].
  rewrite filter_cons, IH.
  destruct (Nat.eqb_spec (readyState c) 1) as [Hc|Hc]; case_decide;
    try done; by rewrite fmap_cons.
Qed.

Lemma frames_elem msg cs c m :
  ESend c m ∈ frames msg cs <->
  m = msg /\ exists cl, cl ∈ cs /\ cid cl = c /\ ready cl.
Proof.
  rewrite frames_filter, list_elem_of_fmap. split.
  - intros (cl & [= -> ->] & Hin). apply list_elem_of_filter in Hin as [Hr Hin].
    split; [done |]. by exists cl.
  - intros (-> & cl & Hin & <- & Hr). exists cl. split; [done |].
    by apply list_elem_of_filter.
Qed.

(** X1.  [broadcast] sends one frame [{ type, payload, ts }] to each client
    of [wss.clients] whose [readyState] is 1, in the order of the set, and
    nothing to the others; it does nothing else and changes no state. *)
Theorem broadcast_reaches_ready ty p now s :
  exec (broadcast ty p now) s =
  (Returned tt, s,
   (fun c => ESend (cid c) {| type := ty; payload := p; ts := now |})
     <$> filter (fun c => readyState c = 1) (clients s)).
Proof.
  unfold exec, broadcast, bind, get_state. cbn [start st].
  destruct (send_all_run {| type := ty; payload := p; ts := now |}
              (clients s) (start s)) as (Ho & Hs & Ht).
  destruct (send_all _ _ (start s)) as [o r]. cbn [fst snd start st trace] in *.
  by rewrite Ho, Hs, Ht, frames_filter.
Qed.

Lemma mutation_announced op req env l m :
  mutation_of op req env l = Some m ->
  match body (mut_ok m), mut_payload m with
  | BGame g, PGame g' => g = g' /\ op <> Delete
  | BDeleted i, PId i' => i = i' /\ op = Delete
  | _, _ => False
  end /\
  status (mut_ok m) = (match op with Add => 201 | _ => 200 end).
Proof. intros Hm. destruct op; mutation_inv Hm; by cbn. Qed.




(** ** Answers *)

Lemma route_committed ADMIN_TOKEN op req env s o s' tr :
  exec (route ADMIN_TOKEN op req env) s = (o, s', tr) ->
  (committed tr /\
   exists m,
     authorization req = bearer ADMIN_TOKEN /\
     mutation_of op req env (games s) = Some m /\
     o = Returned (mut_ok m) /\ games s' = mut_apply m (games s)) \/
  (~ committed tr /\ games s' = games s /\
   exists code msg,
     o = Returned {| status := code; body := BError msg |} /\
     (code = 400 \/ code = 401 \/ code = 404 \/ code = 500) /\
     (code = 401 <-> authorization req <> bearer ADMIN_TOKEN) /\
     (code <> 500 -> s' = s /\ tr = [])).
Proof.
  intros Hrun.
  apply route_run in Hrun
    as [(-> & -> & c & msg & -> & Hc)|(m & o1 & tr1 & Hauth & Hm & Hev & _
                                       & Hcase)].
  - right. split; [by intros [x ?%elem_of_nil] |]. split; [done |].
    exists c, msg. split; [done |].
    destruct Hc as [[Hno ->]|(Hauth & _ & [-> | ->])];
      split_and!; try split; intros; first [lia | tauto | done].
  - destruct o1 as [[]|e].
    + destruct Hcase as (-> & Hg & ->). left. split; [| by exists m].
      by apply (committed_iff _ _ _ _ _ Hev (frames_not_committed _ _)).
    + destruct Hcase as (-> & Hg & -> & _). right. split.
      { intros Hc.
        by apply (committed_iff _ _ _ _ _ Hev (error_not_committed e)) in Hc. }
      split; [done |]. eexists _, _. split; [done |].
      split_and!; try split; intros; first [lia | tauto | done].
Qed.

(** The answers of [requireAuth] and the handler. *)
Lemma route_answers ADMIN_TOKEN op req env s o s' tr :
  exec (route ADMIN_TOKEN op req env) s = (o, s', tr) ->
  exists resp,
    o = Returned resp /\
    (status resp = 200 \/ status resp = 201 \/ status resp = 400 \/
     status resp = 401 \/ status resp = 404 \/ status resp = 500) /\
    (status resp = 401 <-> authorization req <> Some ("Bearer " +:+ ADMIN_TOKEN))
    /\
    (committed tr <-> status resp = 200 \/ status resp = 201) /\
    (status resp = 201 -> op = Add) /\
    (status resp = 200 -> op <> Add) /\
    (status resp = 400 \/ status resp = 401 \/ status resp = 404 ->
     s' = s /\ tr = []).
Proof.
  intros Hrun.
  apply route_committed in Hrun
    as [(Hc & m & Hauth & Hm & -> & _)
       |(Hc & _ & c & msg & -> & Hcode & H401 & Hsame)].
  - destruct (mutation_announced _ _ _ _ _ Hm) as [_ Hst].
    exists (mut_ok m). rewrite Hst. fold (bearer ADMIN_TOKEN).
    destruct op; split_and!; try split; intros;
      first [lia | tauto | done].
  - exists {| status := c; body := BError msg |}. cbn [status].
    fold (bearer ADMIN_TOKEN).
    destruct Hcode as [-> | [-> | [-> | ->]]]; split_and!; try split; intros;
      first [lia | tauto | done | apply Hsame; lia].
Qed.

(** X3.  Every request to [/add], [/edit] or [/delete] is answered, with
    one of the statuses 200, 201, 400, 401, 404 and 500.  When
    [express.json] let its body through, the status is 401 exactly when the
    [authorization] header is not ["Bearer "] followed by the admin token;
    when [express.json] refused the body, it is 500.  The status is 201 only on [/add] and 200 only on
    [/edit] and [/delete], and it is one of the two exactly when the save
    committed; with 400, 401 or 404 the state is untouched and nothing is
    traced. *)
Theorem every_request_answered ADMIN_TOKEN op inc env s o s' tr :
  exec (express_app ADMIN_TOKEN op inc env) s = (o, s', tr) ->
  exists resp,
    o = Returned resp /\
    (status resp = 200 \/ status resp = 201 \/ status resp = 400 \/
     status resp = 401 \/ status resp = 404 \/ status resp = 500) /\
    (forall req,
       carried inc = Some req ->
       (status resp = 401 <->
        authorization req <> Some ("Bearer " +:+ ADMIN_TOKEN))) /\
    (forall a m, inc = Unparsable a m -> status resp = 500 /\ s' = s) /\
    (committed tr <-> status resp = 200 \/ status resp = 201) /\
    (status resp = 201 -> op = Add) /\
    (status resp = 200 -> op <> Add) /\
    (status resp = 400 \/ status resp = 401 \/ status resp = 404 ->
     s' = s /\ tr = []).
Proof.
  intros Hrun.
  destruct (express_app_cases ADMIN_TOKEN op inc env s)
    as [(req & Hreq & Heq)|(m & Hauth & Heq)].
  - rewrite Heq in Hrun.
    destruct (route_answers _ _ _ _ _ _ _ _ Hrun)
      as (resp & -> & Hst & H401 & Hc & H201 & H200 & Hsame).
    exists resp. split_and!; try done.
    + intros ? Hreq'. rewrite Hreq' in Hreq. by injection Hreq as ->.
    + intros a m ->. done.
  - rewrite Heq in Hrun.
    injection Hrun as <- <- <-. eexists. split; [done |]. cbn [status].
    split_and!; try split; intros; first [lia | tauto | done | idtac].
    + specialize (Hauth _ ltac:(done)). by fold (bearer ADMIN_TOKEN).
    + match goal with H : committed _ |- _ => destruct H as [x Hin] end.
      by apply list_elem_of_singleton in Hin.
Qed.

Lemma every_request_answered_witness :
  exists o s' tr,
    exec (express_app "secret" Add (Parsed pong_request) ok_env) empty_state
      = (o, s', tr) /\
    exists resp, o = Returned resp /\ status resp = 201 /\ committed tr.
Proof.
  destruct (exec (express_app "secret" Add (Parsed pong_request) ok_env)
              empty_state) as [[o s'] tr] eqn:Hrun.
  exists o, s', tr. split; [reflexivity |].
  destruct (every_request_answered "secret" Add (Parsed pong_request) ok_env
              empty_state o s' tr Hrun)
    as (resp & Ho & _ & _ & _ & Hc & _ & H200 & _).
  exists resp. split; [exact Ho |].
  assert (committed tr) as Hcommitted.
  { vm_compute in Hrun. injection Hrun as <- <- <-.
    eexists. apply (list_elem_of_lookup_2 _ 1). reflexivity. }
  split; [| exact Hcommitted].
  destruct (proj1 Hc Hcommitted) as [H|H]; [| exact H].
  by destruct (H200 H).
Defined.

(** ** No commit, no change *)

Lemma mutation_length op req env l m :
  mutation_of op req env l = Some m ->
  match op with
  | Add => length (mut_apply m l) = S (length l)
  | Edit => length (mut_apply m l) = length l
  | Delete => S (length (mut_apply m l)) = length l
  end.
Proof.
  intros Hm. destruct op; mutation_inv Hm; cbn [mut_apply].
  - unfold push. rewrite length_app. simpl. lia.
  - unfold assign. by rewrite length_insert.
  - unfold splice_out. rewrite <- delete_take_drop, length_delete; [| done].
    match goal with H : l !! _ = Some _ |- _ => apply lookup_lt_Some in H end.
    lia.
Qed.

(** What [requireAuth] and the handler, run in one piece, change. *)
Lemma route_changes ADMIN_TOKEN op req env s o s' tr :
  exec (route ADMIN_TOKEN op req env) s = (o, s', tr) ->
  clients s' = clients s /\
  (~ committed tr -> games s' = games s) /\
  (committed tr ->
   match op with
   | Add => length (games s') = S (length (games s))
   | Edit => length (games s') = length (games s)
   | Delete => S (length (games s')) = length (games s)
   end) /\
  exec get_health s' =
    (Returned {| status := 200; body := BHealth (length (games s')) |}, s', []).
Proof.
  intros Hrun. split_and!.
  - apply route_run in Hrun
      as [(-> & _)|(m & o1 & tr1 & _ & _ & _ & Hcl & _)]; done.
  - intros Hno.
    apply route_committed in Hrun as [(Hc & _)|(_ & Hg & _)]; done.
  - intros Hc.
    apply route_committed in Hrun as [(_ & m & _ & Hm & _ & ->)|(Hno & _)];
      [| done].
    exact (mutation_length _ _ _ _ _ Hm).
  - done.
Qed.

(** X4.  Take a request to [/add], [/edit] or [/delete] that has arrived,
    handled to its answer with no other request resumed meanwhile.  It
    changes [games] only when its save committed: without the commit line,
    [games] after the answer is [games] at the arrival, whatever the answer.
    With it, the array has one entry more after an add, as many after an
    edit, one less after a delete, and [GET /health] reports that count.
    [wss.clients] is not changed. *)
Theorem no_commit_no_change ADMIN_TOKEN op inc env sv i :
  Async.pending sv !! i = Some (Async.arrive ADMIN_TOKEN op inc env) ->
  clients (Async.shared (Async.settle i sv)) = clients (Async.shared sv) /\
  (~ committed (done_by i (Async.settle i sv)) ->
   games (Async.shared (Async.settle i sv)) = games (Async.shared sv)) /\
  (committed (done_by i (Async.settle i sv)) ->
   match op with
   | Add => length (games (Async.shared (Async.settle i sv)))
            = S (length (games (Async.shared sv)))
   | Edit => length (games (Async.shared (Async.settle i sv)))
             = length (games (Async.shared sv))
   | Delete => S (length (games (Async.shared (Async.settle i sv))))
               = length (games (Async.shared sv))
   end) /\
  exec get_health (Async.shared (Async.settle i sv)) =
    (Returned {| status := 200;
                 body := BHealth (length (games (Async.shared
                                                   (Async.settle i sv)))) |},
     Async.shared (Async.settle i sv), []).
Proof.
  intros Hp.
  destruct (settle_exec _ _ _ _ _ _ Hp) as (o & s' & tr & Hrun & -> & _ & ->).
  destruct (express_app_cases ADMIN_TOKEN op inc env (Async.shared sv))
    as [(req & _ & Heq)|(m & _ & Heq)]; rewrite Heq in Hrun.
  - by apply (route_changes _ _ _ _ _ _ _ _ Hrun).
  - injection Hrun as <- <- <-. split_and!; try done.
    intros [x Hin]. by apply list_elem_of_singleton in Hin.
Qed.

Lemma no_commit_no_change_witness :
  committed (done_by 0 (Async.settle 0 one_delete)) /\
  clients (Async.shared (Async.settle 0 one_delete))
    = clients (Async.shared one_delete) /\
  S (length (games (Async.shared (Async.settle 0 one_delete))))
    = length (games (Async.shared one_delete)).
Proof.
  destruct (no_commit_no_change "secret" Delete (Parsed remove_request) ok_env
              one_delete 0 eq_refl) as (Hcl & _ & Hlen & _).
  assert (committed (done_by 0 (Async.settle 0 one_delete))) as Hc.
  { eexists. apply (list_elem_of_lookup_2 _ 1). vm_compute. reflexivity. }
  split_and!; [exact Hc | exact Hcl | exact (Hlen Hc)].
Defined.

(** ** Delete *)

(** The entry a delete, run in one piece, removes. *)
Lemma route_delete_first ADMIN_TOKEN req env s o s' tr :
  exec (route ADMIN_TOKEN Delete req env) s = (o, s', tr) ->
  committed tr ->
  exists i idx removed,
    body_id req = Some i /\
    games s !! idx = Some removed /\ id removed = i /\
    (forall j g, j < idx -> games s !! j = Some g -> id g <> i) /\
    games s' = take idx (games s) ++ drop (S idx) (games s) /\
    o = Returned {| status := 200; body := BDeleted i |}.
Proof.
  intros Hrun Hc.
  apply route_committed in Hrun as [(_ & m & _ & Hm & -> & ->)|(Hno & _)];
    [| done].
  cbn [mutation_of] in Hm.
  destruct (body_id req) as [i|]; [| done].
  destruct (truthy_string i); [| done].
  destruct (findIndex (has_id i) (games s)) as [idx|] eqn:Hfind; [| done].
  destruct (games s !! idx) as [removed|] eqn:Hrem; [| done].
  injection Hm as <-. cbn [mut_apply mut_ok].
  destruct (findIndex_lookup _ _ _ Hfind) as (g & Hg & Hp).
  rewrite Hrem in Hg. injection Hg as <-. apply has_id_true in Hp.
  exists i, idx, removed. split_and!; try done; [| by rewrite Hp].
  intros j g Hj Hg Hi.
  assert (has_id i g = false) as Hfalse.
  { apply (findIndex_first _ _ _ Hfind). apply list_elem_of_lookup.
    exists j. by rewrite lookup_take_lt. }
  apply has_id_true in Hi. congruence.
Qed.

(** X5.  Take a request to [/delete] that has arrived, handled to its
    answer with no other request resumed meanwhile.  When its save
    committed, it removed exactly one entry: the first one of the array
    whose id is the id of the request.  The entries before and after it
    keep their order, and the answer is 200 with [{ ok: true, id }] for
    that id. *)
Theorem delete_removes_first_match ADMIN_TOKEN req env sv i :
  Async.pending sv !! i
    = Some (Async.arrive ADMIN_TOKEN Delete (Parsed req) env) ->
  committed (done_by i (Async.settle i sv)) ->
  exists wanted idx removed,
    body_id req = Some wanted /\
    games (Async.shared sv) !! idx = Some removed /\ id removed = wanted /\
    (forall j g,
       j < idx -> games (Async.shared sv) !! j = Some g -> id g <> wanted) /\
    games (Async.shared (Async.settle i sv)) =
      take idx (games (Async.shared sv))
      ++ drop (S idx) (games (Async.shared sv)) /\
    Async.answer i (Async.settle i sv) =
      Some (Returned {| status := 200; body := BDeleted wanted |}).
Proof.
  intros Hp.
  destruct (settle_exec _ _ _ _ _ _ Hp) as (o & s' & tr & Hrun & -> & -> & ->).
  rewrite express_app_route in Hrun by done. intros Hc.
  destruct (route_delete_first _ _ _ _ _ _ _ Hrun Hc)
    as (wanted & idx & removed & ? & ? & ? & ? & ? & ->).
  by exists wanted, idx, removed.
Qed.

Lemma delete_removes_first_match_witness :
  exists wanted idx removed,
    body_id remove_request = Some wanted /\
    games (Async.shared one_delete) !! idx = Some removed /\
    id removed = wanted /\
    (forall j g,
       j < idx -> games (Async.shared one_delete) !! j = Some g ->
       id g <> wanted) /\
    games (Async.shared (Async.settle 0 one_delete)) =
      take idx (games (Async.shared one_delete))
      ++ drop (S idx) (games (Async.shared one_delete)) /\
    Async.answer 0 (Async.settle 0 one_delete) =
      Some (Returned {| status := 200; body := BDeleted wanted |}).
Proof.
  apply (delete_removes_first_match "secret" remove_request ok_env one_delete 0
           eq_refl).
  eexists. apply (list_elem_of_lookup_2 _ 1). vm_compute. reflexivity.
Defined.

(** ** More on the save *)

Lemma save_attempt_puts nw message k r :
  exists n,
    puts (save_attempt nw message k r).2 = puts r + n /\
    put_count (trace (save_attempt nw message k r).2) =
      put_count (trace r) + n /\
    match (save_attempt nw message k r).1 with
    | Returned _ =>
        n = 1 /\
        on_put nw (puts r) = FetchOk (fileSHA (st (save_attempt nw message k r).2))
    | Threw _ => n = 0 \/ (n = 1 /\ is_ok (on_put nw (puts r)) = false)
    end.
Proof.
  unfold save_attempt. unfold_m. cbn [st gets puts trace].
  destruct ((1 <? k)%nat || negb (truthy (fileSHA (st r))));
    cbn [st gets puts trace fst snd];
    try (destruct (on_get nw (gets r)); cbn [st gets puts trace fst snd]);
    try (destruct (on_put nw (puts r)) eqn:Hput;
         cbn [st gets puts trace fst snd set_fileSHA fileSHA]);
    rewrite ?put_count_app; cbn [put_count];
    first [ exists 0; split_and!; (lia || by left)
          | exists 1; split_and!; (lia || by auto) ].
Qed.

(** The PUTs of a save are answered by the store one after the other; all
    but the last were refused, and the last was accepted exactly when the
    save returns, leaving its [sha] in [fileSHA]. *)
Lemma save_loop_puts nw message left : forall k r,
  k + left = MAX_RETRIES ->
  exists n,
    put_count (trace (save_loop nw message (S left) k r).2) =
      put_count (trace r) + n /\
    match (save_loop nw message (S left) k r).1 with
    | Returned _ =>
        exists n', n = S n' /\
          on_put nw (puts r + n') =
            FetchOk (fileSHA (st (save_loop nw message (S left) k r).2)) /\
          forall j, j < n' -> is_ok (on_put nw (puts r + j)) = false
    | Threw _ => forall j, j < n -> is_ok (on_put nw (puts r + j)) = false
    end.
Proof.
  induction left as [|left IH]; intros k r Hsum; rewrite save_loop_step;
    destruct (save_attempt_puts nw message k r) as (n & Hputs & Hcount & Hcase);
    destruct (save_attempt nw message k r) as [[[]|e] r1];
    cbn [fst snd] in Hputs, Hcount, Hcase.
  - destruct Hcase as [-> Hok]. exists 1. cbn [fst snd]. split; [done |].
    exists 0. rewrite Nat.add_0_r. split_and!; [done | done | lia].
  - replace (k =? MAX_RETRIES)%nat with true
      by (symmetry; apply Nat.eqb_eq; lia).
    exists n. cbn [fst snd logged trace]. rewrite put_count_app. cbn.
    split; [lia |]. intros j Hj. destruct Hcase as [->|[-> Hno]]; [lia |].
    by replace j with 0 by lia; rewrite Nat.add_0_r.
  - destruct Hcase as [-> Hok]. exists 1. cbn [fst snd]. split; [done |].
    exists 0. rewrite Nat.add_0_r. split_and!; [done | done | lia].
  - destruct (Nat.eqb_spec k MAX_RETRIES) as [->|Hk]; [lia |].
    destruct (IH (S k) (logged r1 [ESaveFailed k MAX_RETRIES e;
                                   ESleep (500 * k)]))
      as (n2 & Hcount2 & Hcase2); [lia |].
    cbn [logged trace puts] in Hcount2, Hcase2.
    rewrite put_count_app in Hcount2. cbn [put_count] in Hcount2.
    exists (n + n2). split; [lia |].
    assert (forall j, j < n -> is_ok (on_put nw (puts r + j)) = false) as Hfirst.
    { intros j Hj. destruct Hcase as [->|[-> Hno]]; [lia |].
      by replace j with 0 by lia; rewrite Nat.add_0_r. }
    destruct (save_loop nw message (S left) (S k) _) as [[[]|e2] r2];
      cbn [fst snd] in *.
    + destruct Hcase2 as (n' & -> & Hok & Hno).
      exists (n + n'). split; [lia |]. rewrite Hputs in Hok, Hno.
      split; [by rewrite Nat.add_assoc |].
      intros j Hj. destruct (Nat.lt_ge_cases j n) as [Hlt|Hge]; [by apply Hfirst |].
      replace (puts r + j) with (puts r + n + (j - n)) by lia.
      apply Hno. lia.
    + intros j Hj. destruct (Nat.lt_ge_cases j n) as [Hlt|Hge]; [by apply Hfirst |].
      replace (puts r + j) with (puts r1 + (j - n)) by lia.
      apply Hcase2. lia.
Qed.

(** X6.  A save changes neither [games] nor [wss.clients].  Its PUTs are
    the first PUTs the store sees; every PUT but the last was refused.  When
    the save returns, its last PUT was accepted and [fileSHA] is the [sha]
    of that response; when it throws, its last PUT, if any, was refused
    too. *)
Theorem save_keeps_last_tag nw message s o s' tr :
  exec (saveToGitHub nw message) s = (o, s', tr) ->
  games s' = games s /\ clients s' = clients s /\
  (forall m c sha, EPut m c sha ∈ tr -> m = message /\ c = games s) /\
  match o with
  | Returned _ =>
      exists n,
        put_count tr = S n /\
        on_put nw n = FetchOk (fileSHA s') /\
        forall j, j < n -> is_ok (on_put nw j) = false
  | Threw _ =>
      forall j, j < put_count tr -> is_ok (on_put nw j) = false
  end.
Proof.
  unfold exec. intros Hrun.
  destruct (save_run nw message (start s)) as (tr1 & Htr & Hev & Hg & Hc & _).
  destruct (save_loop_puts nw message 2 1 (start s) eq_refl)
    as (n & Hcount & Hcase).
  change (save_loop nw message 3 1 (start s))
    with (saveToGitHub nw message (start s)) in Hcount, Hcase.
  destruct (saveToGitHub nw message (start s)) as [o1 r1].
  cbn [fst snd start trace st puts put_count Nat.add] in *.
  injection Hrun as <- <- <-. rewrite Htr in *.
  split_and!; [done | done | by apply (loop_events_content _ _ _ _ _ Hev) |].
  destruct o1 as [[]|e].
  - destruct Hcase as (n' & -> & Hok & Hno). by exists n'.
  - by rewrite Hcount.
Qed.

Lemma save_keeps_last_tag_witness :
  exists o s' tr,
    exec (saveToGitHub flaky_store "chore: add Pong") empty_state
      = (o, s', tr) /\
    games s' = games empty_state /\ clients s' = clients empty_state /\
    (forall m c sha,
       EPut m c sha ∈ tr -> m = "chore: add Pong" /\ c = games empty_state) /\
    match o with
    | Returned _ =>
        exists n,
          put_count tr = S n /\
          on_put flaky_store n = FetchOk (fileSHA s') /\
          forall j, j < n -> is_ok (on_put flaky_store j) = false
    | Threw _ =>
        forall j, j < put_count tr -> is_ok (on_put flaky_store j) = false
    end.
Proof.
  destruct (exec (saveToGitHub flaky_store "chore: add Pong") empty_state)
    as [[o s'] tr] eqn:Hrun.
  exists o, s', tr. split; [reflexivity |].
  exact (save_keeps_last_tag flaky_store "chore: add Pong" empty_state
           o s' tr Hrun).
Defined.

Lemma save_loop_extends nw message left : forall k r,
  exists tr, trace (save_loop nw message left k r).2 = trace r ++ tr.
Proof.
  destruct left as [|left]; intros k r.
  - exists []. by rewrite app_nil_r.
  - destruct (save_loop_events nw message (games (st r)) left k r eq_refl)
      as (tr & Htr & _).
    by exists tr.
Qed.

(** The trace of a save begins with the trace of its first attempt, and is
    no more than that when the first attempt commits. *)
Lemma save_begins nw message s :
  exists rest,
    (exec (saveToGitHub nw message) s).2 =
      trace (save_attempt nw message 1 (start s)).2 ++ rest /\
    ((save_attempt nw message 1 (start s)).1 = Returned tt ->
     exec (saveToGitHub nw message) s =
       (Returned tt, st (save_attempt nw message 1 (start s)).2,
        trace (save_attempt nw message 1 (start s)).2)).
Proof.
  unfold exec, saveToGitHub. cbv [MAX_RETRIES]. rewrite save_loop_step.
  destruct (save_attempt nw message 1 (start s)) as [[[]|e] r1]; cbn [fst snd].
  - exists []. by rewrite app_nil_r.
  - unfold MAX_RETRIES. cbn [Nat.eqb].
    destruct (save_loop_extends nw message 2 2
                (logged r1 [ESaveFailed 1 3 e; ESleep (500 * 1)]))
      as (tr & Htr).
    destruct (save_loop nw message 2 2 _) as [o2 r2]. cbn [snd logged trace] in *.
    exists ([ESaveFailed 1 3 e; ESleep (500 * 1)] ++ tr).
    split; [by rewrite Htr, app_assoc | done].
Qed.

(** A save that starts with a version tag and whose first PUT is accepted
    is that PUT and the commit line. *)
Lemma save_accepted_first nw message s sha :
  truthy (fileSHA s) = true ->
  on_put nw 0 = FetchOk sha ->
  exec (saveToGitHub nw message) s =
    (Returned tt, set_fileSHA sha s,
     [EPut message (games s) (fileSHA s); ECommitted message]).
Proof.
  intros Hsha Hput. destruct (save_begins nw message s) as (_ & _ & Hdone).
  unfold save_attempt, start in Hdone. unfold_m.
  cbn [st gets puts trace Nat.ltb Nat.leb orb] in Hdone.
  rewrite Hsha in Hdone. cbn [negb st gets puts trace fst snd app] in Hdone.
  rewrite Hput in Hdone.
  cbn [st gets puts trace fst snd app set_fileSHA] in Hdone.
  rewrite (Hdone eq_refl), Hsha. by destruct s.
Qed.

(** X7.  How a save starts.  With a version tag in [fileSHA], the first
    request is the PUT, carrying that tag, and if the store accepts it the
    save is that one request and the commit line.  Without one, the first
    request is a GET; the PUT that follows carries the tag that the GET
    returned, and carries none when the GET was not ok (no such file yet)
    or returned no tag. *)
Theorem save_first_requests nw message s o s' tr :
  exec (saveToGitHub nw message) s = (o, s', tr) ->
  (truthy (fileSHA s) = true ->
   head tr = Some (EPut message (games s) (fileSHA s)) /\
   forall sha,
     on_put nw 0 = FetchOk sha ->
     o = Returned tt /\ s' = set_fileSHA sha s /\
     tr = [EPut message (games s) (fileSHA s); ECommitted message]) /\
  (truthy (fileSHA s) = false ->
   head tr = Some EGet /\
   (forall m, on_get nw 0 = FetchNotOk m ->
              tr !! 1 = Some (EPut message (games s) None)) /\
   (forall x, on_get nw 0 = FetchOk x ->
              tr !! 1 = Some (EPut message (games s)
                                (if truthy x then x else None)))).
Proof.
  intros Hrun. destruct (save_begins nw message s) as (rest & Htr & Hdone).
  rewrite Hrun in Htr, Hdone. cbn [snd] in Htr.
  unfold save_attempt, start in Htr, Hdone. unfold_m.
  cbn [st gets puts trace Nat.ltb Nat.leb orb] in Htr, Hdone.
  split; intros Hsha; rewrite Hsha in Htr, Hdone;
    cbn [negb st gets puts trace fst snd app] in Htr, Hdone.
  - split.
    + destruct (on_put nw 0); cbn [st gets puts trace fst snd app] in Htr;
        by rewrite Htr, ?Hsha.
    + intros sha Hput. rewrite Hput in Hdone.
      cbn [st gets puts trace fst snd app set_fileSHA] in Hdone.
      specialize (Hdone eq_refl). injection Hdone as -> -> ->.
      rewrite Hsha. by destruct s.
  - split_and!.
    + destruct (on_get nw 0); cbn [st gets puts trace fst snd app] in Htr;
        try (destruct (on_put nw 0);
             cbn [st gets puts trace fst snd app] in Htr); by rewrite Htr.
    + intros m Hget. rewrite Hget in Htr.
      cbn [st gets puts trace fst snd app] in Htr.
      destruct (on_put nw 0); cbn [st gets puts trace fst snd app] in Htr;
        by rewrite Htr, ?Hsha.
    + intros x Hget. rewrite Hget in Htr.
      cbn [st gets puts trace fst snd app set_fileSHA fileSHA games] in Htr.
      destruct (on_put nw 0);
        cbn [st gets puts trace fst snd app set_fileSHA fileSHA games] in Htr;
        by rewrite Htr.
Qed.

Lemma save_first_requests_witness :
  exists o s' tr,
    exec (saveToGitHub ok_store "chore: add Pong") empty_state
      = (o, s', tr) /\
    o = Returned tt /\ s' = set_fileSHA (Some "v2") empty_state /\
    tr = [EPut "chore: add Pong" (games empty_state) (fileSHA empty_state);
          ECommitted "chore: add Pong"].
Proof.
  destruct (exec (saveToGitHub ok_store "chore: add Pong") empty_state)
    as [[o s'] tr] eqn:Hrun.
  exists o, s', tr. split; [reflexivity |].
  destruct (save_first_requests ok_store "chore: add Pong" empty_state
              o s' tr Hrun) as [Hknown _].
  destruct (Hknown eq_refl) as [_ Hone].
  exact (Hone (Some "v2") eq_refl).
Defined.

(** ** Boot *)

(** X8.  For a fetch that throws, a 404, and a body whose content either
    fails to be decoded or parsed or holds an array of entries:
    [loadFromGitHub] prints one line and never touches [wss.clients].  It
    replaces [games] only by an array that was fetched, decoded and parsed;
    but it overwrites [fileSHA] as soon as a body was read, so a document
    whose content cannot be decoded or parsed leaves [games] as it was
    together with the tag of that document.  A 404 and a failed fetch leave
    the state as it was. *)
Theorem load_replaces_games_last res s :
  clients (loadFromGitHub res s).1 = clients s /\
  length (loadFromGitHub res s).2 = 1 /\
  (games (loadFromGitHub res s).1 <> games s ->
   exists sha l, res = LoadDocument sha (inr l)) /\
  (fileSHA (loadFromGitHub res s).1 <> fileSHA s ->
   exists sha content, res = LoadDocument sha content) /\
  (forall sha l,
     res = LoadDocument sha (inr l) ->
     loadFromGitHub res s =
       ({| games := l; fileSHA := sha; clients := clients s |},
        [LoadedLine (length l)])) /\
  (forall sha m,
     res = LoadDocument sha (inl m) ->
     loadFromGitHub res s =
       ({| games := games s; fileSHA := sha; clients := clients s |},
        [LoadFailedLine m])).
Proof.
  destruct res as [m| |sha [m|l]]; cbn; split_and!; try done;
    try (by intros ? ? [= <- <-]); try (by intros ?); eauto.
Qed.

Lemma load_replaces_games_last_witness :
  loadFromGitHub broken_document library_state =
    ({| games := games library_state; fileSHA := Some "v9";
        clients := clients library_state |},
     [LoadFailedLine "Unexpected token"]).
Proof.
  destruct (load_replaces_games_last broken_document library_state)
    as (_ & _ & _ & _ & _ & Hbroken).
  exact (Hbroken (Some "v9") "Unexpected token" eq_refl).
Defined.

Lemma exec_persist_save f nw message ty p now ok undo failed s :
  exec (modify (fun s0 => set_games (f (games s0)) s0) ;;
        persist nw message ty p now ok undo failed) s =
  match exec (saveToGitHub nw message) (set_games (f (games s)) s) with
  | (Returned _, s1, tr1) =>
      (Returned ok, s1,
       tr1 ++ frames {| type := ty; payload := p; ts := now |} (clients s1))
  | (Threw e, s1, tr1) =>
      (Returned {| status := 500; body := BError failed |},
       set_games (undo (games s1)) s1, tr1 ++ [EError e])
  end.
Proof.
  rewrite exec_mutate_persist, persist_eq. unfold exec.
  destruct (saveToGitHub nw message (start (set_games (f (games s)) s)))
    as [[[]|e] r1]; cbn [fst snd st trace]; [| done].
  destruct (send_all_run {| type := ty; payload := p; ts := now |}
              (clients (st r1)) r1) as (_ & Hs & Ht).
  by rewrite Hs, Ht.
Qed.

(** X9.  When the document fetched at boot has a tag but a content that
    cannot be decoded or parsed, the server starts with no entry and with
    that tag.  The first valid add then sends, as its first request, a PUT
    of a one-entry array under the tag of the unread document; if the store
    accepts it, the add is answered 201 and the remote document is now that
    one-entry array. *)
Theorem unreadable_document_is_overwritten ADMIN_TOKEN req env sha m t d k
    sha' o s' tr :
  truthy sha = true ->
  authorization req = Some ("Bearer " +:+ ADMIN_TOKEN) ->
  trimmed (body_title req) = Some t ->
  trimmed (body_description req) = Some d ->
  trimmed (body_link req) = Some k ->
  on_put (net env) 0 = FetchOk sha' ->
  exec (route ADMIN_TOKEN Add req env) (boot (LoadDocument sha (inl m))).1
    = (o, s', tr) ->
  games (boot (LoadDocument sha (inl m))).1 = [] /\
  o = Returned {| status := 201; body := BGame (new_game t d k req env) |} /\
  games s' = [new_game t d k req env] /\
  fileSHA s' = sha' /\
  tr = [EPut (commit_message "add" (new_game t d k req env))
          [new_game t d k req env] sha;
        ECommitted (commit_message "add" (new_game t d k req env))].
Proof.
  intros Hsha Hauth Ht Hd Hk Hput.
  rewrite (route_mutated ADMIN_TOKEN Add req env _
             {| mut_apply := push (new_game t d k req env); mut_undo := pop;
                mut_message := commit_message "add" (new_game t d k req env);
                mut_type := "add";
                mut_payload := PGame (new_game t d k req env);
                mut_ok := {| status := 201;
                             body := BGame (new_game t d k req env) |} |}
             Hauth); [| by cbn [mutation_of]; rewrite Ht, Hd, Hk].
  cbn [mut_apply mut_undo mut_message mut_type mut_payload mut_ok].
  rewrite exec_persist_save.
  rewrite (save_accepted_first _ _ _ sha'); [| exact Hsha | exact Hput].
  intros [= <- <- <-]. by cbn.
Qed.

Lemma unreadable_document_is_overwritten_witness :
  exists o s' tr,
    exec (route "secret" Add pong_request ok_env) (boot broken_document).1
      = (o, s', tr) /\
    games (boot broken_document).1 = [] /\
    o = Returned {| status := 201;
                    body := BGame (new_game "Pong" "classic" "http://pong"
                                     pong_request ok_env) |} /\
    games s' = [new_game "Pong" "classic" "http://pong" pong_request ok_env] /\
    fileSHA s' = Some "v2" /\
    tr = [EPut (commit_message "add"
                  (new_game "Pong" "classic" "http://pong" pong_request ok_env))
            [new_game "Pong" "classic" "http://pong" pong_request ok_env]
            (Some "v9");
          ECommitted (commit_message "add"
                        (new_game "Pong" "classic" "http://pong" pong_request
                           ok_env))].
Proof.
  destruct (exec (route "secret" Add pong_request ok_env)
              (boot broken_document).1) as [[o s'] tr] eqn:Hrun.
  exists o, s', tr. split; [reflexivity |].
  apply (unreadable_document_is_overwritten "secret" pong_request ok_env
           (Some "v9") "Unexpected token" "Pong" "classic" "http://pong"
           (Some "v2") o s' tr);
    first [reflexivity | exact Hrun].
Defined.

(** ** Uploads *)



(** X10.  On [/add] and [/edit], a file whose mime type does not start
    with [image/] ends an authorized request in the error handler: the
    answer is 500 with the message of [fileFilter], one console line is
    printed, the state is untouched and the store is not contacted.  The
    header is checked first: without the right one the answer is 401
    whatever the file. *)
Theorem non_image_upload_refused ADMIN_TOKEN op req env s f :
  op <> Delete ->
  file req = Some f ->
  startsWith (mimetype f) "image/" = false ->
  (authorization req = Some ("Bearer " +:+ ADMIN_TOKEN) ->
   exec (app_post ADMIN_TOKEN op req env) s =
     (Returned {| status := 500; body := BError "Only image files are allowed" |},
      s, [EError "Unhandled error: Only image files are allowed"])) /\
  (authorization req <> Some ("Bearer " +:+ ADMIN_TOKEN) ->
   exec (app_post ADMIN_TOKEN op req env) s =
     (Returned {| status := 401; body := BError "Unauthorized" |}, s, [])).
Proof.
  intros Hop Hfile Hf.
  assert (app_post ADMIN_TOKEN op req env =
          requireAuth ADMIN_TOKEN req
            (errorHandler "Only image files are allowed")) as ->.
  { unfold app_post, upload_single, fileFilter. rewrite Hfile, Hf.
    by destruct op. }
  destruct (requireAuth_cases ADMIN_TOKEN req
              (errorHandler "Only image files are allowed"))
    as [[Hauth ->]|[Hauth ->]]; split; done.
Qed.

Lemma non_image_upload_refused_witness :
  exec (app_post "secret" Add leaflet_request ok_env) empty_state =
    (Returned {| status := 500;
                 body := BError "Only image files are allowed" |},
     empty_state, [EError "Unhandled error: Only image files are allowed"]).
Proof.
  destruct (non_image_upload_refused "secret" Add leaflet_request ok_env
              empty_state leaflet) as [Hrefused _];
    [discriminate | reflexivity | reflexivity |].
  apply Hrefused. reflexivity.
Defined.



(** ** Invariants of sequences of requests *)

(** With every middleware, a request leaves [games] as it was or applies
    the mutation it asks for. *)
Lemma post_games ADMIN_TOKEN c s :
  games (post ADMIN_TOKEN c s) = games s \/
  exists m,
    mutation_of (call_op c) (call_req c) (call_env c) (games s) = Some m /\
    games (post ADMIN_TOKEN c s) = mut_apply m (games s).
Proof.
  unfold post.
  destruct (app_post_cases ADMIN_TOKEN (call_op c) (call_req c) (call_env c))
    as [[-> _]|(f & _ & _ & _ & ->)].
  - destruct (exec (route ADMIN_TOKEN (call_op c) (call_req c) (call_env c)) s)
      as [[o s'] tr] eqn:Hrun. cbn [fst snd].
    apply route_committed in Hrun as [(_ & m & _ & Hm & _ & ->)|(_ & -> & _)];
      [right; by exists m | by left].
  - left.
    by destruct (requireAuth_cases ADMIN_TOKEN (call_req c)
                   (errorHandler "Only image files are allowed"))
      as [[_ ->]|[_ ->]].
Qed.

Lemma trimmed_filled field x : trimmed field = Some x -> x <> EmptyString.
Proof.
  unfold trimmed. destruct field as [y|]; [| done].
  destruct (truthy_string (trim y)) eqn:Hy; [| done].
  intros [= <-] Hempty. by rewrite Hempty in Hy.
Qed.

Lemma new_image_filled req old :
  old <> Some EmptyString -> new_image req old <> Some EmptyString.
Proof.
  intros Hold. unfold new_image. destruct (file req) as [f|]; [done |].
  destruct (body_image req) as [[|c x]|]; done.
Qed.

Lemma mutation_filled op req env l m :
  mutation_of op req env l = Some m ->
  Forall filled l -> Forall filled (mut_apply m l).
Proof.
  intros Hm Hl. destruct op; mutation_inv Hm; cbn [mut_apply].
  - apply Forall_app. split; [done |]. apply Forall_singleton.
    unfold filled. cbn [new_game title description link image].
    split_and!; try (by eapply trimmed_filled).
    by apply new_image_filled.
  - unfold assign. apply Forall_insert; [done |].
    match goal with H : l !! _ = Some ?prev |- _ =>
      pose proof (Forall_lookup_1 _ _ _ _ Hl H) as (Ht & Hd & Hk & Hi)
    end.
    unfold filled. cbn [edited title description link image].
    split_and!; [| | | by apply new_image_filled].
    + destruct (trimmed (body_title req)) eqn:Hx; [| done].
      by eapply trimmed_filled.
    + destruct (trimmed (body_description req)) eqn:Hx; [| done].
      by eapply trimmed_filled.
    + destruct (trimmed (body_link req)) eqn:Hx; [| done].
      by eapply trimmed_filled.
  - unfold splice_out. apply Forall_app. split.
    + by apply Forall_take.
    + by apply Forall_drop.
Qed.

(** X12.  No request empties a field.  If no entry has an empty [title],
    [description] or [link], nor the empty string as [image], then after any
    sequence of requests to [/add], [/edit] and [/delete], accepted or not,
    committed or not, no entry has: an add needs the three texts non-blank,
    and an edit takes a blank field as "leave it". *)
Theorem fields_stay_filled ADMIN_TOKEN cs : forall s,
  Forall filled (games s) ->
  Forall filled (games (post_all ADMIN_TOKEN cs s)).
Proof.
  induction cs as [|c cs IH]; intros s Hs; [done |]. cbn [post_all].
  apply IH.
  destruct (post_games ADMIN_TOKEN c s) as [->|(m & Hm & ->)]; [done |].
  by eapply mutation_filled.
Qed.

Lemma fields_stay_filled_witness :
  Forall filled (games library_state) /\
  Forall filled
    (games (post_all "secret"
              [ {| call_op := Edit; call_req := describe_request;
                   call_env := later_env |};
                {| call_op := Add; call_req := tetris_request;
                   call_env := later_env |} ]
              library_state)).
Proof.
  assert (Forall filled (games library_state)) as Hfilled.
  { apply Forall_singleton. unfold filled, pong.
    cbn [title description link image]. split_and!; discriminate. }
  split; [exact Hfilled |].
  apply (fields_stay_filled "secret"). exact Hfilled.
Defined.

(** ** Order *)

Lemma mutation_keys op req env l m :
  mutation_of op req env l = Some m ->
  (op = Add /\
   key <$> mut_apply m l = (key <$> l) ++ [(generated_id env, iso_now env)]) \/
  (op = Edit /\ key <$> mut_apply m l = key <$> l) \/
  (op = Delete /\ exists idx, key <$> mut_apply m l = delete idx (key <$> l)).
Proof.
  intros Hm. destruct op; mutation_inv Hm; cbn [mut_apply].
  - left. split; [done |]. unfold push. by rewrite fmap_app.
  - right. left. split; [done |]. unfold assign.
    rewrite list_fmap_insert. apply list_insert_id.
    rewrite list_lookup_fmap.
    by match goal with H : l !! _ = Some _ |- _ => rewrite H end.
  - right. right. split; [done |].
    match goal with H : findIndex _ _ = Some ?idx |- _ => exists idx end.
    unfold splice_out. by rewrite <- delete_take_drop, list_fmap_delete.
Qed.

Lemma post_keys ADMIN_TOKEN c s :
  key <$> games (post ADMIN_TOKEN c s) = key <$> games s \/
  (call_op c = Add /\
   key <$> games (post ADMIN_TOKEN c s) =
     (key <$> games s) ++ [(generated_id (call_env c), iso_now (call_env c))])
  \/
  (call_op c = Delete /\
   exists idx,
     key <$> games (post ADMIN_TOKEN c s) = delete idx (key <$> games s)).
Proof.
  destruct (post_games ADMIN_TOKEN c s) as [->|(m & Hm & ->)]; [by left |].
  destruct (mutation_keys _ _ _ _ _ Hm)
    as [[Hop ->]|[[Hop ->]|(Hop & idx & ->)]]; [| by left |].
  - right. by left.
  - right. right. split; [done |]. by exists idx.
Qed.

Lemma add_keys_cons c cs :
  add_keys (c :: cs) =
  match call_op c with
  | Add => (generated_id (call_env c), iso_now (call_env c)) :: add_keys cs
  | _ => add_keys cs
  end.
Proof. unfold add_keys. simpl. by destruct (call_op c). Qed.

Lemma post_all_keys ADMIN_TOKEN cs : forall s,
  exists kept added,
    key <$> games (post_all ADMIN_TOKEN cs s) = kept ++ added /\
    kept `sublist_of` (key <$> games s) /\
    added `sublist_of` add_keys cs.
Proof.
  induction cs as [|c cs IH]; intros s.
  { exists (key <$> games s), []. by rewrite app_nil_r. }
  cbn [post_all].
  destruct (IH (post ADMIN_TOKEN c s)) as (kept & added & Hkeys & Hkept & Hadded).
  destruct (post_keys ADMIN_TOKEN c s)
    as [Hsame|[(Hop & Happ)|(Hop & idx & Hdel)]].
  - exists kept, added. rewrite Hsame in Hkept. split_and!; [done | done |].
    rewrite add_keys_cons. destruct (call_op c); [by apply sublist_cons | done..].
  - rewrite Happ in Hkept.
    apply sublist_app_r in Hkept as (k1 & k2 & -> & Hk1 & Hk2).
    exists k1, (k2 ++ added). rewrite Hkeys, <- app_assoc.
    split_and!; [done | done |].
    rewrite add_keys_cons, Hop.
    by apply (sublist_app k2 [_] added).
  - rewrite Hdel in Hkept.
    exists kept, added. split_and!; [done | |].
    + etrans; [exact Hkept | apply sublist_delete].
    + by rewrite add_keys_cons, Hop.
Qed.

(** X13.  Entries never change places when the requests are handled in
    turn, each to its answer before the next is begun.  After any sequence
    of requests, the keys (id and creation time) of the entries are: some of
    the keys that were there, in the order they were in, followed by keys
    given by adds of the sequence, in the order of those adds. *)
Theorem order_is_kept ADMIN_TOKEN cs : forall s,
  exists kept added,
    key <$> games (Async.shared (Async.in_turn (arrivals ADMIN_TOKEN cs s)))
      = kept ++ added /\
    kept `sublist_of` (key <$> games s) /\
    added `sublist_of` add_keys cs.
Proof. intros s. rewrite in_turn_post_all. apply post_all_keys. Qed.

(** ** Generated ids *)

Lemma pretty_N_go_no_underscore x : forall s,
  has_char "_" s = false -> has_char "_" (pretty_N_go x s) = false.
Proof.
  induction (N.lt_wf_0 x) as [x _ IH]; intros s Hs.
  assert (x = 0 \/ 0 < x)%N as [->|Hx] by lia.
  - by rewrite pretty_N_go_0.
  - rewrite pretty_N_go_step by done. apply IH.
    + by apply N.div_lt.
    + cbn [has_char]. rewrite Hs, orb_false_r.
      unfold pretty_N_char. by repeat case_match.
Qed.

Lemma pretty_N_no_underscore (x : N) : has_char "_" (pretty x) = false.
Proof.
  unfold pretty, pretty_N. case_decide; [done |].
  by apply pretty_N_go_no_underscore.
Qed.

(** Two strings split at their first underscore. *)
Lemma split_at_underscore a : forall b r1 r2,
  has_char "_" a = false ->
  has_char "_" b = false ->
  a +:+ String "_" r1 = b +:+ String "_" r2 ->
  a = b /\ r1 = r2.
Proof.
  induction a as [|c a IH]; intros [|d b] r1 r2 Ha Hb; cbn [String.append].
  - by intros [= ->].
  - intros [= <- _]. cbn [has_char] in Hb.
    by rewrite Ascii.eqb_refl in Hb.
  - intros [= -> _]. cbn [has_char] in Ha.
    by rewrite Ascii.eqb_refl in Ha.
  - intros [= -> Heq]. cbn [has_char] in Ha, Hb.
    apply orb_false_elim in Ha as [_ Ha]. apply orb_false_elim in Hb as [_ Hb].
    destruct (IH b r1 r2 Ha Hb Heq) as [-> ->]. done.
Qed.

Lemma id_of_draw_inj d1 d2 : id_of_draw d1 = id_of_draw d2 -> d1 = d2.
Proof.
  destruct d1 as [n1 r1], d2 as [n2 r2]. unfold id_of_draw. cbn [fst snd].
  intros Heq. apply (inj (String.app "game_")) in Heq.
  change ("_" +:+ r1) with (String "_" r1) in Heq.
  change ("_" +:+ r2) with (String "_" r2) in Heq.
  apply split_at_underscore in Heq as [Hn ->];
    [| apply pretty_N_no_underscore..].
  by apply (inj pretty) in Hn as ->.
Qed.

(** X14.  The id that [/add] generates, ["game_"], [Date.now()], ["_"] and
    the random suffix, determines both the clock reading and the suffix:
    two adds get the same id exactly when they read the same millisecond
    and drew the same suffix. *)
Theorem generated_id_same_draw env1 env2 :
  generated_id env1 = generated_id env2 <->
  date_now env1 = date_now env2 /\ random36 env1 = random36 env2.
Proof.
  split.
  - intros Heq.
    assert ((date_now env1, random36 env1) = (date_now env2, random36 env2))
      as [= -> ->]; [| done].
    by apply (id_of_draw_inj (date_now env1, random36 env1)
                (date_now env2, random36 env2)).
  - unfold generated_id. by intros [-> ->].
Qed.

Lemma add_draws_cons c cs :
  add_draws (c :: cs) =
  match call_op c with
  | Add => (date_now (call_env c), random36 (call_env c)) :: add_draws cs
  | _ => add_draws cs
  end.
Proof. unfold add_draws. simpl. by destruct (call_op c). Qed.

Lemma add_keys_draws cs : (add_keys cs).*1 = id_of_draw <$> add_draws cs.
Proof.
  induction cs as [|c cs IH]; [done |].
  rewrite add_keys_cons, add_draws_cons.
  destruct (call_op c); [| done..].
  rewrite !fmap_cons, IH. done.
Qed.

(** Distinct draws give distinct ids in [post_all]. *)
Lemma post_all_distinct_draws ADMIN_TOKEN cs s :
  NoDup (id <$> games s) ->
  NoDup (add_draws cs) ->
  (forall d, d ∈ add_draws cs -> id_of_draw d ∉ id <$> games s) ->
  NoDup (id <$> games (post_all ADMIN_TOKEN cs s)).
Proof.
  intros Hold Hdraws Hfresh.
  destruct (post_all_keys ADMIN_TOKEN cs s) as (kept & added & Hkeys & Hk & Ha).
  assert (forall l : list Game, id <$> l = (key <$> l).*1) as Hid.
  { intros l. by rewrite <- list_fmap_compose. }
  rewrite Hid, Hkeys, fmap_app.
  apply (fmap_sublist fst) in Hk, Ha.
  rewrite <- Hid in Hk. rewrite add_keys_draws in Ha.
  assert (NoDup (id_of_draw <$> add_draws cs)) as Hnew.
  { apply NoDup_fmap_2_strong; [| done].
    intros d1 d2 _ _. apply id_of_draw_inj. }
  apply NoDup_app. split_and!.
  - exact (sublist_NoDup _ _ Hold Hk).
  - intros x Hx Hx'.
    apply (elem_of_sublist _ _ _ Hx) in Hk.
    apply (elem_of_sublist _ _ _ Hx') in Ha.
    clear Hx Hx'.
    apply list_elem_of_fmap in Ha as (d & -> & Hd).
    by apply (Hfresh d Hd).
  - exact (sublist_NoDup _ _ Hnew Ha).
Qed.

(** X15.  Distinct draws give distinct ids when the requests are handled
    in turn, each to its answer before the next is begun.  Starting from
    entries with pairwise distinct ids, after any sequence of requests the
    ids are pairwise distinct, provided that no two adds of the sequence saw
    both the same clock reading and the same random suffix, and that no
    entry present at the start has the id of such a draw. *)
Theorem distinct_draws_distinct_ids ADMIN_TOKEN cs s :
  NoDup (id <$> games s) ->
  NoDup (add_draws cs) ->
  (forall d, d ∈ add_draws cs -> id_of_draw d ∉ id <$> games s) ->
  NoDup (id <$> games
           (Async.shared (Async.in_turn (arrivals ADMIN_TOKEN cs s)))).
Proof. rewrite in_turn_post_all. apply post_all_distinct_draws. Qed.

Lemma distinct_draws_distinct_ids_witness :
  NoDup (id <$> games
           (Async.shared (Async.in_turn (arrivals "secret" session
                                           empty_state)))).
Proof.
  apply (distinct_draws_distinct_ids "secret" session empty_state).
  - apply NoDup_nil_2.
  - apply (bool_decide_unpack _). vm_compute. reflexivity.
  - intros d _ Hin.
    change (id <$> games empty_state) with (@nil string) in Hin.
    by apply elem_of_nil in Hin.
Defined.

(** ** A new subscriber and the next change *)

(** X16.  A socket accepted with [readyState] 1 is sent a frame for the
    next change that commits: its type is that of the route and its payload
    the entry or the id that the response carries. *)
Theorem new_client_hears_next_change ADMIN_TOKEN ws envc op req env s o s' tr :
  ready ws ->
  exec (route ADMIN_TOKEN op req env) (exec (connect ws envc) s).1.2
    = (o, s', tr) ->
  committed tr ->
  exists resp p,
    o = Returned resp /\ announces (body resp) p /\
    ESend (cid ws) {| type := op_name op; payload := p; ts := ts_now env |}
      ∈ tr.
Proof.
  intros Hready Hrun Hc.
  assert (clients (exec (connect ws envc) s).1.2 = clients s ++ [ws]) as Hcl
    by done.
  apply route_run in Hrun
    as [(_ & -> & _)|(m & o1 & tr1 & _ & Hm & Hev & _ & Hcase)].
  { by destruct Hc as [x ?%elem_of_nil]. }
  destruct o1 as [[]|e].
  - destruct Hcase as (-> & _ & ->).
    destruct (mutation_announced _ _ _ _ _ Hm) as [Hann _].
    exists (mut_ok m), (mut_payload m). split_and!; [done | |].
    + unfold announces.
      destruct (body (mut_ok m)), (mut_payload m); try done; by destruct Hann.
    + apply elem_of_app. right. rewrite <- (mutation_type _ _ _ _ _ Hm).
      apply frames_elem. split; [done |]. exists ws. rewrite Hcl.
      split_and!; [| done | done].
      apply elem_of_app. right. by apply list_elem_of_singleton.
  - destruct Hcase as (_ & _ & -> & _).
    by apply (committed_iff _ _ _ _ _ Hev (error_not_committed e)) in Hc.
Qed.

Lemma new_client_hears_next_change_witness :
  exists o s' tr,
    exec (route "secret" Add pong_request ok_env)
      (exec (connect viewer ok_env) empty_state).1.2 = (o, s', tr) /\
    exists resp p,
      o = Returned resp /\ announces (body resp) p /\
      ESend (cid viewer) {| type := op_name Add; payload := p;
                            ts := ts_now ok_env |} ∈ tr.
Proof.
  destruct (exec (route "secret" Add pong_request ok_env)
              (exec (connect viewer ok_env) empty_state).1.2)
    as [[o s'] tr] eqn:Hrun.
  exists o, s', tr. split; [reflexivity |].
  apply (new_client_hears_next_change "secret" viewer ok_env Add pong_request
           ok_env empty_state o s' tr eq_refl Hrun).
  vm_compute in Hrun. injection Hrun as <- <- <-.
  eexists. apply (list_elem_of_lookup_2 _ 1). reflexivity.
Defined.

(** ** The first step of an add *)

Lemma async_requireAuth_passes ADMIN_TOKEN req next :
  authorization req = Some ("Bearer " +:+ ADMIN_TOKEN) ->
  Async.requireAuth ADMIN_TOKEN req next = next.
Proof.
  intros Hauth. unfold Async.requireAuth. rewrite Hauth.
  by rewrite String.eqb_refl.
Qed.

(** A save stops at an [await] before it is over, the state being as it
    found it. *)
Lemma async_save_waits nw message r :
  exists k r',
    Async.saveToGitHub nw message r = (Async.Await k, r') /\ st r' = st r.
Proof.
  unfold Async.saveToGitHub, MAX_RETRIES. cbn [Async.save_loop].
  unfold Async.try_catch, Async.save_attempt, Async.bind at 1, Async.now at 1,
    get_state.
  cbn [Async.co_bind Nat.ltb Nat.leb orb].
  destruct (truthy (fileSHA (st r)));
    unfold Async.bind, Async.now, Async.await, Async.ret, get_state,
      fetch_get, fetch_put;
    cbn [negb Async.co_bind Async.co_catch st]; by eexists _, _.
Qed.

(** An add that passes the middleware pushes its entry and stops at the
    first [await] of the save. *)
Lemma async_add_first_step ADMIN_TOKEN req env r t d k :
  authorization req = Some ("Bearer " +:+ ADMIN_TOKEN) ->
  (forall f, file req = Some f -> startsWith (mimetype f) "image/" = true) ->
  trimmed (body_title req) = Some t ->
  trimmed (body_description req) = Some d ->
  trimmed (body_link req) = Some k ->
  exists c r',
    Async.express_app ADMIN_TOKEN Add (Parsed req) env r = (Async.Await c, r')
    /\ st r' = set_games (push (new_game t d k req env) (games (st r))) (st r).
Proof.
  intros Hauth Hfile Ht Hd Hk.
  cbn [Async.express_app].
  unfold Async.app_post. rewrite async_requireAuth_passes by done.
  assert (Async.upload_single req (Async.handler Add req env)
          = Async.post_add req env) as ->.
  { unfold Async.upload_single, fileFilter.
    destruct (file req) as [f|] eqn:Hf; [| done].
    by rewrite (Hfile f eq_refl). }
  unfold Async.post_add. rewrite Ht, Hd, Hk. cbn zeta.
  unfold Async.bind at 1, Async.now at 1, modify.
  cbn [Async.co_bind]. unfold Async.try_catch, Async.bind at 1.
  match goal with
  | |- context [Async.saveToGitHub ?nw ?m ?r] =>
      destruct (async_save_waits nw m r) as (k0 & r' & -> & Hst)
  end.
  cbn [Async.co_bind Async.co_catch]. by eexists _, _.
Qed.

(** X17.  The entry of an add is in [games] before the add waits for
    anything.  Whatever other requests are in flight, the first step of a
    request to [/add] that passes [requireAuth], has an image or no file and
    three non-blank texts, leaves [games] as it was with the new entry at
    its end, changes nothing else of the state, and ends at an [await] with
    no answer given yet. *)
Theorem add_pushes_before_waiting ADMIN_TOKEN req env sv i t d k :
  Async.pending sv !! i
    = Some (Async.arrive ADMIN_TOKEN Add (Parsed req) env) ->
  authorization req = Some ("Bearer " +:+ ADMIN_TOKEN) ->
  (forall f, file req = Some f -> startsWith (mimetype f) "image/" = true) ->
  trimmed (body_title req) = Some t ->
  trimmed (body_description req) = Some d ->
  trimmed (body_link req) = Some k ->
  games (Async.shared (Async.resume i sv)) =
    games (Async.shared sv) ++ [new_game t d k req env] /\
  fileSHA (Async.shared (Async.resume i sv)) = fileSHA (Async.shared sv) /\
  clients (Async.shared (Async.resume i sv)) = clients (Async.shared sv) /\
  Async.answer i (Async.resume i sv) = None.
Proof.
  intros Hp Hauth Hfile Ht Hd Hk.
  assert (i < length (Async.pending sv)) as Hi
    by (by apply lookup_lt_Some in Hp).
  unfold Async.resume, Async.answer. rewrite Hp.
  cbn [Async.arrive Async.code].
  destruct (async_add_first_step ADMIN_TOKEN req env
              (Async.view sv
                 (Async.arrive ADMIN_TOKEN Add (Parsed req) env)) t d k)
    as (c & r' & -> & Hst); [done..|].
  cbn [Async.shared Async.pending].
  rewrite Hst, list_lookup_insert_eq by done. done.
Qed.

Lemma add_pushes_before_waiting_witness :
  games (Async.shared (Async.resume 1 two_adds)) =
    games (Async.shared two_adds) ++ [tetris] /\
  fileSHA (Async.shared (Async.resume 1 two_adds))
    = fileSHA (Async.shared two_adds) /\
  clients (Async.shared (Async.resume 1 two_adds))
    = clients (Async.shared two_adds) /\
  Async.answer 1 (Async.resume 1 two_adds) = None.
Proof.
  apply (add_pushes_before_waiting "secret" tetris_request later_env two_adds 1
           "Tetris" "blocks" "http://tetris");
    first [reflexivity | discriminate].
Defined.
